(** * e-scraper: the map-listing scraper and its email-discovery engine

    A shallow embedding of [escrape.py] (and of the listing loop of the
    older entry point [main33_efnt4.py]) together with the properties its
    specification states about them.

    Python strings are lists of characters, Python integers are [Z], the
    browser is an explicit state (open handles, objects, the result list)
    threaded through a small state-and-exception monad that also collects
    the trace of external actions. *)

From Stdlib Require Import String Ascii List ZArith Lia Bool Arith.
Import ListNotations.

Set Implicit Arguments.

(** ** Python strings *)

Module PyStr.

Definition str := list ascii.

Definition s2l (s : string) : str := list_ascii_of_string s.

(** [s.startswith(p)] *)
Fixpoint startswith (p s : str) : bool :=
  match p, s with
  | [], _ => true
  | _ :: _, [] => false
  | c :: p', d :: s' => Ascii.eqb c d && startswith p' s'
  end.

(** [s.startswith((p1, p2, ...))]: a tuple of prefixes *)
Definition startswith_any (ps : list str) (s : str) : bool :=
  existsb (fun p => startswith p s) ps.

(** the rest of [s] after the prefix [p], when [s] starts with [p] *)
Fixpoint strip_prefix (p s : str) : option str :=
  match p, s with
  | [], _ => Some s
  | _ :: _, [] => None
  | c :: p', d :: s' => if Ascii.eqb c d then strip_prefix p' s' else None
  end.

(** [a == b] *)
Fixpoint str_eqb (a b : str) : bool :=
  match a, b with
  | [], [] => true
  | c :: a', d :: b' => Ascii.eqb c d && str_eqb a' b'
  | _, _ => false
  end.

(** truth value of a string: [if s:] *)
Definition truthy (s : str) : bool :=
  match s with [] => false | _ :: _ => true end.

(** [s.split(sep)] for a non-empty separator: the pieces between the
    non-overlapping occurrences of [sep], found scanning from the left.
    [acc] is the current piece, reversed; [skip] counts the characters of
    an occurrence of [sep] still to be passed over. *)
Fixpoint split_go (sep : str) (skip : nat) (acc : str) (s : str) : list str :=
  match s with
  | [] => [rev acc]
  | c :: s' =>
      match skip with
      | S k => split_go sep k acc s'
      | O =>
          if startswith sep s
          then rev acc :: split_go sep (pred (length sep)) [] s'
          else split_go sep 0 (c :: acc) s'
      end
  end.

Definition split (sep s : str) : list str := split_go sep 0 [] s.

(** [s.rstrip(c)] for a one-character set *)
Fixpoint lstrip_char (c : ascii) (s : str) : str :=
  match s with
  | d :: s' => if Ascii.eqb d c then lstrip_char c s' else s
  | [] => []
  end.

Definition rstrip_char (c : ascii) (s : str) : str :=
  rev (lstrip_char c (rev s)).

(** character classes of the regular expressions *)
Definition in_range (lo hi c : ascii) : bool :=
  (nat_of_ascii lo <=? nat_of_ascii c) && (nat_of_ascii c <=? nat_of_ascii hi).

Definition is_alpha (c : ascii) : bool := in_range "a" "z" c || in_range "A" "Z" c.
Definition is_digit (c : ascii) : bool := in_range "0" "9" c.

(** [c.isalnum()], for the characters below 256: the letters and digits
    of ASCII and, above them, the two ordinal indicators, the superscript
    digits, the micro sign, the three fractions and the accented letters
    (the multiplication and the division sign are none) *)
Definition isalnum (c : ascii) : bool :=
  let n := nat_of_ascii c in
  is_alpha c || is_digit c
  || (n =? 170) || (n =? 178) || (n =? 179) || (n =? 181) || (n =? 185) || (n =? 186)
  || ((188 <=? n) && (n <=? 190)) || ((192 <=? n) && (n <=? 214))
  || ((216 <=? n) && (n <=? 246)) || (248 <=? n).

(** [c.isspace()], for the characters below 256 *)
Definition is_space (c : ascii) : bool :=
  let n := nat_of_ascii c in
  ((9 <=? n) && (n <=? 13)) || ((28 <=? n) && (n <=? 32))
  || (n =? 133) || (n =? 160).

(** [s.lstrip()] and [s.strip()] *)
Fixpoint lstrip (s : str) : str :=
  match s with
  | c :: s' => if is_space c then lstrip s' else s
  | [] => []
  end.

Definition strip (s : str) : str := rev (lstrip (rev (lstrip s))).

End PyStr.
Import PyStr.

(** ** Regular expressions, as Python's backtracking [re.match] runs them *)

Module Regex.

(** The fragment the program's patterns use.  [Rep n p] is [[p]{n,}]:
    at least [n] characters of the class [p], greedy. *)
Inductive re : Type :=
| Eps : re
| Lit : str -> re
| Rep : nat -> (ascii -> bool) -> re
| Alt : re -> re -> re
| Seq : re -> re -> re
| Opt : re -> re.

(** greedy repetition: take one more character of the class first, and
    only then try to stop here *)
Fixpoint rep_match (n : nat) (p : ascii -> bool) (s : str) (k : str -> bool) : bool :=
  match s with
  | c :: s' => (p c && rep_match (pred n) p s' k) || ((n =? 0) && k s)
  | [] => (n =? 0) && k []
  end.

(** [rmatch r s k]: some way of matching [r] at the start of [s] leaves a
    rest that the continuation [k] accepts; alternatives are tried from
    the left *)
Fixpoint rmatch (r : re) (s : str) (k : str -> bool) : bool :=
  match r with
  | Eps => k s
  | Lit l => match strip_prefix l s with Some rest => k rest | None => false end
  | Rep n p => rep_match n p s k
  | Alt a b => rmatch a s k || rmatch b s k
  | Seq a b => rmatch a s (fun s' => rmatch b s' k)
  | Opt a => rmatch a s k || k s
  end.

(** [re.match(r, s) is not None]: a match anchored at the start of [s],
    whatever follows it *)
Definition re_match (r : re) (s : str) : bool := rmatch r s (fun _ => true).

(** the strings a pattern matches exactly *)
Inductive matches : re -> str -> Prop :=
| m_eps : matches Eps []
| m_lit l : matches (Lit l) l
| m_rep n p s : n <= length s -> Forall (fun c => p c = true) s -> matches (Rep n p) s
| m_alt_l a b s : matches a s -> matches (Alt a b) s
| m_alt_r a b s : matches b s -> matches (Alt a b) s
| m_seq a b s t : matches a s -> matches b t -> matches (Seq a b) (s ++ t)
| m_opt_some a s : matches a s -> matches (Opt a) s
| m_opt_none a : matches (Opt a) [].

End Regex.
Import Regex.

(** ** Exceptions and outcomes *)

(** The exceptions the program can meet.  All of them are subclasses of
    Python's [Exception], so [except Exception] catches each one.
    [TimeoutError] is the built-in class that [except TimeoutError] names;
    Playwright's own timeout is [PlaywrightTimeout]. *)
Inductive exn : Type :=
| TimeoutError
| PlaywrightTimeout
| PlaywrightError
| ValueError (msg : str)
| IndexError
| UnboundLocalError.

Inductive outcome (A : Type) : Type :=
| Ok (a : A)
| Raise (e : exn).
Arguments Ok {A} a.
Arguments Raise {A} e.

(** ** What the program talks to *)

(** Python run-time functions the program calls: the built-in [float()],
    with the type of its results, and [re.findall(email_pattern, text)]. *)
Record runtime : Type := {
  F : Type;
  float : str -> option F;
  findall_email : str -> list str
}.

(** What a navigation gives: [goto], the wait for the load (or for the
    results container) and [inner_text("body")] either all succeed and give
    the rendered text, or one of them raises. *)
Inductive page_result : Type :=
| NavError (e : exn)
| Rendered (text : str).

(** The sites and the search engine, and whether a browser launches. *)
Record world : Type := {
  site_page : str -> page_result;      (* seen by the direct identity *)
  search_page : str -> page_result;    (* seen by the proxied identity *)
  launch_result : bool -> outcome unit (* [chromium.launch], proxied or not *)
}.

(** One rendered listing of the map page, as the detail extraction meets
    it: the click and the settle wait, the four [inner_text] lookups, the
    page URL after the click, and the IP check of the fresh local page. *)
Record listing_view : Type := {
  lv_click : outcome unit;
  lv_name : outcome str;
  lv_address : outcome str;
  lv_website : outcome str;
  lv_phone : outcome str;
  lv_url : str;
  lv_ipcheck : outcome unit
}.

(** The map page (the proxied identity's first tab), a state machine. *)
Record map_ui : Type := {
  W : Type;
  (* the IP check, loading the map, typing the query, waiting for results *)
  ui_search : str -> Z -> W -> outcome unit * W;
  (* [page.evaluate] looking the results panel up: is it there *)
  ui_panel : W -> outcome bool;
  (* [page.locator(anchor).all()] *)
  ui_items : W -> outcome (list listing_view);
  (* [page.wait_for_timeout(ms)] *)
  ui_wait : Z -> W -> W;
  (* [page.evaluate] scrolling the panel by 2000: did it find the panel *)
  ui_scroll : W -> outcome bool * W;
  (* [page.hover(anchor)] *)
  ui_hover : W -> outcome unit
}.

(** ** Traces *)

Inductive message : Type :=
| PInvalidWebsite (url : str)     (* "Invalid website URL: ..." *)
| PInvalidSkipped (url : str)     (* "Invalid URL skipped: ..." *)
| PErrorExtracting (e : exn)      (* "Error extracting business details: ..." *)
| PPanelNotFound                  (* "Results panel not found." *)
| PScrolling (current : Z)        (* "Scrolling... Current count: ..." *)
| PReached (required scrolls : Z) (* "Required items (...) reached after ... scrolls." *)
| PRetry (scrolls : Z)            (* "No new results loaded after scroll ... Retrying 1 more time..." *)
| PStopping (scrolls : Z)         (* "Stopping scroll - no additional results after ... scrolls." *)
| PUnableToScroll                 (* "Unable to scroll - panel not found or undefined." *)
| PWarnOnly (final required scrolls : Z) (* "Warning: Only .../... listings loaded after ... scrolls." *)
| PFinalCount (final : Z)         (* "Final listing count matches or exceeds ..." *)
| PErrorScrolling (e : exn).      (* "Error during scrolling: ..." *)

(** One row of the output ([class Business]); every field starts as
    [None]. *)
Record Business (R : runtime) : Type := {
  name : option str;
  address : option str;
  website : option str;
  phone_number : option str;
  email : option str;
  latitude : option (F R);
  longitude : option (F R)
}.

Inductive event (R : runtime) : Type :=
| ELaunch (proxied : bool)                 (* [chromium.launch] *)
| EGoto (page : nat) (url : str) (timeout : Z)
| EWait (ms : Z)                           (* [wait_for_timeout] of the loader *)
| EScroll                                  (* the loader scrolls the panel *)
| EPrint (m : message)
| ESave (excel : bool) (filename : str) (rows : list (Business R)).
Arguments ELaunch {R} proxied.
Arguments EGoto {R} page url timeout.
Arguments EWait {R} ms.
Arguments EScroll {R}.
Arguments EPrint {R} m.

(** Browsers, contexts and pages are handles; closing one closes what was
    opened under it.  [hanc] lists the handles above this one. *)
Record hrec : Type := {
  hid : nat;
  hanc : list nat;
  hopen : bool
}.

(** The state of one invocation: the map page, the handles, the
    [Business] objects made so far (an object is its index), the local
    variable [business], and [business_list.business_list], a list of
    references to those objects. *)
Record state (R : runtime) (U : map_ui) : Type := {
  ui : W U;
  handles : list hrec;
  heap : list (Business R);
  var_business : option nat;
  business_list : list nat
}.

(** ** The monad: state, exceptions, and the trace of what was done *)

Section Monad.
Variable R : runtime.
Variable St : Type.

Definition M (A : Type) : Type := St -> outcome A * St * list (event R).

Definition ret {A} (a : A) : M A := fun s => (Ok a, s, []).

Definition bind {A B} (m : M A) (k : A -> M B) : M B :=
  fun s =>
    match m s with
    | (Ok a, s1, t1) =>
        match k a s1 with
        | (r, s2, t2) => (r, s2, t1 ++ t2)
        end
    | (Raise e, s1, t1) => (Raise e, s1, t1)
    end.

Definition raise {A} (e : exn) : M A := fun s => (Raise e, s, []).

Definition emit (ev : event R) : M unit := fun s => (Ok tt, s, [ev]).

Definition gets {A} (f : St -> A) : M A := fun s => (Ok (f s), s, []).

Definition modify (f : St -> St) : M unit := fun s => (Ok tt, f s, []).

(** an external call whose outcome the world fixes *)
Definition ext {A} (r : outcome A) : M A := fun s => (r, s, []).

(** [try: body except Exception as e: handler e] *)
Definition try_except {A} (body : M A) (handler : exn -> M A) : M A :=
  fun s =>
    match body s with
    | (Ok a, s1, t1) => (Ok a, s1, t1)
    | (Raise e, s1, t1) =>
        match handler e s1 with
        | (r, s2, t2) => (r, s2, t1 ++ t2)
        end
    end.

(** [try: body finally: fin]: [fin] runs on every outcome of [body];
    the outcome of [body] stands unless [fin] itself raises *)
Definition try_finally {A} (body : M A) (fin : M unit) : M A :=
  fun s =>
    match body s with
    | (r, s1, t1) =>
        match fin s1 with
        | (Ok _, s2, t2) => (r, s2, t1 ++ t2)
        | (Raise e, s2, t2) => (Raise e, s2, t1 ++ t2)
        end
    end.
End Monad.

Arguments ret {R St A} a.
Arguments raise {R St A} e.
Arguments emit {R St} ev.
Arguments ext {R St A} r.
Arguments bind {R St A B} m k.
Arguments gets {R St A} f.
Arguments modify {R St} f.
Arguments try_except {R St A} body handler.
Arguments try_finally {R St A} body fin.

Declare Scope monad_scope.
Delimit Scope monad_scope with monad.
Notation "x <- m ;; k" := (bind m (fun x => k))
  (at level 61, m at next level, right associativity) : monad_scope.
Notation "m ;; k" := (bind m (fun _ => k))
  (at level 61, right associativity) : monad_scope.
Open Scope monad_scope.

(** ** The pure helpers of [escrape.py] *)

(** [[a-zA-Z0-9-]] *)
Definition host_char (c : ascii) : bool :=
  is_alpha c || is_digit c || Ascii.eqb c "-".

(** [^(http:\/\/www\.|https:\/\/www\.|http:\/\/|https:\/\/)?[a-zA-Z0-9-]+\.[a-zA-Z]{2,}]
    (the anchor [^] is what [re.match] does anyway) *)
Definition url_pattern : re :=
  Seq (Opt (Alt (Lit (s2l "http://www."))
           (Alt (Lit (s2l "https://www."))
           (Alt (Lit (s2l "http://"))
                (Lit (s2l "https://"))))))
      (Seq (Rep 1 host_char)
      (Seq (Lit (s2l "."))
           (Rep 2 is_alpha))).

(** [is_valid_url]: [re.match(url_pattern, url) is not None] *)
Definition is_valid_url (url : str) : bool := re_match url_pattern url.

(** [extract_coordinates_from_url]: the text after the last ["/@"], up to
    the next ["/"], cut at the commas; its first two fields go through
    [float()], left to right. *)
Definition extract_coordinates_from_url (R : runtime) (url : str)
  : outcome (F R * F R) :=
  let coordinates := hd [] (split (s2l "/") (last (split (s2l "/@") url) [])) in
  let fields := split (s2l ",") coordinates in
  match float R (hd [] fields) with
  | None => Raise (ValueError (hd [] fields))
  | Some lat =>
      match nth_error fields 1 with
      | None => Raise IndexError
      | Some f =>
          match float R f with
          | None => Raise (ValueError f)
          | Some lon => Ok (lat, lon)
          end
      end
  end.

(** [extract_email_from_rendered_text], once [inner_text("body")] has
    given the text: [emails[0] if emails else None] *)
Definition extract_email_from_rendered_text (R : runtime) (text : str)
  : option str :=
  match findall_email R text with
  | [] => None
  | e :: _ => Some e
  end.

(** truth value of an optional string: [if email_found:] *)
Definition found (e : option str) : bool :=
  match e with
  | Some s => truthy s
  | None => false
  end.

(** [x or empty]: the empty string when [x] is falsy *)
Definition or_empty (x : str) : str := if truthy x then x else [].

(** [s.replace(" ", "_")] *)
Definition replace_space (s : str) : str :=
  map (fun c => if Ascii.eqb c " " then "_"%char else c) s.

(** [sanitize_filename]: the characters that are alphanumeric or one of
    space, underscore and hyphen, joined, then [strip()] *)
Definition sanitize_filename (filename : str) : str :=
  strip (filter (fun c => isalnum c || Ascii.eqb c " " || Ascii.eqb c "_"
                          || Ascii.eqb c "-") filename).

(** [listings[:total]] *)
Definition slice_to {A} (l : list A) (total : Z) : list A :=
  if (0 <=? total)%Z then firstn (Z.to_nat total) l
  else firstn (length l - Z.to_nat (- total)) l.

Definition common_contact_paths : list str :=
  map s2l ["/about"; "/contact"; "/about-us"; "/contact-us"; "/support";
           "/help"; "/get-in-touch"]%string.

Definition scheme_prefixes : list str := [s2l "http://"; s2l "https://"].

(** the search-engine query of the fallback *)
Definition google_query (website_url : str) : str :=
  s2l "https://www.google.com/search?q=" ++ s2l "site:" ++ website_url ++ s2l " email".

(** the empty [Business()] *)
Definition Business0 (R : runtime) : Business R :=
  {| name := None; address := None; website := None; phone_number := None;
     email := None; latitude := None; longitude := None |}.

Definition set_name R (v : str) (b : Business R) : Business R :=
  {| name := Some v; address := address b; website := website b;
     phone_number := phone_number b; email := email b;
     latitude := latitude b; longitude := longitude b |}.
Definition set_address R (v : str) (b : Business R) : Business R :=
  {| name := name b; address := Some v; website := website b;
     phone_number := phone_number b; email := email b;
     latitude := latitude b; longitude := longitude b |}.
Definition set_website R (v : str) (b : Business R) : Business R :=
  {| name := name b; address := address b; website := Some v;
     phone_number := phone_number b; email := email b;
     latitude := latitude b; longitude := longitude b |}.
Definition set_phone_number R (v : str) (b : Business R) : Business R :=
  {| name := name b; address := address b; website := website b;
     phone_number := Some v; email := email b;
     latitude := latitude b; longitude := longitude b |}.
Definition set_email R (v : option str) (b : Business R) : Business R :=
  {| name := name b; address := address b; website := website b;
     phone_number := phone_number b; email := v;
     latitude := latitude b; longitude := longitude b |}.
Definition set_coordinates R (v : F R * F R) (b : Business R) : Business R :=
  {| name := name b; address := address b; website := website b;
     phone_number := phone_number b; email := email b;
     latitude := Some (fst v); longitude := Some (snd v) |}.

(** [l[i] = f(l[i])] *)
Fixpoint update_nth {A} (i : nat) (f : A -> A) (l : list A) : list A :=
  match l, i with
  | [], _ => []
  | x :: l', O => f x :: l'
  | x :: l', S i' => x :: update_nth i' f l'
  end.

(** ** Handles *)

Definition ancestors (hs : list hrec) (h : nat) : list nat :=
  match find (fun r => hid r =? h) hs with
  | Some r => hanc r
  | None => []
  end.

(** a fresh handle under [parent] ([None] for a browser) *)
Definition open_under (parent : option nat) (hs : list hrec) : list hrec :=
  hs ++ [{| hid := length hs;
            hanc := match parent with
                    | Some p => p :: ancestors hs p
                    | None => []
                    end;
            hopen := true |}].

(** [h.close()]: [h] and everything opened under it *)
Definition close_handle (h : nat) (hs : list hrec) : list hrec :=
  map (fun r =>
         if (hid r =? h) || existsb (Nat.eqb h) (hanc r)
         then {| hid := hid r; hanc := hanc r; hopen := false |}
         else r) hs.

(** leaving [with sync_playwright()]: Playwright stops and closes every
    browser still running *)
Definition close_all (hs : list hrec) : list hrec :=
  map (fun r => {| hid := hid r; hanc := hanc r; hopen := false |}) hs.

Definition open_ids (hs : list hrec) : list nat :=
  map hid (filter hopen hs).

(** ** The program *)

Section Program.
Variable R : runtime.
Variable U : map_ui.
Variable Wd : world.

Let St : Type := state R U.
Let Prog : Type -> Type := M R St.
Let Loader : Type -> Type := M R (W U).

(** *** The listing loader, on the map page alone *)

(** [len(page.locator(anchor).all())] *)
Definition count_items : Loader Z :=
  fun w =>
    match ui_items U w with
    | Ok l => (Ok (Z.of_nat (length l)), w, [])
    | Raise e => (Raise e, w, [])
    end.

Definition wait_for_timeout (ms : Z) : Loader unit :=
  fun w => (Ok tt, ui_wait U ms w, [EWait ms]).

Definition scroll_panel : Loader bool :=
  fun w => let (r, w') := ui_scroll U w in (r, w', [EScroll]).

Definition find_panel : Loader bool :=
  fun w => (ui_panel U w, w, []).

(** The [while scroll_count < max_scrolls] loop; it gives the final
    [scroll_count].  [fuel] only bounds the recursion: the guard ends
    the loop before the fuel does (lemma [scroll_loop_fuel]).  The
    inner value [None] stands for the [break] of the stall check. *)
Fixpoint scroll_loop (fuel : nat)
    (required_items max_scrolls previous_count scroll_count : Z) : Loader Z :=
  match fuel with
  | O => ret scroll_count
  | S fuel' =>
      if (scroll_count <? max_scrolls)%Z then
        current_count <- count_items ;;
        emit (EPrint (PScrolling current_count)) ;;
        if (current_count >=? required_items)%Z then
          emit (EPrint (PReached required_items scroll_count)) ;;
          ret scroll_count
        else
          r <- (if (current_count =? previous_count)%Z then
                  emit (EPrint (PRetry scroll_count)) ;;
                  wait_for_timeout 20000 ;;
                  current_count <- count_items ;;
                  if (current_count =? previous_count)%Z then
                    emit (EPrint (PStopping scroll_count)) ;;
                    ret None
                  else ret (Some current_count)
                else ret (Some current_count)) ;;
          match r with
          | None => ret scroll_count
          | Some current_count =>
              scrolled <- scroll_panel ;;
              if scrolled then
                wait_for_timeout 3000 ;;
                scroll_loop fuel' required_items max_scrolls
                            current_count (scroll_count + 1)
              else
                emit (EPrint PUnableToScroll) ;;
                ret scroll_count
          end
      else ret scroll_count
  end.

(** [scroll_to_load_more(page, required_items, max_scrolls)] *)
Definition scroll_to_load_more (required_items max_scrolls : Z) : Loader unit :=
  try_except
    (results_panel <- find_panel ;;
     if negb results_panel then
       emit (EPrint PPanelNotFound)
     else
       scroll_count <- scroll_loop (S (Z.to_nat max_scrolls))
                                   required_items max_scrolls 0 0 ;;
       final_count <- count_items ;;
       if (final_count <? required_items)%Z then
         emit (EPrint (PWarnOnly final_count required_items scroll_count))
       else
         emit (EPrint (PFinalCount final_count)))
    (fun e => emit (EPrint (PErrorScrolling e))).

(** *** State access *)

Definition set_ui (w : W U) (s : St) : St :=
  {| ui := w; handles := handles s; heap := heap s;
     var_business := var_business s; business_list := business_list s |}.
Definition set_handles (hs : list hrec) (s : St) : St :=
  {| ui := ui s; handles := hs; heap := heap s;
     var_business := var_business s; business_list := business_list s |}.
Definition set_heap (h : list (Business R)) (s : St) : St :=
  {| ui := ui s; handles := handles s; heap := h;
     var_business := var_business s; business_list := business_list s |}.
Definition set_var_business (v : option nat) (s : St) : St :=
  {| ui := ui s; handles := handles s; heap := heap s;
     var_business := v; business_list := business_list s |}.
Definition set_business_list (l : list nat) (s : St) : St :=
  {| ui := ui s; handles := handles s; heap := heap s;
     var_business := var_business s; business_list := l |}.

(** run a step of the map page inside the whole state *)
Definition on_ui {A} (m : Loader A) : Prog A :=
  fun s => match m (ui s) with (r, w, t) => (r, set_ui w s, t) end.

(** [browser.new_context()], [context.new_page()]: the new handle *)
Definition open_handle (parent : option nat) : Prog nat :=
  fun s => (Ok (length (handles s)),
            set_handles (open_under parent (handles s)) s, []).

Definition close (h : nat) : Prog unit :=
  modify (fun s => set_handles (close_handle h (handles s)) s).

(** [business = Business()] *)
Definition new_business : Prog nat :=
  fun s => (Ok (length (heap s)),
            set_var_business (Some (length (heap s)))
              (set_heap (heap s ++ [Business0 R]) s), []).

(** [business.field = v] *)
Definition assign (b : nat) (f : Business R -> Business R) : Prog unit :=
  modify (fun s => set_heap (update_nth b f (heap s)) s).

(** [business_list.business_list.append(business)]; reading a local
    variable that was never assigned raises *)
Definition append_business : Prog unit :=
  fun s =>
    match var_business s with
    | Some b => (Ok tt, set_business_list (business_list s ++ [b]) s, [])
    | None => (Raise UnboundLocalError, s, [])
    end.

(** *** The email-discovery engine *)

(** [page.goto(url, timeout)], the wait for the load, and
    [extract_email_from_rendered_text(page)] *)
Definition visit (fetch : str -> page_result) (page : nat) (url : str)
    (timeout : Z) : Prog (option str) :=
  emit (EGoto page url timeout) ;;
  match fetch url with
  | NavError e => raise e
  | Rendered text => ret (extract_email_from_rendered_text R text)
  end.

(** [perform_site_specific_google_search(search_page, website_url)] *)
Definition perform_site_specific_google_search (page : nat)
    (website_url : str) : Prog (option str) :=
  if negb (startswith_any scheme_prefixes website_url) then
    emit (EPrint (PInvalidWebsite website_url)) ;;
    ret None
  else
    try_except
      (email_found <- visit (search_page Wd) page (google_query website_url) 15000 ;;
       if found email_found then ret email_found else ret None)
      (fun e =>
         match e with
         | TimeoutError => ret None
         | _ => ret None
         end).

(** the [for path in common_contact_paths] loop; [Some e] is the
    [return email_found] inside it, [None] its normal end *)
Fixpoint sweep_contact_paths (page : nat) (website_url : str)
    (paths : list str) : Prog (option str) :=
  match paths with
  | [] => ret None
  | path :: rest =>
      r <- try_except
             (let full_url := rstrip_char "/" website_url ++ path in
              email_found <- visit (site_page Wd) page full_url 15000 ;;
              if found email_found then ret email_found else ret None)
             (fun _ => ret None) ;;
      match r with
      | Some e => ret (Some e)
      | None => sweep_contact_paths page website_url rest
      end
  end.

(** [search_email_on_website(local_context, website_url, proxy_context)] *)
Definition search_email_on_website (local_context : nat) (website_url : str)
    (proxy_context : nat) : Prog (option str) :=
  search_page <- open_handle (Some local_context) ;;
  try_finally
    (email_found <- visit (site_page Wd) search_page website_url 30000 ;;
     if found email_found then ret email_found
     else
       r <- sweep_contact_paths search_page website_url common_contact_paths ;;
       match r with
       | Some e => ret (Some e)
       | None =>
           proxy_page <- open_handle (Some proxy_context) ;;
           email_found <- perform_site_specific_google_search proxy_page website_url ;;
           close proxy_page ;;
           ret email_found
       end)
    (close search_page).

(** *** The session orchestrator *)

(** The website and email part of one listing (lines 342-365):
    [business] is the object [b]. *)
Definition discover_email (local_browser proxy_context : nat)
    (lv : listing_view) (b : nat) (site : str) : Prog unit :=
  if truthy site then
    let site' :=
      if negb (startswith_any scheme_prefixes site)
      then s2l "https://" ++ site else site in
    assign b (set_website site') ;;
    if is_valid_url site' then
      local_context <- open_handle (Some local_browser) ;;
      local_page <- open_handle (Some local_context) ;;
      ext (lv_ipcheck lv) ;;
      found_email <- search_email_on_website local_context site' proxy_context ;;
      assign b (set_email found_email) ;;
      close local_context
    else
      emit (EPrint (PInvalidSkipped site'))
  else ret tt.

(** Reading the detail panel into [business], the object [b], and
    looking for its email (lines 333-365). *)
Definition fill_business (local_browser proxy_context : nat)
    (lv : listing_view) (b : nat) : Prog unit :=
  v <- ext (lv_name lv) ;; assign b (set_name (or_empty v)) ;;
  v <- ext (lv_address lv) ;; assign b (set_address (or_empty v)) ;;
  site <- ext (lv_website lv) ;; assign b (set_website (or_empty site)) ;;
  v <- ext (lv_phone lv) ;; assign b (set_phone_number (or_empty v)) ;;
  c <- ext (extract_coordinates_from_url R (lv_url lv)) ;;
  assign b (set_coordinates c) ;;
  discover_email local_browser proxy_context lv b (or_empty site).

(** The body of [for listing in listings] (lines 328-370). *)
Definition process_listing (local_browser proxy_context : nat)
    (lv : listing_view) : Prog unit :=
  try_finally
    (try_except
       (ext (lv_click lv) ;;
        b <- new_business ;;
        fill_business local_browser proxy_context lv b)
       (fun e => emit (EPrint (PErrorExtracting e))))
    append_business.

Fixpoint for_each_listing (local_browser proxy_context : nat)
    (listings : list listing_view) : Prog unit :=
  match listings with
  | [] => ret tt
  | lv :: rest =>
      process_listing local_browser proxy_context lv ;;
      for_each_listing local_browser proxy_context rest
  end.

(** [business_list.save_to_excel(name)], [save_to_csv(name)]: the rows
    are the objects the list refers to, read when the file is written *)
Definition rows_of (s : St) : list (Business R) :=
  map (fun b => nth b (heap s) (Business0 R)) (business_list s).

Definition save (excel : bool) (filename : str) : Prog unit :=
  fun s => (Ok tt, s, [ESave excel filename (rows_of s)]).

Definition launch (proxied : bool) : Prog nat :=
  emit (ELaunch proxied) ;;
  ext (launch_result Wd proxied) ;;
  open_handle None.

(** the two checks at the top of [scrape_google_maps] *)
Definition validate_inputs (proxy_server user_agent : str) : outcome unit :=
  if negb (startswith (s2l "http://") proxy_server
           && negb (startswith (s2l "https://") proxy_server))
  then Raise (ValueError (s2l "Invalid proxy format: " ++ proxy_server))
  else if negb (truthy user_agent)
  then Raise (ValueError (s2l "User agent cannot be empty."))
  else Ok tt.

(** from [proxy_context = ...] to the two saves: the [try] block of
    lines 288-376 *)
Definition session (proxy_browser local_browser : nat) (delay total : Z)
    (suburb state_ : str) : Prog unit :=
  let search_query := s2l "boutiques in +" ++ suburb ++ s2l ", " ++ state_ in
  let output_file_suffix := replace_space (suburb ++ s2l "_" ++ state_) in
  proxy_context <- open_handle (Some proxy_browser) ;;
  page <- open_handle (Some proxy_context) ;;
  on_ui (fun w => let (r, w') := ui_search U search_query delay w in (r, w', [])) ;;
  on_ui (scroll_to_load_more total 10) ;;
  on_ui (fun w => (ui_hover U w, w, [])) ;;
  all <- on_ui (fun w => (ui_items U w, w, [])) ;;
  let listings := slice_to all total in
  modify (set_business_list []) ;;
  for_each_listing local_browser proxy_context listings ;;
  save true (sanitize_filename output_file_suffix) ;;
  save false (sanitize_filename output_file_suffix).

(** the inside of [with sync_playwright() as p:] (lines 269-379): the
    two launches, then the session with both browsers closed in its
    [finally] *)
Definition with_browsers (delay total : Z) (suburb state_ : str) : Prog unit :=
  proxy_browser <- launch true ;;
  local_browser <- launch false ;;
  try_finally
    (session proxy_browser local_browser delay total suburb state_)
    (close proxy_browser ;; close local_browser).

(** [scrape_google_maps(proxy_server, proxy_username, proxy_password,
    user_agent, delay, total, suburb, state)]; the credentials only go
    to the launch, and the random viewport size has no part in what
    follows.  Leaving the [with] block stops Playwright, which closes
    whatever is still open. *)
Definition scrape_google_maps (proxy_server user_agent : str)
    (delay total : Z) (suburb state_ : str) : Prog unit :=
  ext (validate_inputs proxy_server user_agent) ;;
  try_finally
    (with_browsers delay total suburb state_)
    (modify (fun s => set_handles (close_all (handles s)) s)).

(** the state an invocation starts in *)
Definition initial_state (w : W U) : St :=
  {| ui := w; handles := []; heap := []; var_business := None;
     business_list := [] |}.

End Program.

Arguments new_business {R U}.
Arguments append_business {R U}.
Arguments assign {R U} b f.
Arguments open_handle {R U} parent.
Arguments close {R U} h.

(** *** The older entry point

    The body of the listing loop of [main33_efnt4.py] (lines 157-187).
    Its own [search_email_on_website(context, url)] is taken as given:
    what matters here is where the [append] stands. *)
Section Main33.
Variable R : runtime.
Variable U : map_ui.
Variable engine33 : str -> M R (state R U) (option str).

Definition process_listing_33 (lv : listing_view) : M R (state R U) unit :=
  try_except
    (ext (lv_click lv) ;;
     b <- new_business ;;
     v <- ext (lv_name lv) ;; assign b (set_name (or_empty v)) ;;
     v <- ext (lv_address lv) ;; assign b (set_address (or_empty v)) ;;
     site <- ext (lv_website lv) ;; assign b (set_website (or_empty site)) ;;
     v <- ext (lv_phone lv) ;; assign b (set_phone_number (or_empty v)) ;;
     c <- ext (extract_coordinates_from_url R (lv_url lv)) ;;
     assign b (set_coordinates c) ;;
     (if truthy (or_empty site) then
        let site' :=
          if negb (startswith_any scheme_prefixes (or_empty site))
          then s2l "https://" ++ or_empty site else or_empty site in
        assign b (set_website site') ;;
        if is_valid_url site' then
          found_email <- engine33 site' ;;
          assign b (set_email found_email)
        else
          emit (EPrint (PInvalidSkipped site'))
      else ret tt) ;;
     append_business)
    (fun e => emit (EPrint (PErrorExtracting e))).

Fixpoint for_each_listing_33 (listings : list listing_view) : M R (state R U) unit :=
  match listings with
  | [] => ret tt
  | lv :: rest => process_listing_33 lv ;; for_each_listing_33 rest
  end.
End Main33.

(** ** Notions the statements use *)

(** [sep in s] *)
Fixpoint occurs (sep s : str) : bool :=
  startswith sep s ||
  match s with
  | [] => false
  | _ :: s' => occurs sep s'
  end.

(** the part of [s] before the first [c] *)
Fixpoint before (c : ascii) (s : str) : str :=
  match s with
  | [] => []
  | d :: s' => if Ascii.eqb d c then [] else d :: before c s'
  end.

(** a coordinate field: no slash and no comma in it *)
Definition plain_field (f : str) : bool :=
  forallb (fun c => negb (Ascii.eqb c "/") && negb (Ascii.eqb c ",")) f.

(** where a coordinate field may end: at the end of the URL, at a comma or
    at a slash *)
Definition field_end (tail : str) : bool :=
  match tail with
  | [] => true
  | c :: _ => Ascii.eqb c "," || Ascii.eqb c "/"
  end.

(** §4.1 and §8: the URL contains a [/@lat,lon,...] segment with numeric
    [lat] and [lon] *)
Definition has_coordinate_segment (R : runtime) (url lat lon : str) : Prop :=
  exists pre tail,
    url = pre ++ s2l "/@" ++ lat ++ s2l "," ++ lon ++ tail
    /\ field_end tail = true
    /\ float R lat <> None /\ float R lon <> None.

(** *** A sample run time

    [float()] on plain decimal literals: an optional sign, digits, and an
    optional fraction.  The value is kept exact, as the digits read as an
    integer together with the number of digits after the point. *)

Definition digit_value (c : ascii) : Z := Z.of_nat (nat_of_ascii c - 48).

Fixpoint read_digits (acc : Z) (s : str) : option (Z * nat) :=
  match s with
  | [] => Some (acc, 0)
  | c :: s' =>
      if is_digit c then
        match read_digits (10 * acc + digit_value c) s' with
        | Some (v, n) => Some (v, S n)
        | None => None
        end
      else None
  end.

Definition decimal_unsigned (s : str) : option (Z * nat) :=
  let int_part := before "." s in
  let frac_part := skipn (S (length int_part)) s in
  match read_digits 0 int_part with
  | Some (i, ni) =>
      match read_digits i frac_part with
      | Some (v, nf) => if (0 <? ni + nf) then Some (v, nf) else None
      | None => None
      end
  | None => None
  end.

Definition decimal_float (s : str) : option (Z * nat) :=
  match s with
  | c :: s' =>
      if Ascii.eqb c "-" then
        match decimal_unsigned s' with
        | Some (v, n) => Some ((- v)%Z, n)
        | None => None
        end
      else if Ascii.eqb c "+" then decimal_unsigned s'
      else decimal_unsigned s
  | [] => None
  end.

(** the sample pages hold nothing or exactly one address, so
    [re.findall] gives the whole text of a page that is not empty *)
Definition sample_runtime : runtime :=
  {| F := Z * nat;
     float := decimal_float;
     findall_email := fun text => match text with [] => [] | _ => [text] end |}.

(** *** A sample world

    [mail.example] shows an address on its home page; [shop.example] has
    none there, its [/about] times out and its [/contact] shows one;
    [quiet.example] shows none anywhere but the search engine knows one;
    [silent.example] shows none, its [/help] times out and the search
    times out too; [down.example] does not load at all. *)
Definition sample_world : world :=
  {| site_page := fun url =>
       if str_eqb url (s2l "https://mail.example")
       then Rendered (s2l "info@mail.example")
       else if str_eqb url (s2l "https://shop.example/about")
       then NavError PlaywrightTimeout
       else if str_eqb url (s2l "https://shop.example/contact")
       then Rendered (s2l "hello@shop.example")
       else if str_eqb url (s2l "https://silent.example/help")
       then NavError PlaywrightTimeout
       else if str_eqb url (s2l "https://down.example")
       then NavError PlaywrightTimeout
       else Rendered [];
     search_page := fun url =>
       if str_eqb url (google_query (s2l "https://quiet.example"))
       then Rendered (s2l "found@search.example")
       else NavError PlaywrightTimeout;
     launch_result := fun _ => Ok tt |}.

(** a site that is gone while the search engine still knows its address *)
Definition gone_world : world :=
  {| site_page := fun _ => NavError PlaywrightTimeout;
     search_page := fun _ => Rendered (s2l "old@gone.example");
     launch_result := fun _ => Ok tt |}.

Definition sample_listing (site : string) : listing_view :=
  {| lv_click := Ok tt;
     lv_name := Ok (s2l "Cafe");
     lv_address := Ok (s2l "1 Main St");
     lv_website := Ok (s2l site);
     lv_phone := Ok (s2l "555 0100");
     lv_url := s2l "https://www.google.com/maps/place/Cafe/@-37.8,144.9,17z/data=!3m1";
     lv_ipcheck := Ok tt |}.

(** a listing whose click times out *)
Definition dead_listing : listing_view :=
  {| lv_click := Raise PlaywrightTimeout;
     lv_name := Ok (s2l "Bar");
     lv_address := Ok (s2l "2 Main St");
     lv_website := Ok [];
     lv_phone := Ok [];
     lv_url := s2l "https://www.google.com/maps/place/Bar/@-37.9,145.0,17z";
     lv_ipcheck := Ok tt |}.

(** a listing whose phone lookup times out *)
Definition no_phone_listing : listing_view :=
  {| lv_click := Ok tt;
     lv_name := Ok (s2l "Bar");
     lv_address := Ok (s2l "2 Main St");
     lv_website := Ok [];
     lv_phone := Raise PlaywrightTimeout;
     lv_url := s2l "https://www.google.com/maps/place/Bar/@-37.9,145.0,17z";
     lv_ipcheck := Ok tt |}.

(** a sample map page: the lists of listings it will show, one after the
    other as time passes; the first is what it shows now, and the last
    stays *)
Definition sample_ui : map_ui :=
  {| W := list (list listing_view);
     ui_search := fun _ _ w => (Ok tt, w);
     ui_panel := fun _ => Ok true;
     ui_items := fun w => Ok (hd [] w);
     ui_wait := fun _ w => match w with _ :: (_ :: _) as w' => w' | _ => w end;
     ui_scroll := fun w => (Ok true, w);
     ui_hover := fun _ => Ok tt |}.

Definition sample_state (w : W sample_ui) : state sample_runtime sample_ui :=
  {| ui := w; handles := []; heap := []; var_business := None;
     business_list := [] |}.

(** a listing whose site is fine but for which the check of the local
    address times out *)
Definition no_ip_listing : listing_view :=
  {| lv_click := Ok tt;
     lv_name := Ok (s2l "Cafe");
     lv_address := Ok (s2l "1 Main St");
     lv_website := Ok (s2l "mail.example");
     lv_phone := Ok (s2l "555 0100");
     lv_url := s2l "https://www.google.com/maps/place/Cafe/@-37.8,144.9,17z/data=!3m1";
     lv_ipcheck := Raise PlaywrightTimeout |}.

(** the handles as the listing loop finds them: the two browsers, and
    the context and the page of the search identity *)
Definition loop_state (w : W sample_ui) : state sample_runtime sample_ui :=
  set_handles
    (open_under (Some 2) (open_under (Some 0) (open_under None (open_under None []))))
    (sample_state w).

(** *** What the engine meets

    a page yields an email when it loads and the extractor gives a
    non-empty value *)
Definition yields (R : runtime) (pr : page_result) : option str :=
  match pr with
  | Rendered text =>
      if found (extract_email_from_rendered_text R text)
      then extract_email_from_rendered_text R text else None
  | NavError _ => None
  end.

Definition contact_url (website_url path : str) : str :=
  rstrip_char "/" website_url ++ path.

(** the contact pages up to and including the first that yields an email,
    and that email *)
Fixpoint sweep_outcome (R : runtime) (Wd : world) (website_url : str)
    (paths : list str) : list str * option str :=
  match paths with
  | [] => ([], None)
  | path :: rest =>
      match yields R (site_page Wd (contact_url website_url path)) with
      | Some e => ([contact_url website_url path], Some e)
      | None =>
          let (visited, r) := sweep_outcome R Wd website_url rest in
          (contact_url website_url path :: visited, r)
      end
  end.

(** the result and the trace of the search-engine fallback *)
Definition fallback_result (R : runtime) (Wd : world) (website_url : str)
  : option str :=
  if startswith_any scheme_prefixes website_url
  then yields R (search_page Wd (google_query website_url))
  else None.

Definition fallback_trace (R : runtime) (page : nat) (website_url : str)
  : list (event R) :=
  if startswith_any scheme_prefixes website_url
  then [EGoto page (google_query website_url) 15000]
  else [EPrint (PInvalidWebsite website_url)].

Definition gotos (R : runtime) (page : nat) (timeout : Z) (urls : list str)
  : list (event R) :=
  map (fun u => EGoto page u timeout) urls.

(** the number of times the loader scrolled *)
Definition is_scroll (R : runtime) (ev : event R) : bool :=
  match ev with
  | EScroll => true
  | _ => false
  end.

Definition scrolls (R : runtime) (t : list (event R)) : nat :=
  length (filter (@is_scroll R) t).

(** a sample feed: nothing is rendered at first, five listings have
    appeared by the time any wait is over *)
Definition late_feed : W sample_ui :=
  [[]; repeat (sample_listing "shop.example") 5].

(** *** Records and listings

    a field of a record is unset or holds what the listing's lookup gave *)
Definition from_lookup (r : outcome str) (field : option str) : Prop :=
  field = None \/ exists v, r = Ok v /\ field = Some (or_empty v).

(** the record [b] describes the listing [lv]: each of its fields is
    unset or comes from the detail panel of [lv] (the website possibly
    with [https://] put in front, the email from wherever the engine found
    it) *)
Definition describes (R : runtime) (lv : listing_view) (b : Business R) : Prop :=
  from_lookup (lv_name lv) (name b)
  /\ from_lookup (lv_address lv) (address b)
  /\ (website b = None
      \/ exists v, lv_website lv = Ok v
                   /\ (website b = Some (or_empty v)
                       \/ website b = Some (s2l "https://" ++ or_empty v)))
  /\ from_lookup (lv_phone lv) (phone_number b)
  /\ ((latitude b = None /\ longitude b = None)
      \/ exists c, extract_coordinates_from_url R (lv_url lv) = Ok c
                   /\ latitude b = Some (fst c) /\ longitude b = Some (snd c)).

(** while listing [lv] is read: its record is the newest object, the
    variable [business] refers to it, and the list is as it was *)
Definition building (R : runtime) (U : map_ui) (h : list (Business R))
    (l : list nat) (lv : listing_view) (s : state R U) : Prop :=
  exists obj,
    heap s = h ++ [obj] /\ describes lv obj
    /\ var_business s = Some (length h) /\ business_list s = l.

(** every record the list or the variable [business] refers to describes
    one of the listings [seen] *)
Definition all_described (R : runtime) (U : map_ui) (seen : list listing_view)
    (s : state R U) : Prop :=
  forall b, In b (business_list s) \/ var_business s = Some b ->
    exists lv obj, In lv seen /\ nth_error (heap s) b = Some obj /\ describes lv obj.

(** *** Handles *)

(** no identifier from [n] on is in use *)
Definition ids_below (n : nat) (hs : list hrec) : Prop :=
  Forall (fun r => hid r < n /\ Forall (fun a => a < n) (hanc r)) hs.

(** the handle is one of the browsers [B] or was opened under one *)
Definition rooted (B : list nat) (r : hrec) : Prop :=
  In (hid r) B \/ exists a, In a (hanc r) /\ In a B.

(** all handles hang under the browsers [B], the identifiers below the
    next one are all in use, and the next one is at least [n] *)
Definition under_browsers (R : runtime) (U : map_ui) (B : list nat) (n : nat)
    (s : state R U) : Prop :=
  Forall (rooted B) (handles s)
  /\ (forall p, p < length (handles s) -> exists r, In r (handles s) /\ hid r = p)
  /\ n <= length (handles s).

(** *** Properties of whole runs

    A property of runs that holds of a step that does nothing and of two
    steps one after the other holds of every program built from steps
    that have it. *)
Section Respect.
Variable R : runtime.
Variable St : Type.

Definition transition : Type := St -> St -> list (event R) -> Prop.

Class Stepwise (T : transition) : Prop := {
  step_refl : forall s, T s s [];
  step_trans : forall s s1 s2 t1 t2,
    T s s1 t1 -> T s1 s2 t2 -> T s s2 (t1 ++ t2)
}.

Definition respects {A} (T : transition) (m : M R St A) : Prop :=
  forall s, match m s with (_, s', t) => T s s' t end.

(** every event of the trace satisfies [Q] *)
Definition emitting (Q : event R -> Prop) : transition :=
  fun _ _ t => Forall Q t.

(** the state property [P] is kept *)
Definition keeping (P : St -> Prop) : transition :=
  fun s s' _ => P s -> P s'.
End Respect.

Arguments respects {R St A} T m.
Arguments emitting {R St} Q.
Arguments keeping {R St} P.

Definition is_save (R : runtime) (ev : event R) : bool :=
  match ev with
  | ESave _ _ _ => true
  | _ => false
  end.

(** nothing was handed to the sink *)
Definition not_save (R : runtime) (ev : event R) : Prop :=
  match ev with
  | ESave _ _ _ => False
  | _ => True
  end.

(** the fallback never printed "Invalid website URL" *)
Definition not_invalid_website (R : runtime) (ev : event R) : Prop :=
  match ev with
  | EPrint (PInvalidWebsite _) => False
  | _ => True
  end.

(** ** The words of the specification, for comparison with the code *)

(** §8: "a site with no email discoverable at any stage": no page of
    the site and no search result yields one, be it for lack of an
    address in the text or because the navigation fails *)
Definition nothing_discoverable (R : runtime) (Wd : world) (url : str) : Prop :=
  yields R (site_page Wd url) = None
  /\ (forall q, In q common_contact_paths ->
        yields R (site_page Wd (contact_url url q)) = None)
  /\ yields R (search_page Wd (google_query url)) = None.


Definition is_tld (t : str) : Prop :=
  2 <= length t /\ Forall (fun c => is_alpha c = true) t.

(** §4.2: "[optional scheme][optional www.]host.tld shape with a
    two-letter-or-longer TLD", the whole string; the host may have
    several labels, as in [example.co.uk] *)
Definition url_shape (s : str) : Prop :=
  exists scheme www host tld,
    s = scheme ++ www ++ host ++ s2l "." ++ tld
    /\ In scheme [[]; s2l "http://"; s2l "https://"]
    /\ In www [[]; s2l "www."]
    /\ host <> []
    /\ Forall (fun c => host_char c || Ascii.eqb c "." = true) host
    /\ is_tld tld.

(** what [url_pattern] asks of the start of the string *)
Definition begins_like_url (s : str) : Prop :=
  exists prefix label tld rest,
    s = prefix ++ label ++ s2l "." ++ tld ++ rest
    /\ In prefix [[]; s2l "http://www."; s2l "https://www.";
                  s2l "http://"; s2l "https://"]
    /\ label <> []
    /\ Forall (fun c => host_char c = true) label
    /\ is_tld tld.

(** ** The email pattern and [re.findall] *)

(** [[a-zA-Z0-9._%+-]] *)
Definition local_char (c : ascii) : bool :=
  is_alpha c || is_digit c || Ascii.eqb c "." || Ascii.eqb c "_"
  || Ascii.eqb c "%" || Ascii.eqb c "+" || Ascii.eqb c "-".

(** [[a-zA-Z0-9.-]] *)
Definition domain_char (c : ascii) : bool :=
  is_alpha c || is_digit c || Ascii.eqb c "." || Ascii.eqb c "-".

(** [[a-zA-Z0-9._%+-]+@[a-zA-Z0-9.-]+\.[a-zA-Z]{2,}] *)
Definition email_pattern : re :=
  Seq (Rep 1 local_char)
      (Seq (Lit (s2l "@"))
      (Seq (Rep 1 domain_char)
      (Seq (Lit (s2l "."))
           (Rep 2 is_alpha)))).

(** The matcher again, now giving what the continuation gives for the
    first way of matching that it accepts: the match Python's engine
    settles on.  A repetition tries one more character first. *)
Fixpoint rep_first {A} (n : nat) (p : ascii -> bool) (s : str)
    (k : str -> option A) : option A :=
  match s with
  | c :: s' =>
      match (if p c then rep_first (pred n) p s' k else None) with
      | Some x => Some x
      | None => if n =? 0 then k s else None
      end
  | [] => if n =? 0 then k [] else None
  end.

Fixpoint rfirst {A} (r : re) (s : str) (k : str -> option A) : option A :=
  match r with
  | Eps => k s
  | Lit l => match strip_prefix l s with Some rest => k rest | None => None end
  | Rep n p => rep_first n p s k
  | Alt a b => match rfirst a s k with Some x => Some x | None => rfirst b s k end
  | Seq a b => rfirst a s (fun s' => rfirst b s' k)
  | Opt a => match rfirst a s k with Some x => Some x | None => k s end
  end.

(** the rest of [s] after the match of [r] at its start, if there is one *)
Definition match_end (r : re) (s : str) : option str := rfirst r s Some.

(** [re.findall(r, text)] for a pattern without groups that matches no
    empty string: the matches found scanning from the left, each search
    starting where the last match ended.  [skip] counts the characters
    of the last match still to be passed over. *)
Fixpoint findall_go (r : re) (skip : nat) (text : str) : list str :=
  match text with
  | [] => []
  | _ :: text' =>
      match skip with
      | S k => findall_go r k text'
      | O =>
          match match_end r text with
          | Some rest =>
              let m := firstn (length text - length rest) text in
              m :: findall_go r (pred (length m)) text'
          | None => findall_go r 0 text'
          end
      end
  end.

Definition findall (r : re) (text : str) : list str := findall_go r 0 text.

(** a run time whose [re.findall(email_pattern, text)] is the one above *)
Definition regex_runtime : runtime :=
  {| F := Z * nat;
     float := decimal_float;
     findall_email := findall email_pattern |}.

(** [local@domain.tld]: what [email_pattern] matches *)
Definition email_shape (e : str) : Prop :=
  exists local domain tld,
    e = local ++ s2l "@" ++ domain ++ s2l "." ++ tld
    /\ local <> [] /\ Forall (fun c => local_char c = true) local
    /\ domain <> [] /\ Forall (fun c => domain_char c = true) domain
    /\ is_tld tld.

(** *** Navigations *)

Definition is_goto (R : runtime) (ev : event R) : bool :=
  match ev with
  | EGoto _ _ _ => true
  | _ => false
  end.

(** the time the navigations of a trace may take: the sum of the
    timeouts of its [goto]s, in milliseconds *)
Fixpoint goto_budget (R : runtime) (t : list (event R)) : Z :=
  match t with
  | [] => 0
  | EGoto _ _ timeout :: t' => timeout + goto_budget t'
  | _ :: t' => goto_budget t'
  end.

(** the pages the engine may read for a site: its home page, its contact
    pages, and the search engine's page for it *)
Definition engine_pages (Wd : world) (url : str) : list page_result :=
  site_page Wd url
  :: map (fun q => site_page Wd (contact_url url q)) common_contact_paths
  ++ [search_page Wd (google_query url)].

(** the time the loader spends in [wait_for_timeout], in milliseconds *)
Fixpoint waited (R : runtime) (t : list (event R)) : Z :=
  match t with
  | [] => 0
  | EWait ms :: t' => ms + waited t'
  | _ :: t' => waited t'
  end.

(** a sample feed that grows: one more listing after every wait *)
Definition growing_ui : map_ui :=
  {| W := nat;
     ui_search := fun _ _ w => (Ok tt, w);
     ui_panel := fun _ => Ok true;
     ui_items := fun w => Ok (repeat dead_listing w);
     ui_wait := fun _ w => S w;
     ui_scroll := fun w => (Ok true, w);
     ui_hover := fun _ => Ok tt |}.

(** *** What a listing's record holds and where its navigations go *)

(** the website as the orchestrator stores it: [https://] is put in
    front of a value that has no scheme *)
Definition with_scheme (site : str) : str :=
  if negb (startswith_any scheme_prefixes site) then s2l "https://" ++ site else site.

(** everything the orchestrator does before it looks for an email went
    well for the listing, whose website lookup gave [site] *)
Definition ready_for_discovery (R : runtime) (lv : listing_view) (site : str) : Prop :=
  lv_click lv = Ok tt
  /\ (exists v, lv_name lv = Ok v) /\ (exists v, lv_address lv = Ok v)
  /\ lv_website lv = Ok site /\ (exists v, lv_phone lv = Ok v)
  /\ (exists c, extract_coordinates_from_url R (lv_url lv) = Ok c)
  /\ site <> [] /\ is_valid_url (with_scheme site) = true
  /\ lv_ipcheck lv = Ok tt.

(** the URLs the engine may navigate to for a site *)
Definition engine_urls (url : str) : list str :=
  url :: map (contact_url url) common_contact_paths ++ [google_query url].

(** a navigation made while a listing is processed goes to the
    listing's own website *)
Definition goes_to_site (R : runtime) (lv : listing_view) (ev : event R) : Prop :=
  match ev with
  | EGoto _ u _ =>
      exists site, ready_for_discovery R lv site /\ In u (engine_urls (with_scheme site))
  | _ => True
  end.

(** the fields of a record are filled in the order of the code: a field
    is set only if those before it are, both coordinates or none, and an
    email only when the coordinates are there and the website stored
    passed validation *)
Definition filled_in_order (R : runtime) (b : Business R) : Prop :=
  (address b <> None -> name b <> None)
  /\ (website b <> None -> address b <> None)
  /\ (phone_number b <> None -> website b <> None)
  /\ (latitude b <> None -> phone_number b <> None)
  /\ (latitude b = None <-> longitude b = None)
  /\ (email b <> None ->
      latitude b <> None
      /\ exists w, website b = Some w /\ is_valid_url w = true).

(** a listing whose page URL holds no coordinates *)
Definition no_coordinates_listing : listing_view :=
  {| lv_click := Ok tt;
     lv_name := Ok (s2l "Cafe");
     lv_address := Ok (s2l "1 Main St");
     lv_website := Ok (s2l "mail.example");
     lv_phone := Ok (s2l "555 0100");
     lv_url := s2l "https://www.google.com/maps/search/cafe";
     lv_ipcheck := Ok tt |}.

(** the name both output files get: suburb and state, joined by an
    underscore, spaces replaced, sanitised *)
Definition file_stem (suburb state_ : str) : str :=
  sanitize_filename (replace_space (suburb ++ s2l "_" ++ state_)).

(** every record made so far is filled in order *)
Definition all_filled (R : runtime) (U : map_ui) (s : state R U) : Prop :=
  Forall (@filled_in_order R) (heap s).

(** a run that ends normally has the two saves as its last events, both
    with the rows of the final state, and no save before them *)
Definition saves_last (R : runtime) (U : map_ui) (stem : str)
    (run : outcome unit * state R U * list (event R)) : Prop :=
  fst (fst run) = Ok tt ->
  exists t0,
    snd run = t0 ++ [ESave true stem (rows_of (snd (fst run)));
                     ESave false stem (rows_of (snd (fst run)))]
    /\ existsb (@is_save R) t0 = false.

(** the characters [sanitize_filename] keeps *)
Definition kept_char (c : ascii) : bool :=
  isalnum c || Ascii.eqb c " " || Ascii.eqb c "_" || Ascii.eqb c "-".

(** ** The batch driver [main_uat1.py] *)

(** the line feed *)
Definition newline : str := ["010"%char].

(** [[line.strip() for line in f.readlines() if line.strip()]], from the
    text of the file: [readlines] cuts after every line feed and leaves
    it at the end of the line, where [strip] removes it *)
Definition load_lines (text : str) : list str :=
  map strip (filter (fun line => truthy (strip line)) (split newline text)).

(** the number of times [c] occurs in [s] *)
Definition count_char (c : ascii) (s : str) : nat :=
  length (filter (Ascii.eqb c) s).

Section Batch.
Variable R : runtime.
Variable U : map_ui.
Variable Wd : world.
(** what [random.choice] and [random.randint] draw in round [i] *)
Variable draw_choice : nat -> nat.
Variable draw_randint : nat -> nat.

(** [random.choice(l)] *)
Definition choice (i : nat) (l : list str) : outcome str :=
  match l with
  | [] => Raise IndexError
  | _ :: _ => Ok (nth (draw_choice i mod length l) l [])
  end.

(** [random.randint(lo, hi)] *)
Definition randint (i : nat) (lo hi : Z) : Z :=
  (lo + Z.of_nat (draw_randint i mod Z.to_nat (hi - lo + 1)))%Z.

(** a call of [scrape_google_maps]: an invocation of its own, on the map
    page as the world now has it *)
Definition invoke {A} (m : M R (state R U) A) : M R (W U) A :=
  fun w => match m (initial_state R U w) with (r, s, t) => (r, ui s, t) end.

(** the body of [for suburb in suburbs] (lines 71-105); [proxy] is
    [credentials["proxy"]] *)
Definition batch_round (proxy : str) (user_agents : list str) (i : nat)
    (suburb : str) : M R (W U) unit :=
  user_agent <- ext (choice i user_agents) ;;
  let delay := randint i 2 5 in
  let total := 40%Z in
  if occurs (s2l ",") suburb then
    let parts := map strip (split (s2l ",") suburb) in
    match parts with
    | [suburb_name; state_; _] =>
        invoke (scrape_google_maps Wd (s2l "http://" ++ proxy) user_agent delay
                  total suburb_name state_)
    | _ => ret tt
    end
  else ret tt.

Fixpoint batch_loop (proxy : str) (user_agents : list str) (i : nat)
    (suburbs : list str) : M R (W U) unit :=
  match suburbs with
  | [] => ret tt
  | suburb :: rest =>
      batch_round proxy user_agents i suburb ;;
      batch_loop proxy user_agents (S i) rest
  end.

(** the script from the reading of the two files on (lines 52-105), the
    credentials loaded and the proxy tested; [None] is [exit(1)] *)
Definition main_uat1 (proxy : str) (user_agents_text suburbs_text : str)
    (w : W U) : option (outcome unit * W U * list (event R)) :=
  let user_agents := load_lines user_agents_text in
  let suburbs := load_lines suburbs_text in
  if negb (match user_agents with [] => false | _ => true end) then None
  else if negb (match suburbs with [] => false | _ => true end) then None
  else Some (batch_loop proxy user_agents 0 suburbs w).
End Batch.

(** a file written by the batch has at most forty rows and is named
    after the first two fields of one of the lines *)
Definition batch_file (R : runtime) (suburbs : list str) (ev : event R) : Prop :=
  match ev with
  | ESave _ f rows =>
      length rows <= 40
      /\ exists line suburb_name state_ postcode,
           In line suburbs
           /\ map strip (split (s2l ",") line) = [suburb_name; state_; postcode]
           /\ f = file_stem suburb_name state_
  | _ => True
  end.

(** *** The engine of the older entry point

    [main33_efnt4.py] has one browser context: the site and the search
    engine are read through the same page.  Its fallback navigates
    outside its [try], so the outcome of the navigation and that of
    reading the text are told apart. *)
Section Engine33.
Variable R : runtime.
Variable U : map_ui.
Variable Wd : world.
(** [search_page.goto(url)] and the wait after it *)
Variable search_goto : str -> outcome unit.
(** [search_page.inner_text("body")] on the page of results *)
Variable search_text : str -> outcome str.

(** [perform_site_specific_google_search(search_page, website_url)]
    (lines 54-65); a [goto] without a timeout has Playwright's default,
    30 seconds *)
Definition perform_site_specific_google_search_33 (page : nat)
    (website_url : str) : M R (state R U) (option str) :=
  emit (EGoto page (google_query website_url) 30000) ;;
  ext (search_goto (google_query website_url)) ;;
  try_except
    (visible_text <- ext (search_text (google_query website_url)) ;;
     ret (extract_email_from_rendered_text R visible_text))
    (fun _ => ret None).

(** [search_email_on_website(context, website_url)] (lines 67-103) *)
Definition search_email_on_website_33 (context : nat) (website_url : str)
  : M R (state R U) (option str) :=
  search_page <- open_handle (Some context) ;;
  try_finally
    (email_found <- visit (site_page Wd) search_page website_url 30000 ;;
     if found email_found then ret email_found
     else
       r <- sweep_contact_paths Wd search_page website_url common_contact_paths ;;
       match r with
       | Some e => ret (Some e)
       | None => perform_site_specific_google_search_33 search_page website_url
       end)
    (close search_page).
End Engine33.

(** all the details of a record are set *)
Definition complete (R : runtime) (b : Business R) : Prop :=
  name b <> None /\ address b <> None /\ website b <> None
  /\ phone_number b <> None /\ latitude b <> None /\ longitude b <> None.

(** every entry of the result list refers to a complete record *)
Definition listed_complete (R : runtime) (U : map_ui) (s : state R U) : Prop :=
  Forall (fun b => exists obj, nth_error (heap s) b = Some obj /\ complete obj)
         (business_list s).

(** * Properties *)

(** ** Strings and patterns *)

Lemma strip_prefix_spec (p s rest : str) :
  strip_prefix p s = Some rest <-> s = p ++ rest.
Proof.
  revert s; induction p as [|c p IH]; intros s; simpl.
  - split; intros H; [injection H as ->; reflexivity | now subst].
  - destruct s as [|d s]; [split; discriminate|].
    destruct (Ascii.eqb_spec c d) as [->|ne].
    + rewrite IH. split; intros H; [now subst | now injection H].
    + split; [discriminate | intros H; injection H as H _; congruence].
Qed.

Lemma startswith_spec (p s : str) :
  startswith p s = true <-> exists rest, s = p ++ rest.
Proof.
  revert s; induction p as [|c p IH]; intros s; simpl.
  - split; [intros _; now exists s | reflexivity].
  - destruct s as [|d s]; [split; [discriminate | intros [r H]; discriminate]|].
    rewrite andb_true_iff, IH.
    split.
    + intros [E [r ->]]. apply Ascii.eqb_eq in E as ->. now exists r.
    + intros [r H]. injection H as -> ->. split; [apply Ascii.eqb_refl | now exists r].
Qed.

Lemma rep_match_spec (n : nat) (p : ascii -> bool) (s : str) (k : str -> bool) :
  rep_match n p s k = true <->
  exists s1 s2, s = s1 ++ s2 /\ n <= length s1
                /\ Forall (fun c => p c = true) s1 /\ k s2 = true.
Proof.
  revert n; induction s as [|c s IH]; intros n; simpl.
  - rewrite andb_true_iff, Nat.eqb_eq. split.
    + intros [-> Hk]. exists [], []. repeat split; auto.
    + intros (s1 & s2 & E & Hn & _ & Hk).
      symmetry in E. apply app_eq_nil in E as [-> ->]. simpl in Hn. split; [lia | assumption].
  - rewrite orb_true_iff, !andb_true_iff, Nat.eqb_eq, IH. split.
    + intros [[Hc (s1 & s2 & -> & Hn & Hall & Hk)] | [-> Hk]].
      * exists (c :: s1), s2. simpl. repeat split; auto; lia.
      * exists [], (c :: s). repeat split; auto.
    + intros (s1 & s2 & E & Hn & Hall & Hk). destruct s1 as [|d s1].
      * right. simpl in *. subst s2. split; [lia | assumption].
      * left. simpl in E. injection E as -> ->. inversion Hall; subst.
        split; [assumption|]. exists s1, s2. simpl in Hn. repeat split; auto; lia.
Qed.

Lemma rmatch_spec (r : re) (s : str) (k : str -> bool) :
  rmatch r s k = true <->
  exists s1 s2, s = s1 ++ s2 /\ matches r s1 /\ k s2 = true.
Proof.
  revert s k; induction r as [|l|n p|a IHa b IHb|a IHa b IHb|a IHa]; intros s k; simpl.
  - split.
    + intros Hk. exists [], s. repeat split; auto. constructor.
    + intros (s1 & s2 & -> & Hm & Hk). inversion Hm; subst. assumption.
  - destruct (strip_prefix l s) as [rest|] eqn:E.
    + apply strip_prefix_spec in E. subst s. split.
      * intros Hk. exists l, rest. repeat split; auto. constructor.
      * intros (s1 & s2 & E & Hm & Hk). inversion Hm; subst.
        apply app_inv_head in E. now subst.
    + split; [discriminate|]. intros (s1 & s2 & -> & Hm & _). inversion Hm; subst.
      assert (strip_prefix s1 (s1 ++ s2) = Some s2) by now apply strip_prefix_spec.
      congruence.
  - rewrite rep_match_spec. split.
    + intros (s1 & s2 & -> & Hn & Hall & Hk). exists s1, s2. repeat split; auto.
      now constructor.
    + intros (s1 & s2 & -> & Hm & Hk). inversion Hm; subst. now exists s1, s2.
  - rewrite orb_true_iff, IHa, IHb. split.
    + intros [(s1 & s2 & -> & Hm & Hk) | (s1 & s2 & -> & Hm & Hk)];
        exists s1, s2; repeat split; auto; [now apply m_alt_l | now apply m_alt_r].
    + intros (s1 & s2 & -> & Hm & Hk). inversion Hm; subst; [left | right]; now exists s1, s2.
  - rewrite IHa. split.
    + intros (s1 & s2 & -> & Hm & Hk). apply IHb in Hk as (t1 & t2 & -> & Hm' & Hk).
      exists (s1 ++ t1), t2. rewrite app_assoc. repeat split; auto. now constructor.
    + intros (s1 & s2 & -> & Hm & Hk).
      inversion Hm as [ | | | | |a' b' u v Hu Hv| | ]; subst.
      exists u, (v ++ s2). rewrite app_assoc. repeat split; auto.
      apply IHb. now exists v, s2.
  - rewrite orb_true_iff, IHa. split.
    + intros [(s1 & s2 & -> & Hm & Hk) | Hk].
      * exists s1, s2. repeat split; auto. now apply m_opt_some.
      * exists [], s. repeat split; auto. apply m_opt_none.
    + intros (s1 & s2 & -> & Hm & Hk). inversion Hm; subst; [left | right]; auto.
      now exists s1, s2.
Qed.

Ltac inv_matches :=
  repeat match goal with
         | H : matches (Opt _) _ |- _ => inversion H; subst; clear H
         | H : matches (Alt _ _) _ |- _ => inversion H; subst; clear H
         | H : matches (Lit _) _ |- _ => inversion H; subst; clear H
         end.

Lemma matches_url_pattern (s : str) :
  matches url_pattern s <->
  exists prefix label tld,
    s = prefix ++ label ++ s2l "." ++ tld
    /\ In prefix [[]; s2l "http://www."; s2l "https://www.";
                  s2l "http://"; s2l "https://"]
    /\ label <> []
    /\ Forall (fun c => host_char c = true) label
    /\ is_tld tld.
Proof.
  unfold url_pattern, is_tld. split.
  - intros H.
    inversion H as [ | | | | |a b u v Hu Hv| | ]; subst; clear H.
    inversion Hv as [ | | | | |a b l v' Hl Hv'| | ]; subst; clear Hv.
    inversion Hv' as [ | | | | |a b d t Hd Ht| | ]; subst; clear Hv'.
    inversion Hl; subst. inversion Hd; subst. inversion Ht; subst.
    exists u, l, t. repeat split; auto.
    + clear - Hu. inv_matches; simpl; auto 6.
    + destruct l; [simpl in *; lia | discriminate].
  - intros (prefix & label & tld & -> & Hp & Hl & Hall & Hn & Ht).
    apply m_seq; [|apply m_seq; [|apply m_seq]].
    + simpl in Hp. destruct Hp as [<-|[<-|[<-|[<-|[<-|[]]]]]].
      * apply m_opt_none.
      * apply m_opt_some, m_alt_l, m_lit.
      * apply m_opt_some, m_alt_r, m_alt_l, m_lit.
      * apply m_opt_some, m_alt_r, m_alt_r, m_alt_l, m_lit.
      * apply m_opt_some, m_alt_r, m_alt_r, m_alt_r, m_lit.
    + apply m_rep; [|assumption]. destruct label; [congruence | simpl; lia].
    + apply m_lit.
    + now apply m_rep.
Qed.

Lemma is_valid_url_spec (s : str) :
  is_valid_url s = true <-> begins_like_url s.
Proof.
  unfold is_valid_url, re_match, begins_like_url. rewrite rmatch_spec. split.
  - intros (s1 & s2 & -> & Hm & _).
    apply matches_url_pattern in Hm as (prefix & label & tld & -> & H).
    exists prefix, label, tld, s2. split; [|exact H].
    now rewrite <- !app_assoc.
  - intros (prefix & label & tld & rest & -> & H).
    exists (prefix ++ label ++ s2l "." ++ tld), rest. split; [now rewrite <- !app_assoc|].
    split; [|reflexivity]. apply matches_url_pattern. now exists prefix, label, tld.
Qed.

(** C8, as the code has it: validation accepts exactly the strings that
    begin with an optional [http://www.], [https://www.], [http://] or
    [https://], then a non-empty label of letters, digits and hyphens, a
    dot, and two letters or more; what follows is not looked at.  It
    rejects ["N/A"], the empty string and ["not a url"] and accepts ["example.com"],
    ["http://example.com"] and ["https://www.example.co.uk"]. *)
Theorem is_valid_url_begins_like_url :
  (forall s : str, is_valid_url s = true <-> begins_like_url s)
  /\ is_valid_url (s2l "N/A") = false
  /\ is_valid_url [] = false
  /\ is_valid_url (s2l "not a url") = false
  /\ is_valid_url (s2l "example.com") = true
  /\ is_valid_url (s2l "http://example.com") = true
  /\ is_valid_url (s2l "https://www.example.co.uk") = true.
Proof.
  split; [exact is_valid_url_spec|]. repeat split; reflexivity.
Qed.

Lemma url_shape_last_alpha (s : str) (c : ascii) :
  url_shape (s ++ [c]) -> is_alpha c = true.
Proof.
  intros (scheme & www & host & tld & E & _ & _ & _ & _ & Hn & Hall).
  destruct (exists_last (l := tld)) as (t & d & ->).
  { destruct tld; [simpl in Hn; lia | discriminate]. }
  rewrite !app_assoc in E. apply app_inj_tail in E as [_ ->].
  apply Forall_app in Hall as [_ Hd]. now inversion Hd.
Qed.

(** C8, as the specification words it, fails both ways: a bare [www.]
    is not skipped but read as the host label, so [www.3m.com] has the
    shape and is rejected; and the end of the string is not checked, so
    [example.com/] is accepted without having the shape. *)
Lemma is_valid_url_not_url_shape :
  (url_shape (s2l "www.3m.com") /\ is_valid_url (s2l "www.3m.com") = false)
  /\ (is_valid_url (s2l "example.com/") = true /\ ~ url_shape (s2l "example.com/")).
Proof.
  split; split; try reflexivity.
  - exists [], (s2l "www."), (s2l "3m"), (s2l "com"). unfold is_tld.
    repeat split; simpl; auto; try lia; try discriminate; repeat constructor.
  - intros H. apply (url_shape_last_alpha (s2l "example.com") "/") in H. discriminate.
Qed.
Example decimal_float_ex :
  decimal_float (s2l "-37.8") = Some ((-378)%Z, 1)
  /\ decimal_float (s2l "144.9") = Some (1449%Z, 1)
  /\ decimal_float (s2l "x") = None
  /\ decimal_float (s2l "https:") = None
  /\ decimal_float (s2l "12") = Some (12%Z, 0)
  /\ decimal_float (s2l ".") = None /\ decimal_float (s2l "1.2.3") = None.
Proof. repeat split; reflexivity. Qed.
Example extract_ex :
  extract_coordinates_from_url sample_runtime
    (s2l "https://www.google.com/maps/place/Cafe/@-37.8,144.9,17z/data=!3m1") = Ok ((-378)%Z, 1, (1449%Z, 1))
  /\ extract_coordinates_from_url sample_runtime
    (s2l "https://www.google.com/maps/place/Cafe/@-37.8,144.9,17z/data=/@x") = Raise (ValueError (s2l "x")).
Proof. split; reflexivity. Qed.

(** ** [split] *)

Lemma split_go_no_occurrence (sep acc s : str) :
  occurs sep s = false -> split_go sep 0 acc s = [rev acc ++ s].
Proof.
  destruct sep as [|x sep']; [destruct s; discriminate|].
  revert acc; induction s as [|c s IH]; intros acc H.
  - simpl. now rewrite app_nil_r.
  - cbn [occurs] in H. apply orb_false_iff in H as [H1 H2].
    cbn [split_go]. rewrite H1, IH by assumption. simpl. now rewrite <- app_assoc.
Qed.

Lemma split_go_nonempty (sep : str) (k : nat) (acc s : str) :
  split_go sep k acc s <> [].
Proof.
  revert k acc; induction s as [|c s IH]; intros k acc; cbn [split_go].
  - discriminate.
  - destruct k; [|apply IH].
    destruct (startswith sep (c :: s)); [discriminate | apply IH].
Qed.

Lemma last_cons_nonempty {A} (x d : A) (l : list A) :
  l <> [] -> last (x :: l) d = last l d.
Proof. destruct l; [congruence | reflexivity]. Qed.

(** the piece after the last separator, for a separator of two different
    characters (it cannot overlap itself) *)
Lemma split_go_last_two (a b : ascii) (rest d : str) :
  a <> b ->
  forall (n : nat) (pre acc : str), length pre <= n ->
  last (split_go [a; b] 0 acc (pre ++ a :: b :: rest)) d
  = last (split_go [a; b] 0 [] rest) d.
Proof.
  intros ne.
  assert (base : forall acc, last (split_go [a; b] 0 acc (a :: b :: rest)) d
                             = last (split_go [a; b] 0 [] rest) d).
  { intros acc. cbn [split_go startswith]. rewrite !Ascii.eqb_refl.
    cbn [andb length pred split_go].
    apply last_cons_nonempty, split_go_nonempty. }
  induction n as [|n IH]; intros pre acc Hn.
  - destruct pre; [apply base | simpl in Hn; lia].
  - destruct pre as [|c pre]; [apply base|].
    simpl in Hn. simpl app. cbn [split_go].
    destruct (startswith [a; b] (c :: pre ++ a :: b :: rest)) eqn:E.
    + simpl in E. apply andb_true_iff in E as [_ E].
      destruct pre as [|c' pre].
      { simpl in E. rewrite andb_true_r in E. apply Ascii.eqb_eq in E. congruence. }
      simpl app. cbn [length pred split_go].
      rewrite last_cons_nonempty by apply split_go_nonempty.
      apply IH. simpl in Hn. lia.
    + apply IH. lia.
Qed.

Lemma split_last_segment (pre rest : str) :
  occurs (s2l "/@") rest = false ->
  last (split (s2l "/@") (pre ++ s2l "/@" ++ rest)) [] = rest.
Proof.
  intros H. unfold split.
  change (s2l "/@") with ["/"%char; "@"%char] in *.
  change (pre ++ ["/"%char; "@"%char] ++ rest) with (pre ++ "/"%char :: "@"%char :: rest).
  rewrite (@split_go_last_two "/" "@" rest [] ltac:(discriminate) (length pre) pre [] (le_n _)).
  now rewrite (split_go_no_occurrence _ [] rest H).
Qed.

Lemma split_go_char_hd (c : ascii) (acc s : str) :
  hd [] (split_go [c] 0 acc s) = rev acc ++ before c s.
Proof.
  revert acc; induction s as [|d s IH]; intros acc; simpl.
  - now rewrite app_nil_r.
  - rewrite andb_true_r, (Ascii.eqb_sym c d).
    destruct (Ascii.eqb d c); simpl.
    + now rewrite app_nil_r.
    + rewrite IH. simpl. now rewrite <- app_assoc.
Qed.

Lemma split_go_char_app (c : ascii) (acc p s : str) :
  forallb (fun d => negb (Ascii.eqb d c)) p = true ->
  split_go [c] 0 acc (p ++ c :: s) = (rev acc ++ p) :: split_go [c] 0 [] s.
Proof.
  revert acc; induction p as [|d p IH]; intros acc H; simpl.
  - now rewrite Ascii.eqb_refl, app_nil_r.
  - simpl in H. apply andb_true_iff in H as [Hd Hp].
    rewrite andb_true_r, (Ascii.eqb_sym c d).
    apply negb_true_iff in Hd. rewrite Hd.
    rewrite IH by assumption. simpl. now rewrite <- app_assoc.
Qed.

Lemma before_app (c : ascii) (p s : str) :
  forallb (fun d => negb (Ascii.eqb d c)) p = true ->
  before c (p ++ s) = p ++ before c s.
Proof.
  induction p as [|d p IH]; intros H; simpl; [reflexivity|].
  simpl in H. apply andb_true_iff in H as [Hd Hp].
  apply negb_true_iff in Hd. rewrite Hd. now rewrite IH.
Qed.

Lemma plain_field_no (f : str) :
  plain_field f = true ->
  forallb (fun d => negb (Ascii.eqb d "/")) f = true
  /\ forallb (fun d => negb (Ascii.eqb d ",")) f = true.
Proof.
  unfold plain_field. induction f as [|c f IH]; simpl; [auto|].
  rewrite !andb_true_iff. intros [[H1 H2] H3]. destruct (IH H3). auto.
Qed.

Lemma occurs_skip (x : ascii) (sep p s : str) :
  forallb (fun d => negb (Ascii.eqb d x)) p = true ->
  occurs (x :: sep) (p ++ s) = occurs (x :: sep) s.
Proof.
  induction p as [|d p IH]; intros H; [reflexivity|].
  simpl in H. apply andb_true_iff in H as [Hd Hp]. apply negb_true_iff in Hd.
  simpl app. cbn [occurs startswith]. rewrite (Ascii.eqb_sym x d), Hd. simpl.
  now apply IH.
Qed.

Lemma occurs_none (x : ascii) (sep p : str) :
  forallb (fun d => negb (Ascii.eqb d x)) p = true ->
  occurs (x :: sep) p = false.
Proof.
  intros H. rewrite <- (app_nil_r p), occurs_skip by assumption. reflexivity.
Qed.

Lemma nth_error_1_hd {A} (x d : A) (l : list A) :
  l <> [] -> nth_error (x :: l) 1 = Some (hd d l).
Proof. destruct l; [congruence | reflexivity]. Qed.

(** the coordinate fields of a URL whose last ["/@"] is followed by
    [lat,lon] *)
Lemma coordinate_fields (pre lat lon tail : str) :
  plain_field lat = true -> plain_field lon = true ->
  field_end tail = true -> occurs (s2l "/@") tail = false ->
  exists more,
    split (s2l ",")
      (hd [] (split (s2l "/")
         (last (split (s2l "/@")
            (pre ++ s2l "/@" ++ lat ++ s2l "," ++ lon ++ tail)) [])))
    = lat :: lon :: more.
Proof.
  intros Hlat Hlon Hend Hocc.
  destruct (plain_field_no _ Hlat) as [Hlat1 Hlat2].
  destruct (plain_field_no _ Hlon) as [Hlon1 Hlon2].
  rewrite split_last_segment.
  2:{ change (s2l "/@") with ("/"%char :: ["@"%char]) in *.
      rewrite occurs_skip by assumption.
      change (s2l "," ++ lon ++ tail) with ([","%char] ++ lon ++ tail).
      rewrite occurs_skip by reflexivity. now rewrite occurs_skip. }
  unfold split at 2. change (s2l "/") with ["/"%char].
  rewrite split_go_char_hd. simpl rev. simpl app at 1.
  rewrite before_app by assumption.
  change (before "/" (","%char :: lon ++ tail))
    with (","%char :: before "/" (lon ++ tail)).
  rewrite before_app by assumption.
  unfold split. change (s2l ",") with [","%char].
  rewrite split_go_char_app by assumption. simpl rev. simpl app at 1.
  pose proof (@split_go_nonempty [","%char] 0 [] (lon ++ before "/" tail)) as Hne.
  pose proof (split_go_char_hd "," [] (lon ++ before "/" tail)) as Hhd.
  destruct (split_go [","%char] 0 [] (lon ++ before "/" tail)) as [|f more] eqn:E;
    [congruence|].
  exists more. f_equal. f_equal. simpl in Hhd. subst f.
  rewrite before_app by assumption.
  destruct tail as [|c t]; [now rewrite app_nil_r|].
  simpl in Hend. simpl.
  destruct (Ascii.eqb_spec c "/") as [->|ne]; [now rewrite app_nil_r|].
  simpl in Hend. rewrite orb_false_r in Hend. apply Ascii.eqb_eq in Hend as ->.
  simpl. now rewrite app_nil_r.
Qed.

Lemma scheme_fields (scheme rest : str) :
  plain_field scheme = true ->
  occurs (s2l "/@") (scheme ++ s2l "/" ++ rest) = false ->
  split (s2l ",")
    (hd [] (split (s2l "/")
       (last (split (s2l "/@") (scheme ++ s2l "/" ++ rest)) [])))
  = [scheme].
Proof.
  intros Hs Hocc. destruct (plain_field_no _ Hs) as [Hs1 Hs2].
  unfold split at 3. rewrite split_go_no_occurrence by assumption.
  simpl last. simpl rev. simpl app at 1.
  unfold split at 2. change (s2l "/") with ["/"%char].
  rewrite split_go_char_hd. simpl rev. simpl app at 1.
  rewrite before_app by assumption. simpl before. rewrite app_nil_r.
  unfold split. change (s2l ",") with [","%char].
  now rewrite split_go_no_occurrence by now apply occurs_none.
Qed.

(** C7, as the code has it: the text after the LAST ["/@"] decides.
    When it is [lat,lon] followed by the end of the URL, a comma or a
    slash, extraction gives [(float(lat), float(lon))] if both are numeric
    and raises [ValueError] on the first field that is not.  A URL without
    any ["/@"] is read from its start, so one that begins with a scheme
    ([https:]) raises [ValueError]. *)
Theorem extract_coordinates_from_last_segment (R : runtime) :
  (forall pre lat lon tail : str,
      plain_field lat = true -> plain_field lon = true ->
      field_end tail = true -> occurs (s2l "/@") tail = false ->
      extract_coordinates_from_url R (pre ++ s2l "/@" ++ lat ++ s2l "," ++ lon ++ tail)
      = match float R lat, float R lon with
        | Some a, Some b => Ok (a, b)
        | None, _ => Raise (ValueError lat)
        | Some _, None => Raise (ValueError lon)
        end)
  /\ (forall scheme rest : str,
         plain_field scheme = true ->
         occurs (s2l "/@") (scheme ++ s2l "/" ++ rest) = false ->
         float R scheme = None ->
         extract_coordinates_from_url R (scheme ++ s2l "/" ++ rest)
         = Raise (ValueError scheme)).
Proof.
  split.
  - intros pre lat lon tail Hlat Hlon Hend Hocc.
    unfold extract_coordinates_from_url.
    destruct (@coordinate_fields pre lat lon tail Hlat Hlon Hend Hocc) as [more ->].
    simpl. destruct (float R lat); [|reflexivity]. now destruct (float R lon).
  - intros scheme rest Hs Hocc Hf.
    unfold extract_coordinates_from_url.
    rewrite (scheme_fields scheme rest Hs Hocc). simpl. now rewrite Hf.
Qed.

Lemma extract_coordinates_from_last_segment_witness :
  extract_coordinates_from_url sample_runtime
    (s2l "https://www.google.com/maps/place/Cafe" ++ s2l "/@" ++ s2l "-37.8"
       ++ s2l "," ++ s2l "144.9" ++ s2l ",17z/data=!3m1")
  = Ok ((-378)%Z, 1, (1449%Z, 1))
  /\ extract_coordinates_from_url sample_runtime
       (s2l "https:" ++ s2l "/" ++ s2l "/www.google.com/maps")
     = Raise (ValueError (s2l "https:")).
Proof.
  split.
  - apply (proj1 (extract_coordinates_from_last_segment sample_runtime)
             (s2l "https://www.google.com/maps/place/Cafe") (s2l "-37.8")
             (s2l "144.9") (s2l ",17z/data=!3m1")); reflexivity.
  - apply (proj2 (extract_coordinates_from_last_segment sample_runtime)
             (s2l "https:") (s2l "/www.google.com/maps")); reflexivity.
Defined.

(** C7, as the specification words it, fails: this URL contains the
    segment [/@-37.8,144.9,17z] with numeric fields, and extraction
    raises, because a later ["/@"] follows it. *)
Lemma extract_coordinates_not_any_segment :
  let url := s2l "https://www.google.com/maps/place/Cafe/@-37.8,144.9,17z/data=/@x" in
  has_coordinate_segment sample_runtime url (s2l "-37.8") (s2l "144.9")
  /\ extract_coordinates_from_url sample_runtime url = Raise (ValueError (s2l "x")).
Proof.
  split; [|reflexivity].
  exists (s2l "https://www.google.com/maps/place/Cafe"), (s2l ",17z/data=/@x").
  repeat split; discriminate.
Qed.

(** ** The email-discovery engine *)

Lemma length_open_under (parent : option nat) (hs : list hrec) :
  length (open_under parent hs) = S (length hs).
Proof. unfold open_under. rewrite length_app, Nat.add_1_r. reflexivity. Qed.

Section Engine.
Variable R : runtime.
Variable U : map_ui.
Variable Wd : world.

Lemma visit_run (fetch : str -> page_result) (page : nat) (url : str)
    (timeout : Z) (s : state R U) :
  visit fetch page url timeout s
  = (match fetch url with
     | NavError e => Raise e
     | Rendered text => Ok (extract_email_from_rendered_text R text)
     end, s, [EGoto page url timeout]).
Proof.
  unfold visit, bind, emit. destruct (fetch url); reflexivity.
Qed.

Lemma perform_run (page : nat) (url : str) (s : state R U) :
  perform_site_specific_google_search Wd page url s
  = (Ok (fallback_result R Wd url), s, fallback_trace R page url).
Proof.
  unfold perform_site_specific_google_search, fallback_result, fallback_trace.
  destruct (startswith_any scheme_prefixes url); simpl; [|reflexivity].
  unfold try_except, bind. rewrite visit_run. unfold yields.
  destruct (search_page Wd (google_query url)) as [e|text]; simpl.
  - destruct e; reflexivity.
  - destruct (found (extract_email_from_rendered_text R text)); reflexivity.
Qed.

Lemma sweep_run (page : nat) (url : str) (paths : list str) (s : state R U) :
  sweep_contact_paths Wd page url paths s
  = (Ok (snd (sweep_outcome R Wd url paths)), s,
     gotos R page 15000 (fst (sweep_outcome R Wd url paths))).
Proof.
  induction paths as [|path rest IH]; [reflexivity|].
  cbn [sweep_contact_paths sweep_outcome]. unfold bind at 1, try_except, bind.
  rewrite visit_run. unfold yields, contact_url.
  destruct (site_page Wd (rstrip_char "/" url ++ path)) as [e|text]; simpl.
  - rewrite IH. destruct (sweep_outcome R Wd url rest). reflexivity.
  - destruct (found (extract_email_from_rendered_text R text)) eqn:Ef; simpl.
    + destruct (extract_email_from_rendered_text R text); [reflexivity | discriminate].
    + rewrite IH. destruct (sweep_outcome R Wd url rest). reflexivity.
Qed.

Lemma sweep_outcome_hit (url : str) (before after : list str) (path e : str) :
  (forall q, In q before -> yields R (site_page Wd (contact_url url q)) = None) ->
  yields R (site_page Wd (contact_url url path)) = Some e ->
  sweep_outcome R Wd url (before ++ path :: after)
  = (map (contact_url url) (before ++ [path]), Some e).
Proof.
  intros Hb He. induction before as [|q before IH]; simpl.
  - now rewrite He.
  - rewrite (Hb q) by now left. rewrite IH; [reflexivity|].
    intros q' Hq'. apply Hb. now right.
Qed.

Lemma sweep_outcome_none (url : str) (paths : list str) :
  (forall q, In q paths -> yields R (site_page Wd (contact_url url q)) = None) ->
  sweep_outcome R Wd url paths = (map (contact_url url) paths, None).
Proof.
  intros Hb. induction paths as [|q paths IH]; simpl; [reflexivity|].
  rewrite (Hb q) by now left. rewrite IH; [reflexivity|].
  intros q' Hq'. apply Hb. now right.
Qed.

Lemma sweep_outcome_none_inv (url : str) (paths : list str) :
  snd (sweep_outcome R Wd url paths) = None ->
  forall q, In q paths -> yields R (site_page Wd (contact_url url q)) = None.
Proof.
  induction paths as [|p paths IH]; simpl; [intros _ q []|].
  destruct (yields R (site_page Wd (contact_url url p))) eqn:E; [discriminate|].
  destruct (sweep_outcome R Wd url paths) as [v r]. simpl in *.
  intros -> q [<-|Hq]; [assumption | now apply IH].
Qed.

(** what one invocation of the engine does, case by case *)
Lemma engine_run (lc pc : nat) (url : str) (s : state R U) :
  let sp := length (handles s) in
  let hs1 := open_under (Some lc) (handles s) in
  let closed1 := set_handles (close_handle sp hs1) s in
  search_email_on_website Wd lc url pc s
  = match site_page Wd url with
    | NavError e => (Raise e, closed1, [EGoto sp url 30000])
    | Rendered text =>
        if found (extract_email_from_rendered_text R text)
        then (Ok (extract_email_from_rendered_text R text), closed1,
              [EGoto sp url 30000])
        else
          match sweep_outcome R Wd url common_contact_paths with
          | (visited, Some e) =>
              (Ok (Some e), closed1,
               EGoto sp url 30000 :: gotos R sp 15000 visited)
          | (visited, None) =>
              (Ok (fallback_result R Wd url),
               set_handles
                 (close_handle sp
                    (close_handle (S sp) (open_under (Some pc) hs1))) s,
               EGoto sp url 30000 :: gotos R sp 15000 visited
                 ++ fallback_trace R (S sp) url)
          end
    end.
Proof.
  intros sp hs1 closed1.
  unfold search_email_on_website, bind at 1, open_handle.
  unfold try_finally, bind at 1. rewrite visit_run.
  destruct (site_page Wd url) as [e|text]; [reflexivity|].
  destruct (found (extract_email_from_rendered_text R text)); [reflexivity|].
  unfold bind at 1. rewrite sweep_run.
  destruct (sweep_outcome R Wd url common_contact_paths) as [visited [e|]];
    cbn [fst snd].
  - unfold ret, close, modify. simpl. now rewrite !app_nil_r.
  - unfold bind, open_handle. rewrite perform_run.
    unfold ret, close, modify. cbn -[close_handle open_under fallback_trace gotos].
    subst sp hs1. rewrite !length_open_under, !app_nil_r. reflexivity.
Qed.

End Engine.

(** C1, as the code has it: the stages run in order and the first
    success ends the search.  With [sp] the page the engine opens on the
    site identity: a home page that yields an email is the only page
    visited; when the home page loads and yields none, the contact pages
    are visited in the order of the list up to the first that yields one,
    and when none of the seven does the search engine is asked and its
    answer is the engine's answer; any navigation by another page than
    [sp] means that the site had been searched through without a match;
    and a home page that does not load is the only page visited, its
    error being the outcome of the engine.  (The last case is why the
    claim as worded fails: see [fallback_not_reached_when_home_fails].) *)
Theorem engine_fallback_order (R : runtime) (U : map_ui) (Wd : world)
    (lc pc : nat) (url : str) (s : state R U) :
  let sp := length (handles s) in
  let run := search_email_on_website Wd lc url pc s in
  (forall e, yields R (site_page Wd url) = Some e ->
     fst (fst run) = Ok (Some e) /\ snd run = [EGoto sp url 30000])
  /\ (forall text earlier path later e,
        site_page Wd url = Rendered text ->
        yields R (site_page Wd url) = None ->
        common_contact_paths = earlier ++ path :: later ->
        (forall q, In q earlier ->
           yields R (site_page Wd (contact_url url q)) = None) ->
        yields R (site_page Wd (contact_url url path)) = Some e ->
        fst (fst run) = Ok (Some e)
        /\ snd run = EGoto sp url 30000
                     :: gotos R sp 15000 (map (contact_url url) (earlier ++ [path])))
  /\ (forall text,
        site_page Wd url = Rendered text ->
        yields R (site_page Wd url) = None ->
        (forall q, In q common_contact_paths ->
           yields R (site_page Wd (contact_url url q)) = None) ->
        exists s2 : state R U,
          let fallback := perform_site_specific_google_search Wd (S sp) url s2 in
          fst (fst run) = fst (fst fallback)
          /\ snd run = EGoto sp url 30000
                       :: gotos R sp 15000 (map (contact_url url) common_contact_paths)
                       ++ snd fallback)
  /\ (forall page u timeout,
        In (EGoto page u timeout) (snd run) -> page <> sp ->
        yields R (site_page Wd url) = None
        /\ forall q, In q common_contact_paths ->
             yields R (site_page Wd (contact_url url q)) = None)
  /\ (forall e,
        site_page Wd url = NavError e ->
        fst (fst run) = Raise e /\ snd run = [EGoto sp url 30000]).
Proof.
  intros sp run. subst run. rewrite engine_run. fold sp.
  assert (Hg : forall page u timeout urls,
             In (EGoto page u timeout) (gotos R sp 15000 urls) -> page = sp).
  { intros page u timeout urls H. unfold gotos in H. apply in_map_iff in H as (x & E & _).
    now injection E. }
  split; [|split; [|split; [|split]]].
  5:{ intros e He. rewrite He. split; reflexivity. }
  - intros e He. unfold yields in He.
    destruct (site_page Wd url) as [x|text]; [discriminate|].
    destruct (found (extract_email_from_rendered_text R text)); [|discriminate].
    simpl. now rewrite He.
  - intros text earlier path later e Hl Hy Hp Hq He. rewrite Hl in *.
    unfold yields in Hy.
    destruct (found (extract_email_from_rendered_text R text)) eqn:Ef.
    { destruct (extract_email_from_rendered_text R text); discriminate. }
    rewrite Hp, (sweep_outcome_hit R Wd url earlier later path Hq He).
    split; reflexivity.
  - intros text Hl Hy Hq. rewrite Hl in *. unfold yields in Hy.
    exists s. rewrite perform_run.
    destruct (found (extract_email_from_rendered_text R text)) eqn:Ef.
    { destruct (extract_email_from_rendered_text R text); discriminate. }
    rewrite (sweep_outcome_none R Wd url _ Hq). split; reflexivity.
  - intros page u timeout Hin Hne.
    assert (Hhome : ~ In (EGoto page u timeout) [EGoto (R := R) sp url 30000]).
    { intros [H|[]]. injection H as -> _ _. now apply Hne. }
    unfold yields.
    destruct (site_page Wd url) as [x|text] eqn:Es; [now elim Hhome|].
    destruct (found (extract_email_from_rendered_text R text)) eqn:Ef; [now elim Hhome|].
    destruct (sweep_outcome R Wd url common_contact_paths) as [visited [e|]] eqn:Esw.
    { exfalso. simpl in Hin. destruct Hin as [H|H]; [apply Hhome; now left|].
      apply Hg in H. now apply Hne. }
    split; [reflexivity|]. intros q Hq.
    apply (sweep_outcome_none_inv R Wd url common_contact_paths); [now rewrite Esw | exact Hq].
Qed.

Lemma engine_fallback_order_witness :
  let run url :=
    search_email_on_website sample_world 0 (s2l url) 1 (sample_state []) in
  (fst (fst (run "https://mail.example"%string)) = Ok (Some (s2l "info@mail.example"))
   /\ snd (run "https://mail.example"%string)
      = [EGoto 0 (s2l "https://mail.example") 30000])
  /\ (fst (fst (run "https://shop.example/"%string)) = Ok (Some (s2l "hello@shop.example"))
      /\ snd (run "https://shop.example/"%string)
         = [EGoto 0 (s2l "https://shop.example/") 30000;
            EGoto 0 (s2l "https://shop.example/about") 15000;
            EGoto 0 (s2l "https://shop.example/contact") 15000])
  /\ fst (fst (run "https://quiet.example"%string)) = Ok (Some (s2l "found@search.example"))
  /\ (fst (fst (run "https://down.example"%string)) = Raise PlaywrightTimeout
      /\ snd (run "https://down.example"%string)
         = [EGoto 0 (s2l "https://down.example") 30000]).
Proof.
  intros run. split; [|split; [|split]].
  4:{ apply (proj2 (proj2 (proj2 (proj2 (engine_fallback_order sample_world 0 1
                           (s2l "https://down.example") (sample_state [])))))).
      reflexivity. }
  - apply (proj1 (engine_fallback_order sample_world 0 1
                    (s2l "https://mail.example") (sample_state []))).
    reflexivity.
  - apply (proj1 (proj2 (engine_fallback_order sample_world 0 1
                           (s2l "https://shop.example/") (sample_state [])))
             [] [s2l "/about"] (s2l "/contact")
             (map s2l ["/about-us"; "/contact-us"; "/support"; "/help";
                       "/get-in-touch"]%string));
      try reflexivity.
    intros q [<-|[]]. reflexivity.
  - destruct (proj1 (proj2 (proj2 (engine_fallback_order sample_world 0 1
                           (s2l "https://quiet.example") (sample_state []))))
                [] eq_refl eq_refl) as [s2 [Hr _]].
    + intros q Hq. simpl in Hq.
      repeat (destruct Hq as [<-|Hq]; [reflexivity|]). destruct Hq.
    + unfold run. rewrite Hr. rewrite perform_run. reflexivity.
Defined.

(** C1, as the specification words it, fails.  The home page of the site
    does not load, so the first stage gives no email, and no contact page
    gives one either; the search engine has an address for the site.  The
    claim makes that address the engine's result.  The engine never asks
    for it: the timeout of the home page is its outcome, and the home page
    is the only page it has tried. *)
Lemma fallback_not_reached_when_home_fails :
  let url := s2l "https://gone.example" in
  let run := search_email_on_website gone_world 0 url 1 (sample_state []) in
  yields sample_runtime (site_page gone_world url) = None
  /\ (forall q, In q common_contact_paths ->
        yields sample_runtime (site_page gone_world (contact_url url q)) = None)
  /\ (forall s2 : state sample_runtime sample_ui,
        fst (fst (perform_site_specific_google_search gone_world 1 url s2))
        = Ok (Some (s2l "old@gone.example")))
  /\ fst (fst run) = Raise PlaywrightTimeout
  /\ snd run = [EGoto 0 url 30000].
Proof.
  intros url run. split; [reflexivity|]. split; [intros q _; reflexivity|].
  split; [|split; reflexivity].
  intros s2. rewrite perform_run. reflexivity.
Qed.

(** C2, as the code has it: when the home page loads and no stage
    yields an email, the engine returns [None] without raising.  Every
    contact page is visited, whether an earlier one failed to load or
    not, and a search that fails gives [None] as well.  (A home page
    that fails to load is the other case: see
    [engine_raises_when_home_fails].) *)
Theorem engine_returns_none (R : runtime) (U : map_ui) (Wd : world)
    (lc pc : nat) (url text : str) (s : state R U) :
  site_page Wd url = Rendered text ->
  nothing_discoverable R Wd url ->
  let sp := length (handles s) in
  let run := search_email_on_website Wd lc url pc s in
  fst (fst run) = Ok None
  /\ snd run = EGoto sp url 30000
               :: gotos R sp 15000 (map (contact_url url) common_contact_paths)
               ++ fallback_trace R (S sp) url.
Proof.
  intros Hl (Hhome & Hpaths & Hsearch) sp run. subst run.
  rewrite engine_run. fold sp. rewrite Hl in *. unfold yields in Hhome.
  destruct (found (extract_email_from_rendered_text R text)) eqn:Ef.
  { destruct (extract_email_from_rendered_text R text); discriminate. }
  rewrite (sweep_outcome_none R Wd url _ Hpaths). cbn [fst snd].
  split; [|reflexivity]. unfold fallback_result.
  destruct (startswith_any scheme_prefixes url); [now rewrite Hsearch | reflexivity].
Qed.

Lemma sample_nothing_discoverable (site : string) :
  site = "https://silent.example"%string \/ site = "https://down.example"%string ->
  nothing_discoverable sample_runtime sample_world (s2l site).
Proof.
  intros [->| ->]; (split; [reflexivity|split; [|reflexivity]]);
    intros q Hq; simpl in Hq;
    repeat (destruct Hq as [<-|Hq]; [reflexivity|]); destruct Hq.
Defined.

Lemma engine_returns_none_witness :
  fst (fst (search_email_on_website sample_world 0 (s2l "https://silent.example") 1
              (sample_state []))) = Ok None.
Proof.
  apply (@engine_returns_none sample_runtime sample_ui sample_world 0 1
           (s2l "https://silent.example") [] (sample_state []) eq_refl).
  apply sample_nothing_discoverable. now left.
Defined.

(** C2, as the specification words it, fails: nothing is discoverable
    on a site whose home page does not load, and there the engine raises
    (after closing its page); only the contact pages and the search are
    guarded. *)
Lemma engine_raises_when_home_fails :
  nothing_discoverable sample_runtime sample_world (s2l "https://down.example")
  /\ fst (fst (search_email_on_website sample_world 0 (s2l "https://down.example") 1
                 (sample_state []))) = Raise PlaywrightTimeout.
Proof.
  split; [|reflexivity]. apply sample_nothing_discoverable. now right.
Qed.

(** ** Input validation *)

Lemma https_is_not_http (p : str) :
  startswith (s2l "https://") p = true -> startswith (s2l "http://") p = false.
Proof.
  intros H. apply startswith_spec in H as [rest ->]. reflexivity.
Qed.

Lemma first_event_bind (R : runtime) (St A B : Type) (m : M R St A)
    (k : A -> M R St B) (ev : event R) (s : St) :
  (exists t, snd (m s) = ev :: t) -> exists t, snd (bind m k s) = ev :: t.
Proof.
  intros [t H]. unfold bind. destruct (m s) as [[[a|e] s1] t1]; simpl in *; subst.
  - destruct (k a s1) as [[r s2] t2]. simpl. eauto.
  - eauto.
Qed.

Lemma first_event_try_finally (R : runtime) (St A : Type) (body : M R St A)
    (fin : M R St unit) (ev : event R) (s : St) :
  (exists t, snd (body s) = ev :: t) ->
  exists t, snd (try_finally body fin s) = ev :: t.
Proof.
  intros [t H]. unfold try_finally. destruct (body s) as [[r s1] t1]; simpl in *; subst.
  destruct (fin s1) as [[[u|e] s2] t2]; simpl; eauto.
Qed.

(** C9: the orchestrator checks its inputs first.  It raises
    [ValueError] with the message for the proxy exactly when the proxy
    server does not begin with [http://], which includes every value that
    begins with [https://]; otherwise it raises [ValueError] with the
    message for the user agent exactly when that is empty; and when it
    raises, nothing else has happened: the trace is empty, no browser was
    launched, the state is untouched.  When both checks pass, the first
    thing done is the launch of the proxied browser. *)
Theorem validation_before_launch (R : runtime) (U : map_ui) (Wd : world)
    (proxy_server user_agent : str) (delay total : Z) (suburb state_ : str)
    (s : state R U) :
  let run := scrape_google_maps Wd proxy_server user_agent delay total suburb state_ s in
  (startswith (s2l "http://") proxy_server = false ->
     run = (Raise (ValueError (s2l "Invalid proxy format: " ++ proxy_server)), s, []))
  /\ (startswith (s2l "https://") proxy_server = true ->
        run = (Raise (ValueError (s2l "Invalid proxy format: " ++ proxy_server)), s, []))
  /\ (startswith (s2l "http://") proxy_server = true -> user_agent = [] ->
        run = (Raise (ValueError (s2l "User agent cannot be empty.")), s, []))
  /\ (startswith (s2l "http://") proxy_server = true -> user_agent <> [] ->
        validate_inputs proxy_server user_agent = Ok tt
        /\ exists t, snd run = ELaunch true :: t).
Proof.
  intros run. subst run. unfold scrape_google_maps, bind at 1, ext, validate_inputs.
  split; [|split; [|split]].
  - intros ->. reflexivity.
  - intros H. now rewrite (https_is_not_http _ H).
  - intros H ->. rewrite H.
    destruct (startswith (s2l "https://") proxy_server) eqn:E; [|reflexivity].
    apply https_is_not_http in E. congruence.
  - intros H Hua. rewrite H.
    destruct (startswith (s2l "https://") proxy_server) eqn:E.
    { apply https_is_not_http in E. congruence. }
    destruct user_agent as [|c ua]; [congruence|]. simpl.
    split; [reflexivity|].
    unfold bind at 1. cbv beta iota.
    assert (Hl : exists t,
               snd (try_finally
                      (with_browsers Wd delay total suburb state_)
                      (modify (fun s : state R U =>
                                 set_handles (close_all (handles s)) s)) s)
               = ELaunch true :: t).
    { apply first_event_try_finally, first_event_bind, first_event_bind.
      now exists []. }
    destruct Hl as [t Ht].
    match goal with
    | |- context [match ?x with _ => _ end] => destruct x as [[r s2] t2]
    end.
    simpl in *. eauto.
Qed.

Lemma validation_before_launch_witness :
  let run proxy ua :=
    scrape_google_maps sample_world (s2l proxy) (s2l ua) 3 40
      (s2l "Fitzroy") (s2l "VIC") (sample_state []) in
  run "https://proxy.example:8080"%string "Mozilla/5.0"%string
  = (Raise (ValueError (s2l "Invalid proxy format: https://proxy.example:8080")),
     sample_state [], [])
  /\ run "proxy.example:8080"%string "Mozilla/5.0"%string
     = (Raise (ValueError (s2l "Invalid proxy format: proxy.example:8080")),
        sample_state [], [])
  /\ run "http://proxy.example:8080"%string EmptyString
     = (Raise (ValueError (s2l "User agent cannot be empty.")), sample_state [], [])
  /\ exists t, snd (run "http://proxy.example:8080"%string "Mozilla/5.0"%string)
               = ELaunch true :: t.
Proof.
  intros run. split; [|split; [|split]].
  - apply (proj1 (proj2 (validation_before_launch sample_world
             (s2l "https://proxy.example:8080") (s2l "Mozilla/5.0") 3 40
             (s2l "Fitzroy") (s2l "VIC") (sample_state [])))). reflexivity.
  - apply (proj1 (validation_before_launch sample_world
             (s2l "proxy.example:8080") (s2l "Mozilla/5.0") 3 40
             (s2l "Fitzroy") (s2l "VIC") (sample_state []))). reflexivity.
  - apply (proj1 (proj2 (proj2 (validation_before_launch sample_world
             (s2l "http://proxy.example:8080") (s2l EmptyString) 3 40
             (s2l "Fitzroy") (s2l "VIC") (sample_state []))))); reflexivity.
  - apply (proj2 (proj2 (proj2 (validation_before_launch sample_world
             (s2l "http://proxy.example:8080") (s2l "Mozilla/5.0") 3 40
             (s2l "Fitzroy") (s2l "VIC") (sample_state []))))); [reflexivity|discriminate].
Defined.

(** ** Properties kept along a run *)

Section RespectLemmas.
Variable R : runtime.
Variable St : Type.
Variable T : transition R St.
Context {HT : Stepwise T}.

Lemma respects_ret {A} (a : A) : respects T (ret a).
Proof. intros s. exact (step_refl s). Qed.

Lemma respects_raise {A} (e : exn) : respects T (raise (A := A) e).
Proof. intros s. exact (step_refl s). Qed.

Lemma respects_ext {A} (r : outcome A) : respects T (ext r).
Proof. intros s. exact (step_refl s). Qed.

Lemma respects_gets {A} (f : St -> A) : respects T (gets f).
Proof. intros s. exact (step_refl s). Qed.

Lemma respects_bind {A B} (m : M R St A) (k : A -> M R St B) :
  respects T m -> (forall a, respects T (k a)) -> respects T (bind m k).
Proof.
  intros Hm Hk s. unfold bind. specialize (Hm s).
  destruct (m s) as [[[a|e] s1] t1]; [|assumption].
  specialize (Hk a s1). destruct (k a s1) as [[r s2] t2].
  eapply step_trans; eassumption.
Qed.

Lemma respects_try_except {A} (body : M R St A) (handler : exn -> M R St A) :
  respects T body -> (forall e, respects T (handler e)) ->
  respects T (try_except body handler).
Proof.
  intros Hb Hh s. unfold try_except. specialize (Hb s).
  destruct (body s) as [[[a|e] s1] t1]; [assumption|].
  specialize (Hh e s1). destruct (handler e s1) as [[r s2] t2].
  eapply step_trans; eassumption.
Qed.

Lemma respects_try_finally {A} (body : M R St A) (fin : M R St unit) :
  respects T body -> respects T fin -> respects T (try_finally body fin).
Proof.
  intros Hb Hf s. unfold try_finally. specialize (Hb s).
  destruct (body s) as [[r s1] t1]. specialize (Hf s1).
  destruct (fin s1) as [[[u|e] s2] t2]; eapply step_trans; eassumption.
Qed.
End RespectLemmas.

#[export] Instance emitting_stepwise (R : runtime) (St : Type) (Q : event R -> Prop) :
  Stepwise (emitting (St := St) Q).
Proof.
  split; unfold emitting.
  - intros s. constructor.
  - intros s s1 s2 t1 t2 H1 H2. apply Forall_app. now split.
Qed.

#[export] Instance keeping_stepwise (R : runtime) (St : Type) (P : St -> Prop) :
  Stepwise (keeping (R := R) P).
Proof.
  split; unfold keeping; auto.
Qed.

Lemma respects_bind_ext (R : runtime) (St A B : Type) (T : transition R St)
    (r : outcome A) (k : A -> M R St B) :
  Stepwise T ->
  (forall v, r = Ok v -> respects T (k v)) -> respects T (bind (ext r) k).
Proof.
  intros HT H s. unfold bind, ext. destruct r as [v|e].
  - specialize (H v eq_refl s). destruct (k v s) as [[r' s'] t'].
    exact (step_trans s s s' [] t' (step_refl s) H).
  - exact (step_refl s).
Qed.

Lemma respects_emitting_weaken (R : runtime) (St A : Type)
    (Q Q' : event R -> Prop) (m : M R St A) :
  (forall ev, Q ev -> Q' ev) ->
  respects (emitting Q) m -> respects (emitting Q') m.
Proof.
  intros HQ H s. specialize (H s). destruct (m s) as [[r s'] t].
  unfold emitting in *. eapply Forall_impl; eassumption.
Qed.

Ltac respects_step :=
  match goal with
  | |- Stepwise _ => exact _
  | |- respects _ (bind _ _) => apply respects_bind; [| |intro]
  | |- respects _ (ret _) => apply respects_ret
  | |- respects _ (raise _) => apply respects_raise
  | |- respects _ (ext _) => apply respects_ext
  | |- respects _ (gets _) => apply respects_gets
  | |- respects _ (try_except _ _) => apply respects_try_except; [| |intro]
  | |- respects _ (try_finally _ _) => apply respects_try_finally
  | |- respects _ (if ?b then _ else _) => destruct b
  | |- respects _ (match ?x with _ => _ end) => destruct x
  end.

(** ** Steps that neither save nor complain about a URL *)

(** the events of everything but the saves and the early return of the
    fallback *)
Section QuietSteps.
Variable R : runtime.
Variable U : map_ui.
Variable Wd : world.
Variable Q : event R -> Prop.
Hypothesis Q_goto : forall page url timeout, Q (EGoto page url timeout).
Hypothesis Q_wait : forall ms, Q (EWait ms).
Hypothesis Q_scroll : Q EScroll.
Hypothesis Q_print : forall m, (forall u, m <> PInvalidWebsite u) -> Q (EPrint m).

(** a step whose trace is plain to see *)
Ltac emitting_leaf :=
  let s := fresh "s" in
  solve [ intros s; unfold emitting;
          cbv [emit modify open_handle close new_business assign append_business
               wait_for_timeout scroll_panel find_panel count_items on_ui];
          repeat match goal with
                 | |- context [match ?x with _ => _ end] =>
                     lazymatch x with
                     | context [match _ with _ => _ end] => fail
                     | _ => destruct x
                     end
                 end;
          repeat first [ apply Forall_nil
                       | apply Forall_cons;
                         [first [ apply Q_goto | apply Q_wait | apply Q_scroll
                                | apply Q_print; discriminate ]|] ] ].

Lemma normalized_has_scheme (site : str) :
  startswith_any scheme_prefixes
    (if negb (startswith_any scheme_prefixes site)
     then s2l "https://" ++ site else site) = true.
Proof.
  destruct (startswith_any scheme_prefixes site) eqn:E; [assumption | reflexivity].
Qed.

Lemma gotos_quiet (page : nat) (timeout : Z) (urls : list str) :
  Forall Q (gotos R page timeout urls).
Proof. induction urls; constructor; [apply Q_goto | assumption]. Qed.

Lemma engine_quiet (lc pc : nat) (url : str) :
  startswith_any scheme_prefixes url = true ->
  respects (emitting Q) (search_email_on_website (U := U) Wd lc url pc).
Proof.
  intros Hs s. rewrite engine_run. unfold emitting, fallback_trace. rewrite Hs.
  destruct (site_page Wd url) as [e|text]; [repeat constructor; apply Q_goto|].
  destruct (found (extract_email_from_rendered_text R text));
    [repeat constructor; apply Q_goto|].
  destruct (sweep_outcome R Wd url common_contact_paths) as [visited [e|]].
  - constructor; [apply Q_goto | apply gotos_quiet].
  - constructor; [apply Q_goto|]. apply Forall_app. split; [apply gotos_quiet|].
    repeat constructor. apply Q_goto.
Qed.

Lemma discover_email_quiet (lb pc : nat) (lv : listing_view) (b : nat)
    (site : str) :
  respects (emitting Q) (discover_email (U := U) Wd lb pc lv b site).
Proof.
  unfold discover_email.
  pose proof (normalized_has_scheme site) as Hn.
  destruct (negb (startswith_any scheme_prefixes site));
    repeat first [ apply engine_quiet; assumption
                 | respects_step | emitting_leaf ].
Qed.

Lemma process_listing_quiet (lb pc : nat) (lv : listing_view) :
  respects (emitting Q) (process_listing (U := U) Wd lb pc lv).
Proof.
  unfold process_listing, fill_business.
  repeat first [ apply discover_email_quiet | respects_step | emitting_leaf ].
Qed.

Lemma for_each_listing_quiet (lb pc : nat) (listings : list listing_view) :
  respects (emitting Q) (for_each_listing (U := U) Wd lb pc listings).
Proof.
  induction listings as [|lv rest IH]; cbn [for_each_listing];
    repeat first [ exact IH | apply process_listing_quiet | respects_step ].
Qed.

Lemma scroll_loop_quiet (fuel : nat) (req max prev sc : Z) :
  respects (emitting Q) (scroll_loop R U fuel req max prev sc).
Proof.
  revert prev sc. induction fuel as [|fuel IH]; intros prev sc; cbn [scroll_loop];
    repeat first [ apply IH | respects_step | emitting_leaf ].
Qed.

Lemma scroll_to_load_more_quiet (req max : Z) :
  respects (emitting Q) (scroll_to_load_more R U req max).
Proof.
  unfold scroll_to_load_more.
  repeat first [ apply scroll_loop_quiet | respects_step | emitting_leaf ].
Qed.

Lemma on_ui_emitting {A} (m : M R (W U) A) :
  respects (emitting Q) m -> respects (emitting Q) (on_ui (R := R) m).
Proof.
  intros H s. unfold on_ui. specialize (H (ui s)).
  now destruct (m (ui s)) as [[r w] t].
Qed.
End QuietSteps.

(** ** The fallback is only ever asked about URLs with a scheme *)

Lemma scrape_not_invalid (R : runtime) (U : map_ui) (Wd : world)
    (proxy_server user_agent : str) (delay total : Z) (suburb state_ : str) :
  respects (emitting (@not_invalid_website R))
    (scrape_google_maps (U := U) Wd proxy_server user_agent delay total suburb state_).
Proof.
  assert (Hg : forall page url timeout,
             @not_invalid_website R (EGoto page url timeout)) by (intros; exact I).
  assert (Hw : forall ms, @not_invalid_website R (EWait ms)) by (intros; exact I).
  assert (Hp : forall m, (forall u, m <> PInvalidWebsite u) ->
                         @not_invalid_website R (EPrint m)).
  { intros m Hm. destruct m; try exact I. now elim (Hm url). }
  unfold scrape_google_maps, with_browsers, session, launch.
  repeat first [ apply for_each_listing_quiet; assumption || exact I
               | apply on_ui_emitting
               | apply scroll_to_load_more_quiet; assumption || exact I
               | respects_step
               | solve [ intros s; unfold emitting;
                         cbv [emit modify open_handle close save on_ui];
                         repeat match goal with
                                | |- context [match ?x with _ => _ end] =>
                                    lazymatch x with
                                    | context [match _ with _ => _ end] => fail
                                    | _ => destruct x
                                    end
                                end;
                         repeat constructor ] ].
Qed.

Lemma respects_emitting_trace (R : runtime) (St A : Type) (Q : event R -> Prop)
    (m : M R St A) (s : St) :
  respects (emitting Q) m -> Forall Q (snd (m s)).
Proof.
  intros H. specialize (H s). now destruct (m s) as [[r s'] t].
Qed.

(** C10: a URL that starts with [http://] or [https://] never takes
    the early return of the fallback: the query is issued.  The
    orchestrator puts [https://] in front of every website without a
    scheme before it validates it and hands it on, so in no run of one
    listing, and in no run of the whole scraper, is "Invalid website URL"
    ever printed. *)
Theorem fallback_url_has_scheme (R : runtime) (U : map_ui) (Wd : world) :
  (forall (page : nat) (url : str) (s : state R U),
      startswith_any scheme_prefixes url = true ->
      perform_site_specific_google_search Wd page url s
      = (Ok (yields R (search_page Wd (google_query url))), s,
         [EGoto page (google_query url) 15000]))
  /\ (forall site : str,
         startswith_any scheme_prefixes
           (if negb (startswith_any scheme_prefixes site)
            then s2l "https://" ++ site else site) = true)
  /\ (forall (lb pc : nat) (lv : listing_view) (s : state R U),
         Forall (@not_invalid_website R) (snd (process_listing Wd lb pc lv s)))
  /\ (forall (proxy_server user_agent : str) (delay total : Z)
             (suburb state_ : str) (s : state R U),
         Forall (@not_invalid_website R)
           (snd (scrape_google_maps Wd proxy_server user_agent delay total
                   suburb state_ s))).
Proof.
  split; [|split; [|split]].
  - intros page url s H. rewrite perform_run.
    unfold fallback_result, fallback_trace. now rewrite H.
  - apply normalized_has_scheme.
  - intros lb pc lv s. apply respects_emitting_trace, process_listing_quiet;
      try (intros; exact I).
    intros m Hm. destruct m; try exact I. now elim (Hm url).
  - intros. apply respects_emitting_trace, scrape_not_invalid.
Qed.

Lemma fallback_url_has_scheme_witness :
  perform_site_specific_google_search sample_world 1 (s2l "https://quiet.example")
    (sample_state [])
  = (Ok (Some (s2l "found@search.example")), sample_state [],
     [EGoto 1 (google_query (s2l "https://quiet.example")) 15000]).
Proof.
  apply (proj1 (@fallback_url_has_scheme sample_runtime sample_ui sample_world) 1
           (s2l "https://quiet.example") (sample_state [])).
  reflexivity.
Defined.

(** ** The listing loader *)

Example late_feed_run :
  scroll_to_load_more sample_runtime sample_ui 3 10 late_feed
  = (Ok tt, [repeat (sample_listing "shop.example") 5],
     [EPrint (PScrolling 0); EPrint (PRetry 0); EWait 20000; EScroll; EWait 3000;
      EPrint (PScrolling 5); EPrint (PReached 3 1); EPrint (PFinalCount 5)]).
Proof. reflexivity. Qed.

Section LoaderFacts.
Variable R : runtime.
Variable U : map_ui.

Lemma count_items_run (w : W U) (items : list listing_view) :
  ui_items U w = Ok items ->
  count_items R U w = (Ok (Z.of_nat (length items)), w, []).
Proof. intros H. unfold count_items. now rewrite H. Qed.

(** the head of an iteration: the target is reached *)
Lemma scroll_loop_reached (fuel : nat) (req max prev sc : Z) (w : W U)
    (items : list listing_view) :
  (sc < max)%Z -> ui_items U w = Ok items ->
  (req <= Z.of_nat (length items))%Z ->
  scroll_loop R U (S fuel) req max prev sc w
  = (Ok sc, w, [EPrint (PScrolling (Z.of_nat (length items)));
                EPrint (PReached req sc)]).
Proof.
  intros Hsc Hitems Hreq. cbn [scroll_loop].
  apply Z.ltb_lt in Hsc. rewrite Hsc.
  unfold bind at 1. rewrite (count_items_run w Hitems).
  assert (Hge : (Z.of_nat (length items) >=? req)%Z = true) by (apply Z.geb_le; lia).
  unfold bind, emit, ret. rewrite Hge. reflexivity.
Qed.

(** the head of an iteration: the count has not moved, and still has not
    after the grace wait *)
Lemma scroll_loop_stalled (fuel : nat) (req max sc : Z) (w : W U)
    (items items' : list listing_view) :
  (sc < max)%Z -> ui_items U w = Ok items ->
  (Z.of_nat (length items) < req)%Z ->
  ui_items U (ui_wait U 20000 w) = Ok items' ->
  length items' = length items ->
  scroll_loop R U (S fuel) req max (Z.of_nat (length items)) sc w
  = (Ok sc, ui_wait U 20000 w,
     [EPrint (PScrolling (Z.of_nat (length items))); EPrint (PRetry sc);
      EWait 20000; EPrint (PStopping sc)]).
Proof.
  intros Hsc Hitems Hreq Hitems' Hsame. cbn [scroll_loop].
  apply Z.ltb_lt in Hsc. rewrite Hsc.
  unfold bind at 1. rewrite (count_items_run w Hitems).
  assert (Hge : (Z.of_nat (length items) >=? req)%Z = false).
  { rewrite Z.geb_leb. apply Z.leb_gt. lia. }
  unfold bind at 1, emit at 1. cbv beta iota. rewrite Hge.
  unfold bind at 1. rewrite Z.eqb_refl.
  unfold bind at 1, emit at 1. cbv beta iota.
  unfold bind at 1, wait_for_timeout at 1. cbv beta iota.
  unfold bind at 1. rewrite (count_items_run _ Hitems'), Hsame, Z.eqb_refl.
  unfold bind, emit, ret. reflexivity.
Qed.

(** the head of an iteration: the count has not moved but has after the
    grace wait; the loader scrolls and goes round again, whatever the new
    count is *)
Lemma scroll_loop_recovered (fuel : nat) (req max sc : Z) (w w2 : W U)
    (items items' : list listing_view) :
  (sc < max)%Z -> ui_items U w = Ok items ->
  (Z.of_nat (length items) < req)%Z ->
  ui_items U (ui_wait U 20000 w) = Ok items' ->
  length items' <> length items ->
  ui_scroll U (ui_wait U 20000 w) = (Ok true, w2) ->
  scroll_loop R U (S fuel) req max (Z.of_nat (length items)) sc w
  = match scroll_loop R U fuel req max (Z.of_nat (length items')) (sc + 1)
            (ui_wait U 3000 w2) with
    | (r, w', t) =>
        (r, w',
         [EPrint (PScrolling (Z.of_nat (length items))); EPrint (PRetry sc);
          EWait 20000; EScroll; EWait 3000] ++ t)
    end.
Proof.
  intros Hsc Hitems Hreq Hitems' Hdiff Hscroll. cbn [scroll_loop].
  apply Z.ltb_lt in Hsc. rewrite Hsc.
  unfold bind at 1. rewrite (count_items_run w Hitems).
  assert (Hge : (Z.of_nat (length items) >=? req)%Z = false).
  { rewrite Z.geb_leb. apply Z.leb_gt. lia. }
  unfold bind at 1, emit at 1. cbv beta iota. rewrite Hge.
  unfold bind at 1. rewrite Z.eqb_refl.
  unfold bind at 1, emit at 1. cbv beta iota.
  unfold bind at 1, wait_for_timeout at 1. cbv beta iota.
  unfold bind at 1. rewrite (count_items_run _ Hitems').
  assert (Hne : (Z.of_nat (length items') =? Z.of_nat (length items))%Z = false).
  { apply Z.eqb_neq. lia. }
  rewrite Hne. unfold ret at 1. cbv beta iota.
  unfold bind at 1, scroll_panel at 1. rewrite Hscroll. cbv beta iota.
  unfold bind at 1, wait_for_timeout at 1. cbv beta iota.
  destruct (scroll_loop R U fuel req max (Z.of_nat (length items')) (sc + 1)
              (ui_wait U 3000 w2)) as [[r w'] t].
  reflexivity.
Qed.
End LoaderFacts.

Section LoaderBound.
Variable R : runtime.
Variable U : map_ui.

Lemma scrolls_app (t1 t2 : list (event R)) :
  scrolls (t1 ++ t2) = scrolls t1 + scrolls t2.
Proof. unfold scrolls. now rewrite filter_app, length_app. Qed.

Ltac crunch_loop IH :=
  repeat match goal with
         | |- context [match scroll_loop R U ?f ?a ?b ?c ?d ?w with _ => _ end] =>
             let H := fresh "Hrec" in
             pose proof (IH c d w) as H;
             destruct (scroll_loop R U f a b c d w) as [[? ?] ?]
         | |- context [match ?x with _ => _ end] =>
             lazymatch x with
             | context [match _ with _ => _ end] => fail
             | context [scroll_loop] => fail
             | _ => destruct x eqn:?
             end
         end.

(** the loop scrolls at most as often as the bound still allows *)
Lemma scroll_loop_scrolls (fuel : nat) (req max : Z) :
  forall (prev sc : Z) (w : W U),
    scrolls (snd (scroll_loop R U fuel req max prev sc w)) <= Z.to_nat (max - sc).
Proof.
  induction fuel as [|fuel IH]; intros prev sc w; cbn [scroll_loop].
  - unfold scrolls. simpl. lia.
  - destruct (Z.ltb_spec sc max) as [Hlt|Hge]; [|unfold scrolls; simpl; lia].
    unfold bind, count_items, emit, ret, wait_for_timeout, scroll_panel.
    crunch_loop IH; cbn [snd fst] in *; rewrite ?scrolls_app; simpl; try lia.
    all: try (unfold scrolls in *; simpl in *; lia).
Qed.

(** the guard ends the loop before the fuel does: any fuel above the
    number of iterations the guard allows gives the same run *)
Lemma scroll_loop_fuel (fuel fuel' : nat) (req max : Z) :
  forall (prev sc : Z) (w : W U),
    Z.to_nat (max - sc) < fuel -> Z.to_nat (max - sc) < fuel' ->
    scroll_loop R U fuel req max prev sc w = scroll_loop R U fuel' req max prev sc w.
Proof.
  revert fuel'. induction fuel as [|fuel IH]; intros fuel' prev sc w H H'; [lia|].
  destruct fuel' as [|fuel']; [lia|]. cbn [scroll_loop].
  destruct (Z.ltb_spec sc max) as [Hlt|Hge]; [|reflexivity].
  assert (IH' : forall prev' w', scroll_loop R U fuel req max prev' (sc + 1) w'
                                 = scroll_loop R U fuel' req max prev' (sc + 1) w').
  { intros prev' w'. apply IH; lia. }
  unfold bind, count_items, emit, ret, wait_for_timeout, scroll_panel.
  repeat match goal with
         | |- context [match ?x with _ => _ end] =>
             lazymatch x with
             | context [match _ with _ => _ end] => fail
             | context [scroll_loop] => fail
             | _ => destruct x eqn:?
             end
         end; rewrite ?IH'; reflexivity.
Qed.

Lemma scroll_to_load_more_run (req max : Z) (w : W U) :
  exists w' t,
    scroll_to_load_more R U req max w = (Ok tt, w', t)
    /\ scrolls t <= Z.to_nat max.
Proof.
  unfold scroll_to_load_more, try_except, bind, find_panel, count_items, emit.
  pose proof (scroll_loop_scrolls (S (Z.to_nat max)) req max 0 0 w) as Hb.
  rewrite Z.sub_0_r in Hb.
  destruct (ui_panel U w) as [[|]|e]; cbn [negb].
  - destruct (scroll_loop R U (S (Z.to_nat max)) req max 0 0 w) as [[[n|e] w1] t1];
      cbn [snd fst] in *.
    + destruct (ui_items U w1) as [items|e].
      * destruct (Z.of_nat (length items) <? req)%Z;
          eexists; eexists; (split; [reflexivity|]);
          rewrite ?scrolls_app; unfold scrolls in *; simpl; lia.
      * eexists; eexists; (split; [reflexivity|]);
          rewrite ?scrolls_app; unfold scrolls in *; simpl; lia.
    + eexists; eexists; (split; [reflexivity|]);
        rewrite ?scrolls_app; unfold scrolls in *; simpl; lia.
  - eexists; eexists; (split; [reflexivity|]). unfold scrolls. simpl. lia.
  - eexists; eexists; (split; [reflexivity|]). unfold scrolls. simpl. lia.
Qed.

Lemma scroll_to_load_more_bounded (req max : Z) (w : W U) :
  fst (fst (scroll_to_load_more R U req max w)) = Ok tt
  /\ scrolls (snd (scroll_to_load_more R U req max w)) <= Z.to_nat max.
Proof.
  destruct (scroll_to_load_more_run req max w) as (w' & t & -> & H). now split.
Qed.
End LoaderBound.

(** C5, as the code has it.  At the head of every iteration the guard
    allows, the loader counts the rendered listings: when the count has
    reached [N] it stops there, without scrolling; when the count is below
    [N] and equal to the previous one it waits the grace period and counts
    once more, and when the count is still the same it stops, saying that
    no more results came; when that second count differs, it scrolls and
    goes round again without comparing it with [N].  It never raises, and
    it scrolls at most [max_scrolls] times; the fuel of the model plays no
    part. *)
Theorem loader_stops (R : runtime) (U : map_ui) :
  (forall (fuel : nat) (req max prev sc : Z) (w : W U) (items : list listing_view),
      (sc < max)%Z -> ui_items U w = Ok items ->
      (req <= Z.of_nat (length items))%Z ->
      scroll_loop R U (S fuel) req max prev sc w
      = (Ok sc, w, [EPrint (PScrolling (Z.of_nat (length items)));
                    EPrint (PReached req sc)]))
  /\ (forall (fuel : nat) (req max sc : Z) (w : W U)
             (items items' : list listing_view),
         (sc < max)%Z -> ui_items U w = Ok items ->
         (Z.of_nat (length items) < req)%Z ->
         ui_items U (ui_wait U 20000 w) = Ok items' ->
         length items' = length items ->
         scroll_loop R U (S fuel) req max (Z.of_nat (length items)) sc w
         = (Ok sc, ui_wait U 20000 w,
            [EPrint (PScrolling (Z.of_nat (length items))); EPrint (PRetry sc);
             EWait 20000; EPrint (PStopping sc)]))
  /\ (forall (fuel : nat) (req max sc : Z) (w w2 : W U)
             (items items' : list listing_view),
         (sc < max)%Z -> ui_items U w = Ok items ->
         (Z.of_nat (length items) < req)%Z ->
         ui_items U (ui_wait U 20000 w) = Ok items' ->
         length items' <> length items ->
         ui_scroll U (ui_wait U 20000 w) = (Ok true, w2) ->
         scroll_loop R U (S fuel) req max (Z.of_nat (length items)) sc w
         = match scroll_loop R U fuel req max (Z.of_nat (length items')) (sc + 1)
                   (ui_wait U 3000 w2) with
           | (r, w', t) =>
               (r, w',
                [EPrint (PScrolling (Z.of_nat (length items))); EPrint (PRetry sc);
                 EWait 20000; EScroll; EWait 3000] ++ t)
           end)
  /\ (forall (req max : Z) (w : W U),
         fst (fst (scroll_to_load_more R U req max w)) = Ok tt
         /\ scrolls (snd (scroll_to_load_more R U req max w)) <= Z.to_nat max)
  /\ (forall (fuel : nat) (req max prev sc : Z) (w : W U),
         Z.to_nat (max - sc) < fuel ->
         scroll_loop R U fuel req max prev sc w
         = scroll_loop R U (S (Z.to_nat (max - sc))) req max prev sc w).
Proof.
  split; [|split; [|split; [|split]]].
  - apply scroll_loop_reached.
  - apply scroll_loop_stalled.
  - apply scroll_loop_recovered.
  - apply scroll_to_load_more_bounded.
  - intros. apply scroll_loop_fuel; lia.
Qed.

Lemma loader_stops_witness :
  let five := repeat (sample_listing "shop.example") 5 in
  scroll_loop sample_runtime sample_ui 10 3 10 0 1 [five]
  = (Ok 1%Z, [five], [EPrint (PScrolling 5); EPrint (PReached 3 1)])
  /\ scroll_loop sample_runtime sample_ui 10 8 10 5 1 [five]
     = (Ok 1%Z, [five],
        [EPrint (PScrolling 5); EPrint (PRetry 1); EWait 20000; EPrint (PStopping 1)])
  /\ snd (scroll_loop sample_runtime sample_ui 11 3 10 0 0 late_feed)
     = [EPrint (PScrolling 0); EPrint (PRetry 0); EWait 20000; EScroll; EWait 3000;
        EPrint (PScrolling 5); EPrint (PReached 3 1)]
  /\ scroll_loop sample_runtime sample_ui 20 3 10 0 0 late_feed
     = scroll_loop sample_runtime sample_ui 11 3 10 0 0 late_feed.
Proof.
  intros five. split; [|split; [|split]].
  - apply (proj1 (loader_stops sample_runtime sample_ui) 9 3%Z 10%Z 0%Z 1%Z
             [five] five); [lia | reflexivity | simpl; lia].
  - apply (proj1 (proj2 (loader_stops sample_runtime sample_ui)) 9 8%Z 10%Z 1%Z
             [five] five five); [lia | reflexivity | simpl; lia | reflexivity | reflexivity].
  - refine (eq_trans
              (f_equal snd
                 (proj1 (proj2 (proj2 (loader_stops sample_runtime sample_ui)))
                    10 3%Z 10%Z 0%Z late_feed [five] [] five
                    ltac:(lia) ltac:(reflexivity) ltac:(simpl; lia)
                    ltac:(reflexivity) ltac:(discriminate) ltac:(reflexivity)))
              _).
    reflexivity.
  - apply (proj2 (proj2 (proj2 (proj2 (loader_stops sample_runtime sample_ui))))
             20 3%Z 10%Z 0%Z 0%Z late_feed). simpl. lia.
Defined.

(** C5, as the specification words it, fails: the count is compared
    with [N] only at the head of an iteration.  Here nothing is rendered
    at first and five listings have appeared when the grace wait is over;
    with [N = 3] the loader still scrolls once (and waits) before it
    stops. *)
Lemma loader_scrolls_after_target_reached :
  ui_items sample_ui (ui_wait sample_ui 20000 late_feed)
  = Ok (repeat (sample_listing "shop.example") 5)
  /\ snd (scroll_to_load_more sample_runtime sample_ui 3 10 late_feed)
     = [EPrint (PScrolling 0); EPrint (PRetry 0); EWait 20000; EScroll; EWait 3000;
        EPrint (PScrolling 5); EPrint (PReached 3 1); EPrint (PFinalCount 5)].
Proof. split; reflexivity. Qed.


(** ** One record per listing *)

Lemma update_nth_last {A} (f : A -> A) (h : list A) (x : A) :
  update_nth (length h) f (h ++ [x]) = h ++ [f x].
Proof. induction h as [|y h IH]; simpl; [reflexivity | now rewrite IH]. Qed.

Section Records.
Variable R : runtime.
Variable U : map_ui.
Variable Wd : world.

Lemma assign_building (h : list (Business R)) (l : list nat) (lv : listing_view)
    (f : Business R -> Business R) :
  (forall obj, describes lv obj -> describes lv (f obj)) ->
  respects (keeping (building (U := U) h l lv)) (assign (length h) f).
Proof.
  intros Hf s. unfold assign, modify, keeping. cbv beta iota.
  intros (obj & Hh & Hd & Hv & Hl). exists (f obj). simpl.
  rewrite Hh, update_nth_last. auto.
Qed.

(** steps that only open and close handles *)
Lemma handles_only_building {A} (h : list (Business R)) (l : list nat)
    (lv : listing_view) (m : M R (state R U) A) :
  (forall s, exists hs, snd (fst (m s)) = set_handles hs s) ->
  respects (keeping (building h l lv)) m.
Proof.
  intros H s. destruct (H s) as [hs Hs]. destruct (m s) as [[r s'] t].
  simpl in Hs. subst s'. unfold keeping, building. simpl. auto.
Qed.

Lemma engine_handles_only (lc pc : nat) (url : str) (s : state R U) :
  exists hs, snd (fst (search_email_on_website Wd lc url pc s)) = set_handles hs s.
Proof.
  rewrite engine_run.
  destruct (site_page Wd url) as [e|text]; [eexists; reflexivity|].
  destruct (found (extract_email_from_rendered_text R text)); [eexists; reflexivity|].
  destruct (sweep_outcome R Wd url common_contact_paths) as [visited [e|]];
    eexists; reflexivity.
Qed.

Ltac describes_step :=
  let obj := fresh "obj" in
  intros obj (? & ? & ? & ? & ?); unfold describes, from_lookup; simpl;
  repeat split; eauto 10.

Ltac building_step :=
  match goal with
  | |- Stepwise _ => exact _
  | |- respects _ (bind (ext _) _) => apply respects_bind_ext; [exact _ | intros ? ?]
  | |- respects _ (bind _ _) => apply respects_bind; [exact _ | | intro]
  | |- respects _ (ret _) => apply respects_ret
  | |- respects _ (ext _) => apply respects_ext
  | |- respects _ (assign _ _) => apply assign_building; describes_step
  | |- respects _ (search_email_on_website _ _ _ _) =>
      apply handles_only_building; apply engine_handles_only
  | |- respects _ (open_handle _) =>
      apply handles_only_building; intros ?; eexists; reflexivity
  | |- respects _ (close _) =>
      apply handles_only_building; intros ?; eexists; reflexivity
  | |- respects _ (emit _) =>
      let s := fresh "s" in intros s; unfold keeping; simpl; auto
  | |- respects _ (if ?b then _ else _) => destruct b
  end.

Lemma discover_email_building (h : list (Business R)) (l : list nat)
    (lv : listing_view) (lb pc : nat) (site0 : str) :
  lv_website lv = Ok site0 ->
  respects (keeping (building h l lv))
    (discover_email (U := U) Wd lb pc lv (length h) (or_empty site0)).
Proof.
  intros Hw. unfold discover_email.
  destruct (negb (startswith_any scheme_prefixes (or_empty site0)));
    repeat building_step.
Qed.

Lemma fill_business_building (h : list (Business R)) (l : list nat)
    (lv : listing_view) (lb pc : nat) :
  respects (keeping (building h l lv))
    (fill_business (U := U) Wd lb pc lv (length h)).
Proof.
  unfold fill_business.
  repeat first [ apply discover_email_building; assumption | building_step ].
Qed.

(** what one turn of the listing loop does to the objects, to the
    variable [business] and to the list *)
Lemma process_listing_appends (lb pc : nat) (lv : listing_view) (s : state R U) :
  match process_listing Wd lb pc lv s with
  | (r, s', _) =>
      match lv_click lv with
      | Ok _ =>
          r = Ok tt
          /\ (exists obj, heap s' = heap s ++ [obj] /\ describes lv obj)
          /\ var_business s' = Some (length (heap s))
          /\ business_list s' = business_list s ++ [length (heap s)]
      | Raise _ =>
          heap s' = heap s /\ var_business s' = var_business s
          /\ match var_business s with
             | Some b => r = Ok tt /\ business_list s' = business_list s ++ [b]
             | None => r = Raise UnboundLocalError
                       /\ business_list s' = business_list s
             end
      end
  end.
Proof.
  unfold process_listing, try_finally, try_except, bind at 1, ext.
  destruct (lv_click lv) as [[]|e].
  - unfold bind at 1, new_business.
    pose proof (@fill_business_building (heap s) (business_list s) lv lb pc
                  (set_var_business (Some (length (heap s)))
                     (set_heap (heap s ++ [Business0 R]) s))) as Hk.
    destruct (fill_business Wd lb pc lv (length (heap s))
                (set_var_business (Some (length (heap s)))
                   (set_heap (heap s ++ [Business0 R]) s))) as [[r s2] t2].
    assert (Hb : building (heap s) (business_list s) lv s2).
    { apply Hk. exists (Business0 R). unfold describes, from_lookup. simpl.
      repeat split; auto. }
    destruct Hb as (obj & Hh & Hd & Hv & Hl).
    assert (Happ : append_business s2
                   = (Ok tt, set_business_list (business_list s2 ++ [length (heap s)]) s2, [])).
    { unfold append_business. now rewrite Hv. }
    destruct r as [[]|e]; unfold emit; rewrite Happ; simpl;
      rewrite Hl; repeat split; eauto.
  - unfold emit, append_business. destruct (var_business s) as [b|] eqn:Ev; simpl;
      rewrite ?Ev; auto.
Qed.

Lemma all_described_more (seen more : list listing_view) (s : state R U) :
  all_described seen s -> all_described (seen ++ more) s.
Proof.
  intros H b Hb. destruct (H b Hb) as (lv & obj & Hin & Hn & Hd).
  exists lv, obj. split; [apply in_or_app; now left | now split].
Qed.

(** the listing loop: every record in the list describes one of the
    listings gone through, and a loop that ends normally has added one
    entry for each of them *)
Lemma for_each_listing_described (lb pc : nat) (listings : list listing_view) :
  forall (seen : list listing_view) (s : state R U),
    all_described seen s ->
    match for_each_listing Wd lb pc listings s with
    | (r, s', _) =>
        all_described (seen ++ listings) s'
        /\ (r = Ok tt ->
            length (business_list s') = length (business_list s) + length listings)
    end.
Proof.
  induction listings as [|lv rest IH]; intros seen s Hs; cbn [for_each_listing].
  - unfold ret. rewrite app_nil_r. simpl. split; [assumption | lia].
  - unfold bind. pose proof (process_listing_appends lb pc lv s) as Hp.
    destruct (process_listing Wd lb pc lv s) as [[r1 s1] t1].
    assert (Hs1 : all_described (seen ++ [lv]) s1).
    { destruct (lv_click lv) as [[]|e].
      - destruct Hp as (_ & (obj & Hh & Hd) & Hv & Hl).
        intros b Hb. rewrite Hl, Hv in Hb.
        assert (Hcases : In b (business_list s) \/ b = length (heap s)).
        { destruct Hb as [Hb|Hb]; [|injection Hb; auto].
          apply in_app_or in Hb as [Hb|[Hb|[]]]; auto. }
        destruct Hcases as [Hb'| ->].
        + destruct (Hs b (or_introl Hb')) as (lv' & obj' & Hin & Hn & Hd').
          exists lv', obj'. split; [|split]; auto.
          * apply in_or_app. now left.
          * rewrite Hh. rewrite nth_error_app1; [assumption|].
            apply nth_error_Some. congruence.
        + exists lv, obj. split; [|split]; auto.
          * apply in_or_app. right. now left.
          * rewrite Hh, nth_error_app2, Nat.sub_diag by lia. reflexivity.
      - destruct Hp as (Hh & Hv & Hp).
        assert (Hsub : forall b, In b (business_list s1) \/ var_business s1 = Some b ->
                                 In b (business_list s) \/ var_business s = Some b).
        { intros b Hb. rewrite Hv in Hb. destruct Hb as [Hb|Hb]; [|auto].
          destruct (var_business s) as [b0|]; destruct Hp as [_ Hl]; rewrite Hl in Hb.
          - apply in_app_or in Hb as [Hb|[<-|[]]]; auto.
          - auto. }
        intros b Hb. destruct (Hs b (Hsub b Hb)) as (lv' & obj' & Hin & Hn & Hd').
        exists lv', obj'. split; [|split]; auto.
        + apply in_or_app. now left.
        + now rewrite Hh. }
    destruct r1 as [[]|e1].
    + specialize (IH (seen ++ [lv]) s1 Hs1).
      destruct (for_each_listing Wd lb pc rest s1) as [[r2 s2] t2].
      rewrite <- app_assoc in IH. simpl in IH. destruct IH as [IH1 IH2].
      split; [assumption|]. intros ->. rewrite (IH2 eq_refl). simpl.
      assert (length (business_list s1) = length (business_list s) + 1); [|lia].
      destruct (lv_click lv) as [[]|e].
      * destruct Hp as (_ & _ & _ & Hl). rewrite Hl, length_app. reflexivity.
      * destruct Hp as (_ & _ & Hp). destruct (var_business s).
        -- destruct Hp as [_ Hl]. rewrite Hl, length_app. reflexivity.
        -- destruct Hp. discriminate.
    + split; [|discriminate].
      replace (seen ++ lv :: rest) with ((seen ++ [lv]) ++ rest)
        by now rewrite <- app_assoc.
      now apply all_described_more.
Qed.
End Records.

(** ** What reaches the sink *)

Lemma in_bind (R : runtime) (St A B : Type) (m : M R St A) (k : A -> M R St B)
    (ev : event R) (s : St) :
  In ev (snd (bind m k s)) ->
  In ev (snd (m s))
  \/ exists a s1 t1,
       m s = (Ok a, s1, t1) /\ In ev (snd (k a s1))
       /\ snd (fst (bind m k s)) = snd (fst (k a s1)).
Proof.
  unfold bind. destruct (m s) as [[[a|e] s1] t1]; [|auto].
  destruct (k a s1) as [[r s2] t2] eqn:Ek. simpl. intros H.
  apply in_app_or in H as [H|H]; [auto|]. right.
  exists a, s1, t1. rewrite Ek. auto.
Qed.

Lemma in_try_finally (R : runtime) (St A : Type) (body : M R St A)
    (fin : M R St unit) (ev : event R) (s : St) :
  In ev (snd (try_finally body fin s)) ->
  In ev (snd (body s)) \/ In ev (snd (fin (snd (fst (body s))))).
Proof.
  unfold try_finally. destruct (body s) as [[r s1] t1]. simpl.
  destruct (fin s1) as [[[u|e] s2] t2]; simpl; intros H;
    apply in_app_or in H as [H|H]; auto.
Qed.

Lemma slice_to_length {A} (l : list A) (total : Z) :
  (0 <= total)%Z -> (Z.of_nat (length (slice_to l total)) <= total)%Z.
Proof.
  intros H. unfold slice_to. apply Z.leb_le in H as H'. rewrite H'.
  rewrite length_firstn. lia.
Qed.

Section Sink.
Variable R : runtime.
Variable U : map_ui.
Variable Wd : world.

Lemma not_save_in (St A : Type) (m : M R St A) (s : St) (x : bool) (f : str)
    (rows : list (Business R)) :
  respects (emitting (@not_save R)) m -> ~ In (ESave x f rows) (snd (m s)).
Proof.
  intros H Hin. apply (respects_emitting_trace s) in H.
  rewrite Forall_forall in H. exact (H _ Hin).
Qed.

Lemma loader_no_save (req max : Z) :
  respects (emitting (@not_save R)) (scroll_to_load_more R U req max).
Proof. apply scroll_to_load_more_quiet; intros; exact I. Qed.

Lemma loop_no_save (lb pc : nat) (listings : list listing_view) :
  respects (emitting (@not_save R)) (for_each_listing (U := U) Wd lb pc listings).
Proof. apply for_each_listing_quiet; intros; exact I. Qed.

Lemma rows_described (seen : list listing_view) (s : state R U) :
  all_described seen s ->
  Forall (fun row => exists lv, In lv seen /\ describes lv row) (rows_of s).
Proof.
  intros H. unfold rows_of. apply Forall_forall. intros row Hrow.
  apply in_map_iff in Hrow as (b & <- & Hb).
  destruct (H b (or_introl Hb)) as (lv & obj & Hin & Hn & Hd).
  exists lv. split; [assumption|]. now rewrite (nth_error_nth _ _ _ Hn).
Qed.

(** the listing loop leaves the map page as it is *)
Lemma same_ui_keeps {A} (w : W U) (m : M R (state R U) A) :
  (forall s, ui (snd (fst (m s))) = ui s) ->
  respects (keeping (fun s => ui s = w)) m.
Proof.
  intros H s. specialize (H s). destruct (m s) as [[r s'] t]. simpl in H.
  unfold keeping. congruence.
Qed.

Ltac ui_step :=
  match goal with
  | |- Stepwise _ => exact _
  | |- respects _ (bind _ _) => apply respects_bind; [exact _ | | intro]
  | |- respects _ (try_except _ _) => apply respects_try_except; [exact _ | | intro]
  | |- respects _ (try_finally _ _) => apply respects_try_finally; [exact _ | | ]
  | |- respects _ (ret _) => apply respects_ret
  | |- respects _ (ext _) => apply respects_ext
  | |- respects _ (search_email_on_website _ _ _ _) =>
      apply same_ui_keeps; intros ?;
      match goal with
      | |- ui (snd (fst (search_email_on_website ?W ?lc ?url ?pc ?s))) = _ =>
          destruct (engine_handles_only W lc pc url s) as [? ->]; reflexivity
      end
  | |- respects _ (if ?b then _ else _) => destruct b
  | |- respects _ (match ?x with _ => _ end) => destruct x
  | |- _ =>
      let s := fresh "s" in
      solve [ apply same_ui_keeps; intros s;
              cbv [emit modify new_business assign append_business open_handle
                   close];
              repeat match goal with
                     | |- context [match ?x with _ => _ end] =>
                         lazymatch x with
                         | context [match _ with _ => _ end] => fail
                         | _ => destruct x
                         end
                     end;
              reflexivity ]
  end.

Lemma for_each_listing_ui (lb pc : nat) (listings : list listing_view) (s : state R U) :
  ui (snd (fst (for_each_listing Wd lb pc listings s))) = ui s.
Proof.
  assert (H : respects (keeping (fun s' : state R U => ui s' = ui s))
                (for_each_listing Wd lb pc listings)).
  { induction listings as [|lv rest IH]; cbn [for_each_listing];
      unfold process_listing, fill_business, discover_email;
      repeat first [ exact IH | ui_step ]. }
  specialize (H s). destruct (for_each_listing Wd lb pc listings s) as [[r s'] t].
  unfold keeping in H. simpl. now apply H.
Qed.

(** the session: whatever is saved has one row for each listing taken
    from the page as it stands at the end, and each row describes one of
    them *)
Lemma session_saves (pb lb : nat) (delay total : Z) (suburb state_ : str)
    (s : state R U) (x : bool) (f : str) (rows : list (Business R)) :
  var_business s = None ->
  In (ESave x f rows) (snd (session Wd pb lb delay total suburb state_ s)) ->
  exists all,
    ui_items U (ui (snd (fst (session Wd pb lb delay total suburb state_ s)))) = Ok all
    /\ length rows = length (slice_to all total)
    /\ Forall (fun row => exists lv, In lv (slice_to all total) /\ describes lv row) rows.
Proof.
  intros Hvar H. unfold session in *.
  apply in_bind in H as [H | (pcx & s1 & t1 & E1 & H & ->)]; [destruct H|].
  injection E1 as <- <- <-.
  apply in_bind in H as [H | (page & s2 & t2 & E2 & H & ->)]; [destruct H|].
  injection E2 as <- <- <-.
  apply in_bind in H as [H | ([] & s3 & t3 & E3 & H & ->)].
  { unfold on_ui in H. cbn [ui set_handles] in H.
    destruct (ui_search U _ delay (ui s)) as [r w]. destruct H. }
  apply in_bind in H as [H | ([] & s4 & t4 & E4 & H & ->)].
  { exfalso. revert H. apply not_save_in, on_ui_emitting, loader_no_save. }
  apply in_bind in H as [H | ([] & s5 & t5 & E5 & H & ->)].
  { unfold on_ui in H. destruct H. }
  apply in_bind in H as [H | (all & s6 & t6 & E6 & H & ->)].
  { unfold on_ui in H. destruct H. }
  apply in_bind in H as [H | ([] & s7 & t7 & E7 & H & ->)]; [destruct H|].
  assert (Hv7 : var_business s7 = None /\ business_list s7 = []).
  { unfold on_ui in E3, E4, E5, E6.
    destruct (ui_search U _ delay _) as [r3 w3] in E3. injection E3 as _ <- _.
    destruct (scroll_to_load_more R U total 10 _) as [[r4 w4] t4'] in E4.
    injection E4 as _ <- _. injection E5 as _ <- _. injection E6 as _ <- _.
    injection E7 as <- _. simpl. auto. }
  assert (Hitems : ui_items U (ui s7) = Ok all).
  { unfold on_ui in E6. injection E6 as E6 <- _. injection E7 as <- _. exact E6. }
  destruct Hv7 as [Hv7 Hl7].
  assert (Hd7 : all_described [] s7).
  { intros b [Hb|Hb]; [rewrite Hl7 in Hb; destruct Hb | congruence]. }
  pose proof (for_each_listing_described Wd lb (length (handles s))
                (slice_to all total) Hd7) as Hloop.
  pose proof (for_each_listing_ui lb (length (handles s)) (slice_to all total) s7) as Hui.
  apply in_bind in H as [H | ([] & s8 & t8 & E8 & H & ->)].
  { exfalso. revert H. apply not_save_in, loop_no_save. }
  rewrite E8 in Hloop, Hui. destruct Hloop as [Hd8 Hlen]. specialize (Hlen eq_refl).
  rewrite Hl7 in Hlen. simpl in Hlen, Hd8, Hui.
  assert (Hrows : rows = rows_of s8).
  { apply in_bind in H as [H | ([] & s9 & t9 & E9 & H & _)].
    - destruct H as [H|[]]. now injection H.
    - injection E9 as <- _. destruct H as [H|[]]. now injection H. }
  subst rows. exists all. split; [|split].
  - unfold bind, save. cbn [fst snd]. now rewrite Hui.
  - unfold rows_of. now rewrite length_map.
  - now apply rows_described.
Qed.
End Sink.

(** C4: whatever [scrape_google_maps] hands to the sink has at most
    [total] rows, one for each listing taken from the rendered page (the
    first [total] of those the page shows when the loader is done), and
    every row describes one of those listings: each of its fields is
    unset or was read from that listing's detail panel. *)
Theorem collection_bounded (R : runtime) (U : map_ui) (Wd : world)
    (proxy_server user_agent : str) (delay total : Z) (suburb state_ : str)
    (w : W U) (excel : bool) (filename : str) (rows : list (Business R)) :
  (0 <= total)%Z ->
  let run := scrape_google_maps Wd proxy_server user_agent delay total
               suburb state_ (initial_state R U w) in
  In (ESave excel filename rows) (snd run) ->
  (Z.of_nat (length rows) <= total)%Z
  /\ exists all,
       ui_items U (ui (snd (fst run))) = Ok all
       /\ length rows = length (slice_to all total)
       /\ Forall (fun row => exists lv, In lv (slice_to all total) /\ describes lv row)
            rows.
Proof.
  intros Htotal run H. subst run. unfold scrape_google_maps in *.
  apply in_bind in H as [H | ([] & s1 & t1 & E1 & H & ->)].
  { unfold ext in H. destruct H. }
  unfold ext in E1. injection E1 as _ <- _.
  apply in_try_finally in H as [H|H]; [|destruct H].
  assert (Hfin : forall body : M R (state R U) unit,
             ui (snd (fst (try_finally body
                             (modify (fun s => set_handles (close_all (handles s)) s))
                             (initial_state R U w))))
             = ui (snd (fst (body (initial_state R U w))))).
  { intros body. unfold try_finally, modify.
    now destruct (body (initial_state R U w)) as [[r0 s0] t0]. }
  rewrite Hfin. clear Hfin. unfold with_browsers in *.
  apply in_bind in H as [H | (pb & s2 & t2 & E2 & H & ->)].
  { unfold launch, bind, emit, ext, open_handle in H.
    destruct (launch_result Wd true); simpl in H;
      repeat (destruct H as [H|H]; [discriminate|]); destruct H. }
  apply in_bind in H as [H | (lb & s3 & t3 & E3 & H & ->)].
  { unfold launch, bind, emit, ext, open_handle in H.
    destruct (launch_result Wd false); simpl in H;
      repeat (destruct H as [H|H]; [discriminate|]); destruct H. }
  apply in_try_finally in H as [H|H].
  2:{ unfold bind, close, modify in H. destruct H. }
  assert (Hv : var_business s3 = None).
  { unfold launch, bind, emit, ext, open_handle in E2, E3.
    destruct (launch_result Wd true); [|discriminate]. injection E2 as _ <- _.
    destruct (launch_result Wd false); [|discriminate]. injection E3 as _ <- _.
    reflexivity. }
  destruct (session_saves Wd pb lb delay total suburb state_ s3 excel filename rows Hv H)
    as (all & Hitems & Hlen & Hall).
  split; [rewrite Hlen; now apply slice_to_length|].
  exists all. split; [|auto].
  unfold try_finally, bind, close, modify.
  destruct (session Wd pb lb delay total suburb state_ s3) as [[r0 s0] t0].
  exact Hitems.
Qed.

(** ** Handles are closed *)

Lemma close_handle_fresh (n h : nat) (hs : list hrec) :
  ids_below n hs -> n <= h -> close_handle h hs = hs.
Proof.
  intros H Hh. unfold close_handle. induction H as [|r hs [Hid Hanc] _ IH]; simpl;
    [reflexivity|].
  rewrite IH. f_equal.
  assert (E1 : (hid r =? h) = false) by (apply Nat.eqb_neq; lia).
  assert (E2 : existsb (Nat.eqb h) (hanc r) = false).
  { clear - Hanc Hh. induction Hanc as [|a l Ha _ IHl]; simpl; [reflexivity|].
    rewrite IHl, orb_false_r. apply Nat.eqb_neq. lia. }
  now rewrite E1, E2.
Qed.

Lemma open_ids_app (l1 l2 : list hrec) :
  open_ids (l1 ++ l2) = open_ids l1 ++ open_ids l2.
Proof. unfold open_ids. now rewrite filter_app, map_app. Qed.

Lemma close_handle_app (h : nat) (l1 l2 : list hrec) :
  close_handle h (l1 ++ l2) = close_handle h l1 ++ close_handle h l2.
Proof. unfold close_handle. apply map_app. Qed.

Lemma close_one (n : nat) (hs : list hrec) (anc : list nat) :
  ids_below n hs ->
  open_ids (close_handle n (hs ++ [{| hid := n; hanc := anc; hopen := true |}]))
  = open_ids hs.
Proof.
  intros Hb. rewrite close_handle_app, open_ids_app.
  rewrite (close_handle_fresh Hb (le_n _)).
  unfold close_handle, open_ids. simpl. rewrite Nat.eqb_refl. simpl.
  now rewrite app_nil_r.
Qed.

Lemma close_two (n : nat) (hs : list hrec) (anc1 anc2 : list nat) :
  ids_below n hs ->
  open_ids (close_handle n (close_handle (S n)
              ((hs ++ [{| hid := n; hanc := anc1; hopen := true |}])
                 ++ [{| hid := S n; hanc := anc2; hopen := true |}])))
  = open_ids hs.
Proof.
  intros Hb. rewrite !close_handle_app, !open_ids_app.
  rewrite (close_handle_fresh Hb (Nat.le_succ_diag_r _)).
  rewrite (close_handle_fresh Hb (le_n _)).
  unfold close_handle, open_ids. cbn [map hid hanc hopen].
  rewrite !Nat.eqb_refl. cbn [orb].
  destruct ((n =? S n) || existsb (Nat.eqb (S n)) anc1); cbn [hid hanc hopen];
    rewrite ?Nat.eqb_refl; cbn [orb filter map hopen app];
    destruct ((S n =? n) || existsb (Nat.eqb n) anc2); cbn [filter map hopen app];
    now rewrite ?app_nil_r.
Qed.

(** X23: whatever the engine does, the handles open when it returns or
    raises are those that were open when it was called: its own page is
    closed in the [finally], the page of the search fallback right after
    the search *)
Theorem engine_closes_its_pages (R : runtime) (U : map_ui) (Wd : world)
    (lc pc : nat) (url : str) (s : state R U) :
  ids_below (length (handles s)) (handles s) ->
  open_ids (handles (snd (fst (search_email_on_website Wd lc url pc s))))
  = open_ids (handles s).
Proof.
  intros Hb. rewrite engine_run.
  assert (H1 : open_ids (close_handle (length (handles s))
                           (open_under (Some lc) (handles s)))
               = open_ids (handles s)).
  { unfold open_under. now apply close_one. }
  destruct (site_page Wd url) as [e|text]; [exact H1|].
  destruct (found (extract_email_from_rendered_text R text)); [exact H1|].
  destruct (sweep_outcome R Wd url common_contact_paths) as [visited [e|]];
    [exact H1|].
  cbn [fst snd handles set_handles].
  unfold open_under at 1. rewrite length_open_under. unfold open_under at 1.
  now apply close_two.
Qed.

Section UnderBrowsers.
Variable R : runtime.
Variable U : map_ui.
Variable Wd : world.
Variable B : list nat.

Lemma under_browsers_weaken (m n : nat) (s : state R U) :
  m <= n -> under_browsers B n s -> under_browsers B m s.
Proof. intros Hm (H1 & H2 & H3). repeat split; auto. lia. Qed.

Lemma find_by_id (hs : list hrec) (p : nat) :
  (exists r, In r hs /\ hid r = p) ->
  exists r, find (fun r => hid r =? p) hs = Some r /\ In r hs /\ hid r = p.
Proof.
  intros (r & Hin & Hid).
  destruct (find (fun r => hid r =? p) hs) as [r'|] eqn:E.
  - exists r'. split; [reflexivity|]. apply find_some in E as [E1 E2].
    split; [assumption | now apply Nat.eqb_eq].
  - exfalso. apply (find_none _ _ E) in Hin. apply Nat.eqb_neq in Hin. congruence.
Qed.

Lemma under_browsers_open (p n : nat) (s : state R U) :
  under_browsers B n s -> p < n ->
  under_browsers B (S (length (handles s)))
    (set_handles (open_under (Some p) (handles s)) s).
Proof.
  intros (Hroot & Hall & Hn) Hp. unfold under_browsers. cbn [handles set_handles].
  rewrite length_open_under. unfold open_under. repeat split.
  - apply Forall_app. split; [assumption|]. constructor; [|constructor].
    assert (Hlt : p < length (handles s)) by lia.
    destruct (@find_by_id (handles s) p (Hall p Hlt)) as (r & Hf & Hin & Hid).
    rewrite Forall_forall in Hroot. specialize (Hroot r Hin).
    unfold rooted, ancestors. cbn [hid hanc]. rewrite Hf. right.
    destruct Hroot as [Hr|(a & Ha & HaB)].
    + exists p. split; [now left | congruence].
    + exists a. split; [now right | assumption].
  - intros q Hq. destruct (Nat.eq_dec q (length (handles s))) as [->|Hne].
    + eexists. split; [apply in_or_app; right; now left | reflexivity].
    + assert (Hlt : q < length (handles s)) by lia.
      destruct (Hall q Hlt) as (r & Hin & Hid).
      exists r. split; [apply in_or_app; now left | assumption].
  - lia.
Qed.

Lemma under_browsers_close (h n : nat) (s : state R U) :
  under_browsers B n s ->
  under_browsers B n (set_handles (close_handle h (handles s)) s).
Proof.
  intros (Hroot & Hall & Hn). unfold under_browsers, close_handle.
  cbn [handles set_handles]. rewrite length_map. repeat split; [| |assumption].
  - apply Forall_map. eapply Forall_impl; [|exact Hroot].
    intros r Hr. now destruct ((hid r =? h) || existsb (Nat.eqb h) (hanc r)).
  - intros p Hp. destruct (Hall p Hp) as (r & Hin & Hid).
    eexists. split; [apply in_map, Hin|].
    now destruct ((hid r =? h) || existsb (Nat.eqb h) (hanc r)).
Qed.

Lemma respects_bind_open {A} (n p : nat) (k : nat -> M R (state R U) A) :
  p < n ->
  (forall a, n <= a -> respects (keeping (@under_browsers R U B (S a))) (k a)) ->
  respects (keeping (@under_browsers R U B n)) (bind (open_handle (Some p)) k).
Proof.
  intros Hp Hk s. unfold bind, open_handle, keeping.
  specialize (Hk (length (handles s))).
  destruct (k (length (handles s))
              (set_handles (open_under (Some p) (handles s)) s)) as [[r s2] t2] eqn:Ek.
  intros Hs. assert (Hn : n <= length (handles s)) by apply Hs.
  specialize (Hk Hn (set_handles (open_under (Some p) (handles s)) s)).
  rewrite Ek in Hk. unfold keeping in Hk.
  apply (@under_browsers_weaken n (S (length (handles s)))); [lia|].
  apply Hk. exact (under_browsers_open Hs Hp).
Qed.

Lemma close_keeps (h n : nat) :
  respects (keeping (@under_browsers R U B n)) (close (R := R) (U := U) h).
Proof. intros s. unfold close, modify, keeping. apply under_browsers_close. Qed.

(** steps that leave the handles alone *)
Lemma same_handles_keeps {A} (n : nat) (m : M R (state R U) A) :
  (forall s, handles (snd (fst (m s))) = handles s) ->
  respects (keeping (@under_browsers R U B n)) m.
Proof.
  intros H s. specialize (H s). destruct (m s) as [[r s'] t]. simpl in H.
  unfold keeping, under_browsers. now rewrite H.
Qed.

Ltac same_handles_leaf :=
  let s := fresh "s" in
  solve [ apply same_handles_keeps; intros s;
          cbv [emit modify new_business assign append_business save on_ui ext ret
               gets raise];
          repeat match goal with
                 | |- context [match ?x with _ => _ end] =>
                     lazymatch x with
                     | context [match _ with _ => _ end] => fail
                     | _ => destruct x
                     end
                 end;
          reflexivity ].

Ltac ub_step :=
  match goal with
  | |- Stepwise _ => exact _
  | |- respects _ (bind (open_handle (Some _)) _) =>
      apply respects_bind_open; [lia | intros ? ?]
  | |- respects _ (bind _ _) => apply respects_bind; [exact _ | | intro]
  | |- respects _ (try_except _ _) => apply respects_try_except; [exact _ | | intro]
  | |- respects _ (try_finally _ _) => apply respects_try_finally; [exact _ | | ]
  | |- respects _ (ret _) => apply respects_ret
  | |- respects _ (ext _) => apply respects_ext
  | |- respects _ (close _) => apply close_keeps
  | |- respects _ (visit _ _ _ _) =>
      apply same_handles_keeps; intros ?; now rewrite visit_run
  | |- respects _ (sweep_contact_paths _ _ _ _) =>
      apply same_handles_keeps; intros ?; now rewrite sweep_run
  | |- respects _ (perform_site_specific_google_search _ _ _) =>
      apply same_handles_keeps; intros ?; now rewrite perform_run
  | |- respects _ (if ?b then _ else _) => destruct b
  | |- respects _ (match ?x with _ => _ end) => destruct x
  | |- _ => same_handles_leaf
  end.

Lemma engine_under_browsers (n lc pc : nat) (url : str) :
  lc < n -> pc < n ->
  respects (keeping (@under_browsers R U B n))
    (search_email_on_website (U := U) Wd lc url pc).
Proof.
  intros Hlc Hpc. unfold search_email_on_website. repeat ub_step.
Qed.

Lemma discover_email_under_browsers (n lb pc : nat) (lv : listing_view) (b : nat)
    (site : str) :
  lb < n -> pc < n ->
  respects (keeping (@under_browsers R U B n))
    (discover_email (U := U) Wd lb pc lv b site).
Proof.
  intros Hlb Hpc. unfold discover_email.
  repeat first [ apply engine_under_browsers; lia | ub_step ].
Qed.

Lemma for_each_listing_under_browsers (n lb pc : nat)
    (listings : list listing_view) :
  lb < n -> pc < n ->
  respects (keeping (@under_browsers R U B n))
    (for_each_listing (U := U) Wd lb pc listings).
Proof.
  intros Hlb Hpc.
  induction listings as [|lv rest IH]; cbn [for_each_listing];
    unfold process_listing, fill_business;
    repeat first [ exact IH | apply discover_email_under_browsers; lia | ub_step ].
Qed.

Lemma session_under_browsers (n pb lb : nat) (delay total : Z)
    (suburb state_ : str) :
  pb < n -> lb < n ->
  respects (keeping (@under_browsers R U B n))
    (session (U := U) Wd pb lb delay total suburb state_).
Proof.
  intros Hpb Hlb. unfold session.
  repeat first [ apply for_each_listing_under_browsers; lia | ub_step ].
Qed.
End UnderBrowsers.

Lemma close_both_all (pb lb : nat) (hs : list hrec) :
  Forall (rooted [pb; lb]) hs ->
  open_ids (close_handle lb (close_handle pb hs)) = [].
Proof.
  intros H. unfold open_ids, close_handle. rewrite map_map.
  induction H as [|r hs Hr _ IH]; [reflexivity|]. cbn [map filter].
  assert (Hc : hopen
                 (if (hid (if (hid r =? pb) || existsb (Nat.eqb pb) (hanc r)
                           then {| hid := hid r; hanc := hanc r; hopen := false |}
                           else r) =? lb)
                     || existsb (Nat.eqb lb)
                          (hanc (if (hid r =? pb) || existsb (Nat.eqb pb) (hanc r)
                                 then {| hid := hid r; hanc := hanc r; hopen := false |}
                                 else r))
                  then {| hid := hid (if (hid r =? pb) || existsb (Nat.eqb pb) (hanc r)
                                      then {| hid := hid r; hanc := hanc r; hopen := false |}
                                      else r);
                          hanc := hanc (if (hid r =? pb) || existsb (Nat.eqb pb) (hanc r)
                                        then {| hid := hid r; hanc := hanc r; hopen := false |}
                                        else r);
                          hopen := false |}
                  else (if (hid r =? pb) || existsb (Nat.eqb pb) (hanc r)
                        then {| hid := hid r; hanc := hanc r; hopen := false |}
                        else r)) = false).
  { destruct ((hid r =? pb) || existsb (Nat.eqb pb) (hanc r)) eqn:Epb; cbn [hid hanc].
    - now destruct ((hid r =? lb) || existsb (Nat.eqb lb) (hanc r)).
    - destruct ((hid r =? lb) || existsb (Nat.eqb lb) (hanc r)) eqn:Elb; [reflexivity|].
      exfalso. apply orb_false_iff in Epb as [Epb1 Epb2].
      apply orb_false_iff in Elb as [Elb1 Elb2].
      apply Nat.eqb_neq in Epb1, Elb1.
      assert (Hno : forall h l, existsb (Nat.eqb h) l = false -> ~ In h l).
      { intros h l E Hin. assert (existsb (Nat.eqb h) l = true); [|congruence].
        apply existsb_exists. exists h. split; [assumption | apply Nat.eqb_refl]. }
      destruct Hr as [[Hr|[Hr|[]]]|(a & Ha & [<-|[<-|[]]])]; try congruence.
      + now apply (Hno _ _ Epb2).
      + now apply (Hno _ _ Elb2). }
  rewrite Hc. exact IH.
Qed.

Lemma close_all_none (hs : list hrec) : open_ids (close_all hs) = [].
Proof.
  unfold open_ids, close_all. induction hs as [|r hs IH]; [reflexivity | exact IH].
Qed.

Section Teardown.
Variable R : runtime.
Variable U : map_ui.
Variable Wd : world.

(** X24: when both browsers have been launched, the [finally] of the
    session closes them and, with them, every context and page opened in
    between, whatever the outcome of the session *)
Theorem with_browsers_closes (delay total : Z) (suburb state_ : str) (w : W U) :
  launch_result Wd false = Ok tt ->
  open_ids (handles (snd (fst (with_browsers Wd delay total suburb state_
                                 (initial_state R U w))))) = [].
Proof.
  intros Hl. unfold with_browsers, bind at 1, launch at 1, bind at 1, emit.
  unfold bind at 1, ext at 1.
  destruct (launch_result Wd true) as [[]|e]; [|reflexivity].
  unfold open_handle at 1. unfold bind at 1, launch at 1, bind at 1, emit.
  unfold bind at 1, ext at 1. rewrite Hl. unfold open_handle at 1.
  set (s2 := set_handles _ (set_handles _ (initial_state R U w))).
  assert (H2 : @under_browsers R U [0; 1] 2 s2).
  { subst s2. unfold under_browsers. cbn. split; [|split].
    - constructor; [left; simpl; auto|]. constructor; [left; simpl; auto|]. constructor.
    - intros p Hp. destruct p as [|[|p]]; [eauto | eauto | lia].
    - lia. }
  cbn [length handles set_handles initial_state open_under app].
  pose proof (@session_under_browsers R U Wd [0; 1] 2 0 1 delay total suburb state_
                ltac:(lia) ltac:(lia) s2) as Hs.
  unfold try_finally.
  change (set_handles _ (set_handles _ (initial_state R U w))) with s2.
  destruct (session Wd 0 1 delay total suburb state_ s2) as [[r s3] t3].
  unfold keeping in Hs. destruct (Hs H2) as (Hroot & _ & _).
  unfold bind, close, modify. cbn -[close_handle open_ids].
  now apply close_both_all.
Qed.

Lemma scrape_closes_all (proxy_server user_agent : str) (delay total : Z)
    (suburb state_ : str) (w : W U) :
  open_ids (handles (snd (fst (scrape_google_maps Wd proxy_server user_agent delay
                                 total suburb state_ (initial_state R U w))))) = [].
Proof.
  unfold scrape_google_maps, bind, ext.
  destruct (validate_inputs proxy_server user_agent) as [[]|e]; [|reflexivity].
  unfold try_finally, modify.
  destruct (with_browsers Wd delay total suburb state_ (initial_state R U w))
    as [[r s1] t1].
  cbn -[open_ids close_all]. apply close_all_none.
Qed.
End Teardown.

(** ** The context of a listing *)

Lemma existsb_fresh (n h : nat) (l : list nat) :
  Forall (fun a => a < n) l -> n <= h -> existsb (Nat.eqb h) l = false.
Proof.
  intros H Hh. induction H as [|a l Ha _ IH]; simpl; [reflexivity|].
  rewrite IH, orb_false_r. apply Nat.eqb_neq. lia.
Qed.

Lemma ancestors_below (n p : nat) (hs : list hrec) :
  ids_below n hs -> Forall (fun a => a < n) (ancestors hs p).
Proof.
  intros H. unfold ancestors. destruct (find (fun r => hid r =? p) hs) as [r|] eqn:E;
    [|constructor].
  apply find_some in E as [Hin _]. unfold ids_below in H. rewrite Forall_forall in H.
  now apply H.
Qed.

Lemma ancestors_fresh (n : nat) (hs l : list hrec) (anc : list nat) :
  ids_below n hs ->
  ancestors (hs ++ {| hid := n; hanc := anc; hopen := true |} :: l) n = anc.
Proof.
  intros H. unfold ancestors.
  assert (E : forall l', find (fun r => hid r =? n) (hs ++ l') = find (fun r => hid r =? n) l').
  { intros l'. induction H as [|r hs [Hid _] _ IH]; [reflexivity|]. simpl.
    assert (Hne : (hid r =? n) = false) by (apply Nat.eqb_neq; lia).
    now rewrite Hne. }
  rewrite E. simpl. now rewrite Nat.eqb_refl.
Qed.

(** the context and the page of a listing, both left open *)
Lemma left_open_two (n : nat) (hs : list hrec) (anc1 anc2 : list nat) :
  open_ids ((hs ++ [{| hid := n; hanc := anc1; hopen := true |}])
              ++ [{| hid := S n; hanc := anc2; hopen := true |}])
  = open_ids hs ++ [n; S n].
Proof. rewrite !open_ids_app, <- app_assoc. reflexivity. Qed.

(** the same after the engine has closed its own page *)
Lemma left_open_three (n : nat) (hs : list hrec) (anc1 anc2 anc3 : list nat) :
  ids_below n hs ->
  Forall (fun a => a < S (S n)) anc1 -> Forall (fun a => a < S (S n)) anc2 ->
  open_ids (close_handle (S (S n))
              (((hs ++ [{| hid := n; hanc := anc1; hopen := true |}])
                  ++ [{| hid := S n; hanc := anc2; hopen := true |}])
                 ++ [{| hid := S (S n); hanc := anc3; hopen := true |}]))
  = open_ids hs ++ [n; S n].
Proof.
  intros Hb H1 H2. rewrite !close_handle_app, !open_ids_app.
  assert (L2 : n <= S (S n)) by lia. rewrite (close_handle_fresh Hb L2).
  unfold close_handle, open_ids. cbn [map filter hid hanc hopen].
  rewrite (existsb_fresh H1 (le_n _)), (existsb_fresh H2 (le_n _)), Nat.eqb_refl.
  assert (E1 : (n =? S (S n)) = false) by (apply Nat.eqb_neq; lia).
  assert (E2 : (S n =? S (S n)) = false) by (apply Nat.eqb_neq; lia).
  rewrite E1, E2. cbn. now rewrite app_nil_r, <- app_assoc.
Qed.

Ltac close_cases :=
  match goal with
  | |- context [if ?b then _ else _] =>
      lazymatch b with
      | context [if _ then _ else _] => fail
      | _ => destruct b
      end
  end.

(** closing the context closes its page and the page of the engine *)
Lemma closed_three (n : nat) (hs : list hrec) (anc1 anc2 anc3 : list nat) :
  ids_below n hs ->
  open_ids (close_handle n (close_handle (S (S n))
              (((hs ++ [{| hid := n; hanc := anc1; hopen := true |}])
                  ++ [{| hid := S n; hanc := n :: anc2; hopen := true |}])
                 ++ [{| hid := S (S n); hanc := anc3; hopen := true |}])))
  = open_ids hs.
Proof.
  intros Hb. rewrite !close_handle_app, !open_ids_app.
  assert (L2 : n <= S (S n)) by lia. rewrite (close_handle_fresh Hb L2).
  rewrite (close_handle_fresh Hb (le_n _)).
  unfold close_handle, open_ids. cbn [map hid hanc].
  repeat (repeat (progress (rewrite ?Nat.eqb_refl, ?orb_true_r;
                            cbn [orb existsb hid hanc hopen filter map app]));
          try close_cases).
  all: now rewrite ?app_nil_r.
Qed.

Lemma closed_four (n : nat) (hs : list hrec) (anc1 anc2 anc3 anc4 : list nat) :
  ids_below n hs ->
  open_ids (close_handle n (close_handle (S (S n)) (close_handle (S (S (S n)))
              ((((hs ++ [{| hid := n; hanc := anc1; hopen := true |}])
                   ++ [{| hid := S n; hanc := n :: anc2; hopen := true |}])
                  ++ [{| hid := S (S n); hanc := anc3; hopen := true |}])
                 ++ [{| hid := S (S (S n)); hanc := anc4; hopen := true |}]))))
  = open_ids hs.
Proof.
  intros Hb. rewrite !close_handle_app, !open_ids_app.
  assert (L3 : n <= S (S (S n))) by lia. assert (L2 : n <= S (S n)) by lia.
  rewrite (close_handle_fresh Hb L3), (close_handle_fresh Hb L2).
  rewrite (close_handle_fresh Hb (le_n _)).
  unfold close_handle, open_ids. cbn [map hid hanc].
  repeat (repeat (progress (rewrite ?Nat.eqb_refl, ?orb_true_r;
                            cbn [orb existsb hid hanc hopen filter map app]));
          try close_cases).
  all: now rewrite ?app_nil_r.
Qed.

Section ListingContext.
Variable R : runtime.
Variable U : map_ui.
Variable Wd : world.

(** X25: the context and the page opened for a listing are closed when
    the search for its email returns, and both are still open when the
    check of the local address or the engine raises: [local_context.close()]
    stands after the call, not in a [finally] *)
Theorem listing_context_closed_unless_raise (lb pc : nat) (lv : listing_view)
    (b : nat) (site : str) (s : state R U) :
  ids_below (length (handles s)) (handles s) ->
  lb < length (handles s) ->
  let n := length (handles s) in
  let run := discover_email Wd lb pc lv b site s in
  open_ids (handles (snd (fst run)))
  = match fst (fst run) with
    | Ok _ => open_ids (handles s)
    | Raise _ => open_ids (handles s) ++ [n; S n]
    end.
Proof.
  intros Hb Hlb n run. subst run n. unfold discover_email.
  destruct (truthy site); [|reflexivity]. cbv zeta.
  remember (if negb (startswith_any scheme_prefixes site)
            then s2l "https://" ++ site else site) as site' eqn:Es. clear Es.
  destruct (is_valid_url site'); [|reflexivity].
  unfold bind, assign, modify, open_handle, ext, close.
  cbn [handles set_handles set_heap length].
  destruct (lv_ipcheck lv) as [[]|e].
  2:{ cbn [fst snd handles set_handles set_heap]. unfold open_under.
      rewrite length_app. cbn [length]. rewrite Nat.add_1_r. apply left_open_two. }
  rewrite engine_run.
  cbn [handles set_handles set_heap length].
  rewrite !length_open_under.
  set (hs := handles s) in *. set (n := length hs) in *.
  set (A := lb :: ancestors hs lb).
  assert (Ha : Forall (fun a => a < S (S n)) A).
  { constructor; [lia|]. eapply Forall_impl; [|exact (ancestors_below lb Hb)].
    intros a Ha. simpl in Ha. lia. }
  assert (E1 : open_under (Some lb) hs
               = hs ++ [{| hid := n; hanc := A; hopen := true |}]) by reflexivity.
  assert (E2 : open_under (Some n) (open_under (Some lb) hs)
               = (hs ++ [{| hid := n; hanc := A; hopen := true |}])
                   ++ [{| hid := S n; hanc := n :: A; hopen := true |}]).
  { rewrite E1. unfold open_under. rewrite (ancestors_fresh [] A Hb).
    now rewrite length_app, Nat.add_1_r. }
  assert (E3 : open_under (Some n) (open_under (Some n) (open_under (Some lb) hs))
               = ((hs ++ [{| hid := n; hanc := A; hopen := true |}])
                    ++ [{| hid := S n; hanc := n :: A; hopen := true |}])
                   ++ [{| hid := S (S n); hanc := n :: A; hopen := true |}]).
  { assert (An : ancestors ((hs ++ [{| hid := n; hanc := A; hopen := true |}])
                               ++ [{| hid := S n; hanc := n :: A; hopen := true |}]) n
                 = A).
    { rewrite <- app_assoc. apply (ancestors_fresh _ A Hb). }
    rewrite E2. unfold open_under. rewrite An, !length_app. cbn [length].
    now rewrite !Nat.add_1_r. }
  rewrite E3.
  assert (Hraise : open_ids (close_handle (S (S n))
                     (((hs ++ [{| hid := n; hanc := A; hopen := true |}])
                    ++ [{| hid := S n; hanc := n :: A; hopen := true |}])
                   ++ [{| hid := S (S n); hanc := n :: A; hopen := true |}]))
                   = open_ids hs ++ [n; S n]).
  { apply left_open_three; [exact Hb | exact Ha |]. constructor; [lia | exact Ha]. }
  assert (Hok : open_ids (close_handle n (close_handle (S (S n))
                     (((hs ++ [{| hid := n; hanc := A; hopen := true |}])
                    ++ [{| hid := S n; hanc := n :: A; hopen := true |}])
                   ++ [{| hid := S (S n); hanc := n :: A; hopen := true |}])))
                   = open_ids hs).
  { now apply closed_three. }
  destruct (site_page Wd site') as [e|text]; [exact Hraise|].
  destruct (found (extract_email_from_rendered_text R text)); [exact Hok|].
  destruct (sweep_outcome R Wd site' common_contact_paths) as [visited [e|]];
    [exact Hok|].
  cbn [fst snd handles set_handles set_heap].
  unfold open_under. rewrite !length_app. cbn [length]. rewrite !Nat.add_1_r.
  now apply closed_four.
Qed.
End ListingContext.

(** C6 on the failing inputs.  The listing loop runs with the two
    browsers, the search context and its page open (handles 0 to 3).  For
    a listing whose site does not load the engine raises; for one whose
    check of the local address times out the call before the engine does.
    Either way the loop goes on normally, and the context and the page
    opened for the listing (4 and 5) stay open; only the engine's own page
    was closed.  Three such listings leave six handles open behind them.
    A listing whose site answers leaves none. *)
Theorem listing_context_left_open :
  let down := sample_listing "down.example" in
  open_ids (handles (loop_state [])) = [0; 1; 2; 3]
  /\ (let run := process_listing sample_world 1 2 down (loop_state []) in
      fst (fst run) = Ok tt
      /\ open_ids (handles (snd (fst run))) = [0; 1; 2; 3; 4; 5])
  /\ (let run := process_listing sample_world 1 2 no_ip_listing (loop_state []) in
      fst (fst run) = Ok tt
      /\ open_ids (handles (snd (fst run))) = [0; 1; 2; 3; 4; 5])
  /\ (let run := for_each_listing sample_world 1 2 [down; down; down] (loop_state []) in
      fst (fst run) = Ok tt
      /\ open_ids (handles (snd (fst run))) = [0; 1; 2; 3; 4; 5; 7; 8; 10; 11])
  /\ (let run := process_listing sample_world 1 2 (sample_listing "mail.example")
                   (loop_state []) in
      fst (fst run) = Ok tt
      /\ open_ids (handles (snd (fst run))) = [0; 1; 2; 3]).
Proof.
  repeat split; reflexivity.
Qed.

Lemma engine_closes_its_pages_witness :
  let s := set_handles (open_under (Some 0) (open_under None [])) (sample_state []) in
  open_ids (handles (snd (fst (search_email_on_website sample_world 1
                                 (s2l "https://down.example") 1 s))))
  = open_ids (handles s).
Proof.
  intros s.
  apply (@engine_closes_its_pages sample_runtime sample_ui sample_world).
  repeat constructor.
Defined.

Lemma with_browsers_closes_witness :
  open_ids (handles (snd (fst (with_browsers sample_world 2 40 (s2l "Fitzroy")
                                 (s2l "VIC")
                                 (initial_state sample_runtime sample_ui
                                    [[sample_listing "down.example"]]))))) = [].
Proof.
  apply (@with_browsers_closes sample_runtime sample_ui sample_world).
  reflexivity.
Defined.

Lemma listing_context_closed_unless_raise_witness :
  open_ids (handles (snd (fst (discover_email sample_world 1 2
                                 (sample_listing "down.example") 0
                                 (s2l "down.example") (loop_state [])))))
  = [0; 1; 2; 3; 4; 5].
Proof.
  apply (@listing_context_closed_unless_raise sample_runtime sample_ui sample_world
           1 2 (sample_listing "down.example") 0 (s2l "down.example") (loop_state [])).
  - repeat constructor.
  - simpl. lia.
Defined.

Lemma collection_bounded_witness :
  let run :=
    scrape_google_maps sample_world (s2l "http://proxy.example") (s2l "Mozilla/5.0")
      2 1 (s2l "Kew") (s2l "VIC")
      (initial_state sample_runtime sample_ui [[no_phone_listing; dead_listing]]) in
  (Z.of_nat (length (rows_of (snd (fst run)))) <= 1)%Z.
Proof.
  intros run.
  apply (@collection_bounded sample_runtime sample_ui sample_world
           (s2l "http://proxy.example") (s2l "Mozilla/5.0") 2 1
           (s2l "Kew") (s2l "VIC") [[no_phone_listing; dead_listing]]
           true (s2l "Kew_VIC") (rows_of (snd (fst run)))).
  - lia.
  - apply (@nth_error_In _ (snd run) 6). reflexivity.
Defined.

(** C3 on the failing inputs.  In [escrape.py] the record is made after
    the click, so a listing whose click raises has no record of its own:
    as the first listing it makes the [finally] raise [UnboundLocalError],
    which ends the loop with nothing appended; after another listing, that
    listing's record is appended a second time.  With such a listing alone
    on the page the whole run raises and nothing is saved.  In
    [main33_efnt4.py] the [append] stands inside the [try], so a listing
    whose extraction raises is left out. *)
Theorem append_misses_failed_click :
  for_each_listing sample_world 1 2 [dead_listing] (sample_state [])
  = (Raise UnboundLocalError, sample_state [],
     [EPrint (PErrorExtracting PlaywrightTimeout)])
  /\ (let run := for_each_listing sample_world 1 2 [sample_listing EmptyString; dead_listing]
                   (sample_state []) in
      fst (fst run) = Ok tt
      /\ business_list (snd (fst run)) = [0; 0]
      /\ length (heap (snd (fst run))) = 1)
  /\ (let run := scrape_google_maps sample_world (s2l "http://proxy.example:8080")
                   (s2l "Mozilla/5.0") 2 40 (s2l "Fitzroy") (s2l "VIC")
                   (initial_state sample_runtime sample_ui [[dead_listing]]) in
      fst (fst run) = Raise UnboundLocalError
      /\ existsb (@is_save sample_runtime) (snd run) = false)
  /\ (let run := for_each_listing_33 (fun _ => ret None) [no_phone_listing]
                   (sample_state []) in
      fst (fst run) = Ok tt /\ business_list (snd (fst run)) = []).
Proof.
  split; [reflexivity|]. split; [repeat split; reflexivity|].
  split; split; reflexivity.
Qed.

(** where the click succeeds the claim holds: exactly one record, made
    for this listing, is appended, whatever raises afterwards *)
Lemma append_after_successful_click (R : runtime) (U : map_ui) (Wd : world)
    (lb pc : nat) (lv : listing_view) (s : state R U) :
  lv_click lv = Ok tt ->
  let run := process_listing Wd lb pc lv s in
  fst (fst run) = Ok tt
  /\ business_list (snd (fst run)) = business_list s ++ [length (heap s)]
  /\ exists obj, heap (snd (fst run)) = heap s ++ [obj] /\ describes lv obj.
Proof.
  intros Hc run. subst run.
  pose proof (process_listing_appends Wd lb pc lv s) as H.
  destruct (process_listing Wd lb pc lv s) as [[r s'] t]. rewrite Hc in H.
  destruct H as (Hr & Hobj & _ & Hl). simpl. auto.
Qed.

(** * Further properties *)

Lemma rep_first_sound {A} (n : nat) (p : ascii -> bool) (s : str)
    (k : str -> option A) (x : A) :
  rep_first n p s k = Some x ->
  exists s1 s2, s = s1 ++ s2 /\ n <= length s1
                /\ Forall (fun c => p c = true) s1 /\ k s2 = Some x.
Proof.
  revert n; induction s as [|c s IH]; intros n; simpl.
  - destruct (Nat.eqb_spec n 0) as [->|]; [|discriminate].
    intros Hk. exists [], []. repeat split; auto.
  - destruct (p c) eqn:Hc.
    + destruct (rep_first (pred n) p s k) as [y|] eqn:E.
      * intros [= ->]. apply IH in E as (s1 & s2 & -> & Hn & Hall & Hk).
        exists (c :: s1), s2. simpl. repeat split; auto; lia.
      * destruct (Nat.eqb_spec n 0) as [->|]; [|discriminate].
        intros Hk. exists [], (c :: s). repeat split; auto.
    + destruct (Nat.eqb_spec n 0) as [->|]; [|discriminate].
      intros Hk. exists [], (c :: s). repeat split; auto.
Qed.

Lemma rep_first_complete {A} (n : nat) (p : ascii -> bool) (s1 s2 : str)
    (k : str -> option A) :
  n <= length s1 -> Forall (fun c => p c = true) s1 -> k s2 <> None ->
  rep_first n p (s1 ++ s2) k <> None.
Proof.
  revert n; induction s1 as [|c s1 IH]; intros n Hn Hall Hk; simpl in *.
  - assert (n = 0) as -> by lia.
    destruct s2 as [|d s2]; simpl; [assumption|].
    destruct (if p d then rep_first 0 p s2 k else None); [discriminate | assumption].
  - inversion Hall as [|? ? Hc Hall']; subst. rewrite Hc.
    specialize (IH (pred n) ltac:(lia) Hall' Hk).
    destruct (rep_first (pred n) p (s1 ++ s2) k); [discriminate | congruence].
Qed.

Lemma rfirst_sound {A} (r : re) (s : str) (k : str -> option A) (x : A) :
  rfirst r s k = Some x ->
  exists s1 s2, s = s1 ++ s2 /\ matches r s1 /\ k s2 = Some x.
Proof.
  revert s k; induction r as [|l|n p|a IHa b IHb|a IHa b IHb|a IHa]; intros s k; simpl.
  - intros Hk. exists [], s. repeat split; auto. constructor.
  - destruct (strip_prefix l s) as [rest|] eqn:E; [|discriminate].
    apply strip_prefix_spec in E as ->. intros Hk.
    exists l, rest. repeat split; auto. constructor.
  - intros H. apply rep_first_sound in H as (s1 & s2 & -> & Hn & Hall & Hk).
    exists s1, s2. repeat split; auto. now constructor.
  - destruct (rfirst a s k) as [y|] eqn:E.
    + intros [= ->]. apply IHa in E as (s1 & s2 & -> & Hm & Hk).
      exists s1, s2. repeat split; auto. now apply m_alt_l.
    + intros H. apply IHb in H as (s1 & s2 & -> & Hm & Hk).
      exists s1, s2. repeat split; auto. now apply m_alt_r.
  - intros H. apply IHa in H as (s1 & s2 & -> & Hm & H).
    apply IHb in H as (t1 & t2 & -> & Hm' & Hk).
    exists (s1 ++ t1), t2. rewrite app_assoc. repeat split; auto. now constructor.
  - destruct (rfirst a s k) as [y|] eqn:E.
    + intros [= ->]. apply IHa in E as (s1 & s2 & -> & Hm & Hk).
      exists s1, s2. repeat split; auto. now apply m_opt_some.
    + intros Hk. exists [], s. repeat split; auto. apply m_opt_none.
Qed.

Lemma rfirst_complete {A} (r : re) (s1 : str) :
  matches r s1 ->
  forall (s2 : str) (k : str -> option A),
    k s2 <> None -> rfirst r (s1 ++ s2) k <> None.
Proof.
  induction 1 as [|l|n p s Hn Hall|a b s Hm IH|a b s Hm IH
                  |a b s t Hs IHs Ht IHt|a s Hm IH|a]; intros s2 k Hk; simpl.
  - assumption.
  - assert (strip_prefix l (l ++ s2) = Some s2) as -> by now apply strip_prefix_spec.
    assumption.
  - now apply rep_first_complete.
  - specialize (IH s2 k Hk). destruct (rfirst a (s ++ s2) k); [discriminate | congruence].
  - specialize (IH s2 k Hk). destruct (rfirst a (s ++ s2) k); [discriminate | assumption].
  - rewrite <- app_assoc. apply IHs. now apply IHt.
  - specialize (IH s2 k Hk). destruct (rfirst a (s ++ s2) k); [discriminate | congruence].
  - destruct (rfirst a s2 k); [discriminate | assumption].
Qed.

Lemma match_end_sound (r : re) (s rest : str) :
  match_end r s = Some rest -> exists m, s = m ++ rest /\ matches r m.
Proof.
  intros H. apply rfirst_sound in H as (s1 & s2 & -> & Hm & [= ->]). now exists s1.
Qed.

Lemma match_end_none (r : re) (m rest : str) :
  match_end r (m ++ rest) = None -> ~ matches r m.
Proof.
  intros H Hm. now apply (@rfirst_complete _ r m Hm rest Some).
Qed.

Lemma firstn_app_exact {A} (m rest : list A) :
  firstn (length (m ++ rest) - length rest) (m ++ rest) = m.
Proof.
  rewrite length_app, Nat.add_sub.
  rewrite firstn_app, Nat.sub_diag, firstn_all. simpl. apply app_nil_r.
Qed.

Lemma findall_go_cons (r : re) (c : ascii) (text : str) :
  findall_go r 0 (c :: text)
  = match match_end r (c :: text) with
    | Some rest =>
        let m := firstn (length (c :: text) - length rest) (c :: text) in
        m :: findall_go r (pred (length m)) text
    | None => findall_go r 0 text
    end.
Proof. reflexivity. Qed.

(** the first match: where it lies in the text, and that no match
    starts before it *)
Lemma findall_first (r : re) (text e : str) (more : list str) :
  findall r text = e :: more ->
  exists pre post,
    text = pre ++ e ++ post /\ matches r e
    /\ forall p1 p2, pre = p1 ++ p2 -> p2 <> [] ->
         match_end r (p2 ++ e ++ post) = None.
Proof.
  unfold findall. induction text as [|c text IH]; [discriminate|].
  rewrite findall_go_cons.
  destruct (match_end r (c :: text)) as [rest|] eqn:E.
  - cbv zeta. intros H.
    assert (He : firstn (length (c :: text) - length rest) (c :: text) = e) by congruence.
    clear H IH. apply match_end_sound in E as (m & E & Hm).
    rewrite E, firstn_app_exact in He. subst m. rewrite E. exists [], rest. repeat split; auto.
    intros p1 p2 H. symmetry in H. apply app_eq_nil in H as [_ ->]. congruence.
  - intros H. apply IH in H as (pre & post & -> & Hm & Hleft).
    exists (c :: pre), post. repeat split; auto.
    intros [|d p1] p2 H Hp2; simpl in H.
    + subst p2. exact E.
    + injection H as -> ->. exact (Hleft p1 p2 eq_refl Hp2).
Qed.

Lemma findall_none (r : re) (text : str) :
  findall r text = [] <->
  forall pre suf, text = pre ++ suf -> suf <> [] -> match_end r suf = None.
Proof.
  unfold findall. induction text as [|c text IH].
  - split; [|reflexivity]. intros _ pre suf H. symmetry in H.
    apply app_eq_nil in H as [_ ->]. congruence.
  - rewrite findall_go_cons.
    destruct (match_end r (c :: text)) as [rest|] eqn:E.
    + split; [discriminate|]. intros H.
      specialize (H [] (c :: text) eq_refl ltac:(discriminate)). congruence.
    + rewrite IH. split.
      * intros H [|d pre] suf Hs Hne; simpl in Hs.
        -- now subst suf.
        -- injection Hs as -> ->. exact (H pre suf eq_refl Hne).
      * intros H pre suf -> Hne. exact (H (c :: pre) suf eq_refl Hne).
Qed.

Lemma matches_email_pattern (e : str) :
  matches email_pattern e <-> email_shape e.
Proof.
  unfold email_pattern, email_shape, is_tld. split.
  - intros H.
    inversion H as [ | | | | |a b l v Hl Hv| | ]; subst; clear H.
    inversion Hv as [ | | | | |a b at_ v' Hat Hv'| | ]; subst; clear Hv.
    inversion Hv' as [ | | | | |a b d v'' Hd Hv''| | ]; subst; clear Hv'.
    inversion Hv'' as [ | | | | |a b dot t Hdot Ht| | ]; subst; clear Hv''.
    inversion Hl; subst. inversion Hat; subst. inversion Hd; subst.
    inversion Hdot; subst. inversion Ht; subst.
    exists l, d, t. repeat split; auto.
    + destruct l; [simpl in *; lia | discriminate].
    + destruct d; [simpl in *; lia | discriminate].
  - intros (l & d & t & -> & Hl & Hal & Hd & Had & Hn & Ht).
    apply m_seq; [|apply m_seq; [|apply m_seq; [|apply m_seq]]].
    + apply m_rep; [|assumption]. destruct l; [congruence | simpl; lia].
    + apply m_lit.
    + apply m_rep; [|assumption]. destruct d; [congruence | simpl; lia].
    + apply m_lit.
    + now apply m_rep.
Qed.

Lemma email_shape_nonempty (e : str) : email_shape e -> e <> [].
Proof.
  intros (l & d & t & -> & Hl & _). destruct l; [congruence | discriminate].
Qed.

Section Extractor.
Variable R : runtime.
Hypothesis findall_is_python : forall text, findall_email R text = findall email_pattern text.

(** X1: the address the extractor gives is a piece of the text of the
    shape [local@domain.tld], it counts as found, and no piece of that
    shape starts further left *)
Theorem extracted_email_is_leftmost (text e : str) :
  extract_email_from_rendered_text R text = Some e ->
  email_shape e /\ found (Some e) = true
  /\ exists pre post,
       text = pre ++ e ++ post
       /\ forall p1 p2 m rest,
            pre = p1 ++ p2 -> p2 <> [] -> p2 ++ e ++ post = m ++ rest ->
            ~ email_shape m.
Proof.
  unfold extract_email_from_rendered_text. rewrite findall_is_python.
  destruct (findall email_pattern text) as [|e' more] eqn:E; [discriminate|].
  intros [= ->]. apply findall_first in E as (pre & post & -> & Hm & Hleft).
  apply matches_email_pattern in Hm. split; [assumption|]. split.
  - simpl. pose proof (email_shape_nonempty Hm). now destruct e.
  - exists pre, post. split; [reflexivity|].
    intros p1 p2 m rest Hp Hne Hs Hshape. apply matches_email_pattern in Hshape.
    specialize (Hleft p1 p2 Hp Hne). rewrite Hs in Hleft.
    now apply match_end_none in Hleft.
Qed.

(** X2: the extractor gives [None] exactly when no piece of the text has
    the shape [local@domain.tld] *)
Theorem no_email_iff_no_shape (text : str) :
  extract_email_from_rendered_text R text = None <->
  forall pre m post, text = pre ++ m ++ post -> ~ email_shape m.
Proof.
  unfold extract_email_from_rendered_text. rewrite findall_is_python. split.
  - destruct (findall email_pattern text) as [|e more] eqn:E; [|discriminate].
    intros _ pre m post -> Hshape.
    pose proof (proj1 (findall_none _ _) E pre (m ++ post) eq_refl) as H.
    apply match_end_none in H.
    + now apply H, matches_email_pattern.
    + apply email_shape_nonempty in Hshape. now destruct m.
  - intros H. destruct (findall email_pattern text) as [|e more] eqn:E; [reflexivity|].
    apply findall_first in E as (pre & post & -> & Hm & _).
    exfalso. apply (H pre e post eq_refl). now apply matches_email_pattern.
Qed.
End Extractor.

(** ** More on the engine *)

Lemma yields_nonempty (R : runtime) (pr : page_result) (e : str) :
  yields R pr = Some e -> e <> [].
Proof.
  destruct pr as [x|text]; simpl; [discriminate|].
  destruct (extract_email_from_rendered_text R text) as [a|]; simpl; [|discriminate].
  destruct a; simpl; [discriminate|]. now intros [= <-].
Qed.

Lemma sweep_outcome_some (R : runtime) (Wd : world) (url e : str) (paths : list str) :
  snd (sweep_outcome R Wd url paths) = Some e ->
  exists q, In q paths /\ yields R (site_page Wd (contact_url url q)) = Some e.
Proof.
  induction paths as [|path rest IH]; simpl; [discriminate|].
  destruct (yields R (site_page Wd (contact_url url path))) as [a|] eqn:Ey.
  - simpl. intros [= ->]. exists path. auto.
  - destruct (sweep_outcome R Wd url rest) as [visited r]. simpl in *.
    intros H. destruct (IH H) as (q & Hq & Hy). exists q. auto.
Qed.

Lemma sweep_outcome_length (R : runtime) (Wd : world) (url : str) (paths : list str) :
  length (fst (sweep_outcome R Wd url paths)) <= length paths.
Proof.
  induction paths as [|path rest IH]; simpl; [lia|].
  destruct (yields R (site_page Wd (contact_url url path))); simpl; [lia|].
  destruct (sweep_outcome R Wd url rest) as [visited r]. simpl in *. lia.
Qed.

(** X3: an address the engine returns is never empty, and it is what the
    extractor found on the site's home page, on one of its contact pages,
    or on the search engine's page for the site *)
Theorem engine_result_provenance (R : runtime) (U : map_ui) (Wd : world)
    (lc pc : nat) (url e : str) (s : state R U) :
  fst (fst (search_email_on_website Wd lc url pc s)) = Ok (Some e) ->
  e <> []
  /\ exists pr, In pr (engine_pages Wd url) /\ yields R pr = Some e.
Proof.
  rewrite engine_run. intros H.
  assert (Hpr : exists pr, In pr (engine_pages Wd url) /\ yields R pr = Some e).
  { unfold engine_pages.
    destruct (site_page Wd url) as [x|text] eqn:Es; [discriminate|].
    destruct (found (extract_email_from_rendered_text R text)) eqn:Ef.
    - exists (Rendered text). split; [now left|]. simpl. rewrite Ef.
      simpl in H. congruence.
    - destruct (sweep_outcome R Wd url common_contact_paths) as [visited [a|]] eqn:Esw.
      + simpl in H. injection H as ->.
        destruct (@sweep_outcome_some R Wd url e common_contact_paths) as (q & Hq & Hy).
        { now rewrite Esw. }
        exists (site_page Wd (contact_url url q)). split; [|assumption].
        right. apply in_or_app. left. apply in_map_iff. now exists q.
      + simpl in H. injection H as H. unfold fallback_result in H.
        destruct (startswith_any scheme_prefixes url); [|discriminate].
        exists (search_page Wd (google_query url)). split; [|assumption].
        right. apply in_or_app. right. now left. }
  split; [|assumption]. destruct Hpr as (pr & _ & Hy). now apply yields_nonempty in Hy.
Qed.

Lemma goto_budget_app (R : runtime) (t1 t2 : list (event R)) :
  goto_budget (t1 ++ t2) = (goto_budget t1 + goto_budget t2)%Z.
Proof.
  induction t1 as [|ev t1 IH]; simpl; [reflexivity|]. destruct ev; rewrite ?IH; lia.
Qed.

Lemma goto_budget_gotos (R : runtime) (page : nat) (timeout : Z) (urls : list str) :
  goto_budget (gotos R page timeout urls) = (timeout * Z.of_nat (length urls))%Z.
Proof.
  induction urls as [|u urls IH]; [simpl; lia|].
  change (goto_budget (gotos R page timeout (u :: urls)))
    with (timeout + goto_budget (gotos R page timeout urls))%Z.
  rewrite IH. simpl length. lia.
Qed.

Lemma goto_count_gotos (R : runtime) (page : nat) (timeout : Z) (urls : list str) :
  length (filter (@is_goto R) (gotos R page timeout urls)) = length urls.
Proof. induction urls as [|u urls IH]; simpl; [reflexivity | now rewrite IH]. Qed.

(** X4: the engine makes at least one and at most nine navigations for a
    site, and their timeouts add up to 150 seconds at most *)
Theorem engine_navigation_budget (R : runtime) (U : map_ui) (Wd : world)
    (lc pc : nat) (url : str) (s : state R U) :
  let t := snd (search_email_on_website Wd lc url pc s) in
  1 <= length (filter (@is_goto R) t) <= 9
  /\ (30000 <= goto_budget t <= 150000)%Z.
Proof.
  intros t. subst t. rewrite engine_run.
  pose proof (sweep_outcome_length R Wd url common_contact_paths) as Hlen.
  change (length common_contact_paths) with 7 in Hlen.
  assert (Hf : length (filter (@is_goto R) (fallback_trace R (S (length (handles s))) url)) <= 1
               /\ (0 <= goto_budget (fallback_trace R (S (length (handles s))) url) <= 15000)%Z).
  { unfold fallback_trace. destruct (startswith_any scheme_prefixes url); simpl; lia. }
  destruct (site_page Wd url) as [x|text]; [simpl; lia|].
  destruct (found (extract_email_from_rendered_text R text)); [simpl; lia|].
  destruct (sweep_outcome R Wd url common_contact_paths) as [visited [a|]];
    simpl fst in Hlen; cbn [snd filter is_goto length goto_budget].
  - rewrite goto_count_gotos, goto_budget_gotos. lia.
  - rewrite filter_app, length_app, goto_count_gotos, goto_budget_app, goto_budget_gotos.
    lia.
Qed.

Lemma lstrip_char_repeat (c : ascii) (n : nat) (s : str) :
  lstrip_char c (repeat c n ++ s) = lstrip_char c s.
Proof. induction n as [|n IH]; simpl; [reflexivity|]. now rewrite Ascii.eqb_refl. Qed.

Lemma rstrip_char_repeat (c : ascii) (s : str) (n : nat) :
  rstrip_char c (s ++ repeat c n) = rstrip_char c s.
Proof.
  unfold rstrip_char. rewrite rev_app_distr.
  assert (rev (repeat c n) = repeat c n) as ->.
  { induction n as [|n IH]; simpl; [reflexivity|].
    rewrite IH. clear IH. induction n as [|n IH]; simpl; [reflexivity | now rewrite IH]. }
  now rewrite lstrip_char_repeat.
Qed.

Lemma lstrip_char_split (c : ascii) (s : str) :
  exists n, s = repeat c n ++ lstrip_char c s
            /\ forall t, lstrip_char c s <> c :: t.
Proof.
  induction s as [|d s (n & E & H)]; simpl.
  - exists 0. split; [reflexivity | discriminate].
  - destruct (Ascii.eqb_spec d c) as [->|ne].
    + exists (S n). simpl. split; [now rewrite <- E | exact H].
    + exists 0. split; [reflexivity|]. intros t [= -> _]. now apply ne.
Qed.

Lemma rstrip_char_split (c : ascii) (s : str) :
  exists n, s = rstrip_char c s ++ repeat c n
            /\ forall t, rstrip_char c s <> t ++ [c].
Proof.
  unfold rstrip_char. destruct (lstrip_char_split c (rev s)) as (n & E & H).
  exists n. split.
  - rewrite <- (rev_involutive s), E at 1. rewrite rev_app_distr. f_equal.
    clear. induction n as [|n IH]; simpl; [reflexivity|].
    rewrite IH. clear IH. induction n as [|n IH]; simpl; [reflexivity | now rewrite IH].
  - intros t Ht. apply (H (rev t)).
    rewrite <- (rev_involutive (lstrip_char c (rev s))), Ht, rev_app_distr. reflexivity.
Qed.

(** X5: trailing slashes of the site's URL make no difference to the
    contact pages tried, and a contact page's URL is the site's URL
    without its trailing slashes followed by the path *)
Theorem contact_sweep_ignores_trailing_slashes (R : runtime) (U : map_ui)
    (Wd : world) (page : nat) (url : str) (paths : list str) (s : state R U) :
  (forall n, sweep_contact_paths Wd page (url ++ repeat "/"%char n) paths s
             = sweep_contact_paths Wd page url paths s)
  /\ forall p u timeout,
       In (EGoto p u timeout) (snd (sweep_contact_paths Wd page url paths s)) ->
       exists base n q,
         url = base ++ repeat "/"%char n /\ (forall b, base <> b ++ s2l "/")
         /\ In q paths /\ u = base ++ q.
Proof.
  split.
  - intros n. revert s. induction paths as [|path rest IH]; intros s; [reflexivity|].
    cbn [sweep_contact_paths]. rewrite rstrip_char_repeat.
    unfold bind. destruct (try_except _ _ s) as [[[r|e] s1] t1]; [|reflexivity].
    destruct r; [reflexivity|]. now rewrite IH.
  - intros p u timeout. rewrite sweep_run. simpl snd. unfold gotos.
    intros H. apply in_map_iff in H as (x & [= _ -> _] & Hx).
    destruct (rstrip_char_split "/" url) as (n & E & Hb).
    exists (rstrip_char "/" url), n.
    assert (Hv : forall l, In u (fst (sweep_outcome R Wd url l)) ->
                 exists q, In q l /\ u = rstrip_char "/" url ++ q).
    { clear. induction l as [|path rest IH]; simpl; [contradiction|].
      destruct (yields R (site_page Wd (contact_url url path))).
      - simpl. intros [<-|[]]. exists path. auto.
      - destruct (sweep_outcome R Wd url rest) as [visited r]. simpl in *.
        intros [<-|H]; [exists path; auto|].
        destruct (IH H) as (q & Hq & E). exists q. auto. }
    destruct (Hv paths Hx) as (q & Hq & Eu). exists q. auto.
Qed.

(** ** More on the loader *)

Section LoaderWaits.
Variable R : runtime.
Variable U : map_ui.

Lemma waited_app (t1 t2 : list (event R)) :
  waited (t1 ++ t2) = (waited t1 + waited t2)%Z.
Proof.
  induction t1 as [|ev t1 IH]; simpl; [reflexivity|]. destruct ev; rewrite ?IH; lia.
Qed.

Ltac crunch_waits IH :=
  repeat match goal with
         | |- context [match scroll_loop R U ?f ?a ?b ?c ?d ?w with _ => _ end] =>
             let H := fresh "Hrec" in
             pose proof (IH c d w) as H;
             destruct (scroll_loop R U f a b c d w) as [[? ?] ?]
         | |- context [match ?x with _ => _ end] =>
             lazymatch x with
             | context [match _ with _ => _ end] => fail
             | context [scroll_loop] => fail
             | _ => destruct x eqn:?
             end
         end.

Lemma scroll_loop_waits (fuel : nat) (req max : Z) :
  forall (prev sc : Z) (w : W U),
    (0 <= waited (snd (scroll_loop R U fuel req max prev sc w))
     <= 23000 * Z.of_nat (Z.to_nat (max - sc)))%Z.
Proof.
  induction fuel as [|fuel IH]; intros prev sc w; cbn [scroll_loop].
  - unfold ret. cbn [snd waited]. lia.
  - destruct (Z.ltb_spec sc max) as [Hlt|Hge]; [|unfold ret; cbn [snd waited]; lia].
    assert (Hs : Z.of_nat (Z.to_nat (max - sc))
                 = (1 + Z.of_nat (Z.to_nat (max - (sc + 1))))%Z) by lia.
    unfold bind, count_items, emit, ret, wait_for_timeout, scroll_panel.
    crunch_waits IH; cbn [snd fst] in *; rewrite ?waited_app;
      cbn [waited app] in *; lia.
Qed.

(** X6: the loader waits 23 seconds at most for every scroll it is
    allowed, whatever the page does *)
Theorem loader_wait_budget (req max : Z) (w : W U) :
  (waited (snd (scroll_to_load_more R U req max w)) <= 23000 * Z.max 0 max)%Z.
Proof.
  unfold scroll_to_load_more, try_except, bind, find_panel, count_items, emit.
  pose proof (scroll_loop_waits (S (Z.to_nat max)) req max 0 0 w) as Hb.
  rewrite Z.sub_0_r in Hb.
  destruct (ui_panel U w) as [[|]|e]; cbn [negb];
    [|cbn [snd waited app]; lia|cbn [snd waited app]; lia].
  destruct (scroll_loop R U (S (Z.to_nat max)) req max 0 0 w) as [[[n|e] w1] t1];
    cbn [snd fst] in *.
  - destruct (ui_items U w1) as [items|e];
      [destruct (Z.of_nat (length items) <? req)%Z|];
      cbn [snd]; rewrite ?waited_app; cbn [waited app]; lia.
  - rewrite ?waited_app; cbn [waited app]; lia.
Qed.
End LoaderWaits.

Section GrowingFeed.
Variable R : runtime.
Variable U : map_ui.
Variable Inv : W U -> Prop.
Hypothesis feed_grows : forall w items,
  Inv w -> ui_items U w = Ok items ->
  exists w2 items',
    ui_scroll U w = (Ok true, w2) /\ Inv (ui_wait U 3000 w2)
    /\ ui_items U (ui_wait U 3000 w2) = Ok items'
    /\ length items < length items'.

(** the head of an iteration: the count has moved and is below the
    target; the loader scrolls and goes round again *)
Lemma scroll_loop_advances (fuel : nat) (req max prev sc : Z) (w w2 : W U)
    (items : list listing_view) :
  (sc < max)%Z -> ui_items U w = Ok items ->
  (Z.of_nat (length items) < req)%Z -> prev <> Z.of_nat (length items) ->
  ui_scroll U w = (Ok true, w2) ->
  scroll_loop R U (S fuel) req max prev sc w
  = match scroll_loop R U fuel req max (Z.of_nat (length items)) (sc + 1)
            (ui_wait U 3000 w2) with
    | (r, w', t) =>
        (r, w', [EPrint (PScrolling (Z.of_nat (length items))); EScroll; EWait 3000] ++ t)
    end.
Proof.
  intros Hsc Hitems Hreq Hprev Hscroll. cbn [scroll_loop].
  apply Z.ltb_lt in Hsc. rewrite Hsc.
  unfold bind at 1. rewrite (@count_items_run R U w items Hitems).
  assert (Hge : (Z.of_nat (length items) >=? req)%Z = false).
  { rewrite Z.geb_leb. apply Z.leb_gt. lia. }
  unfold bind at 1, emit at 1. cbv beta iota. rewrite Hge.
  assert (Hne : (Z.of_nat (length items) =? prev)%Z = false).
  { apply Z.eqb_neq. congruence. }
  rewrite Hne. unfold bind at 1, ret at 1. cbv beta iota.
  unfold bind at 1, scroll_panel at 1. rewrite Hscroll. cbv beta iota.
  unfold bind at 1, wait_for_timeout at 1. cbv beta iota.
  destruct (scroll_loop R U fuel req max (Z.of_nat (length items)) (sc + 1)
              (ui_wait U 3000 w2)) as [[r w'] t].
  reflexivity.
Qed.

Lemma scroll_loop_growing (fuel : nat) (req max : Z) :
  forall (prev sc : Z) (w : W U) (items : list listing_view),
    Inv w -> ui_items U w = Ok items -> prev <> Z.of_nat (length items) ->
    Z.to_nat (max - sc) < fuel ->
    exists sc' w' t items',
      scroll_loop R U fuel req max prev sc w = (Ok sc', w', t)
      /\ ui_items U w' = Ok items'
      /\ ~ In (EWait 20000) t
      /\ scrolls t <= Z.to_nat (req - Z.of_nat (length items))
      /\ ((req <= Z.of_nat (length items'))%Z \/ scrolls t = Z.to_nat (max - sc)).
Proof.
  induction fuel as [|fuel IH]; intros prev sc w items Hw Hitems Hprev Hfuel; [lia|].
  destruct (Z.ltb_spec sc max) as [Hlt|Hge].
  - destruct (Z.ltb_spec (Z.of_nat (length items)) req) as [Hbelow|Hreached].
    + destruct (feed_grows Hw Hitems) as (w2 & items2 & Hscroll & Hw2 & Hitems2 & Hmore).
      rewrite (@scroll_loop_advances fuel req max prev sc w w2 items Hlt Hitems Hbelow Hprev Hscroll).
      destruct (IH (Z.of_nat (length items)) (sc + 1)%Z _ items2 Hw2 Hitems2)
        as (sc' & w' & t & items' & -> & Hitems' & Hnowait & Hbound & Hend); [lia | lia |].
      exists sc', w', ([EPrint (PScrolling (Z.of_nat (length items))); EScroll; EWait 3000] ++ t),
        items'.
      split; [reflexivity|]. split; [assumption|]. split; [|split].
      * intros [H|[H|[H|H]]]; try discriminate. now apply Hnowait.
      * rewrite scrolls_app. change (scrolls [EPrint _; EScroll; EWait 3000]) with 1. lia.
      * rewrite scrolls_app. change (scrolls [EPrint _; EScroll; EWait 3000]) with 1.
        destruct Hend as [Hend|Hend]; [now left | right; lia].
    + rewrite (@scroll_loop_reached R U fuel req max prev sc w items Hlt Hitems Hreached).
      exists sc, w, [EPrint (PScrolling (Z.of_nat (length items))); EPrint (PReached req sc)],
        items.
      split; [reflexivity|]. split; [assumption|]. split; [|split].
      * intros [H|[H|[]]]; discriminate.
      * unfold scrolls. simpl. lia.
      * now left.
  - cbn [scroll_loop]. apply Z.ltb_ge in Hge. rewrite Hge.
    exists sc, w, [], items. split; [reflexivity|]. split; [assumption|].
    split; [intros []|]. split; [unfold scrolls; simpl; lia|].
    right. unfold scrolls. simpl. apply Z.ltb_ge in Hge. lia.
Qed.

(** X7: on a results panel that shows more listings after every scroll,
    the loader never waits the twenty seconds of the retry, scrolls at
    most as many times as listings were missing at the start, and ends
    with the target reached unless it has used up its scrolls *)
Theorem loader_on_growing_feed (req max : Z) (w : W U) (items : list listing_view) :
  Inv w -> ui_panel U w = Ok true -> ui_items U w = Ok items -> items <> [] ->
  exists w' t items',
    scroll_to_load_more R U req max w = (Ok tt, w', t)
    /\ ui_items U w' = Ok items'
    /\ ~ In (EWait 20000) t
    /\ scrolls t <= Z.to_nat (req - Z.of_nat (length items))
    /\ ((req <= Z.of_nat (length items'))%Z \/ scrolls t = Z.to_nat max).
Proof.
  intros Hw Hpanel Hitems Hne.
  destruct (@scroll_loop_growing (S (Z.to_nat max)) req max 0 0 w items Hw Hitems)
    as (sc' & w' & t & items' & Hrun & Hitems' & Hnowait & Hbound & Hend).
  { destruct items; [congruence | simpl; lia]. }
  { lia. }
  rewrite Z.sub_0_r in Hend.
  unfold scroll_to_load_more, try_except, find_panel.
  unfold bind at 1. rewrite Hpanel. cbn [negb].
  unfold bind at 1. rewrite Hrun.
  unfold bind at 1. rewrite (@count_items_run R U w' items' Hitems').
  exists w'.
  destruct (Z.of_nat (length items') <? req)%Z; unfold emit;
    eexists; exists items'; (split; [reflexivity|]);
    (split; [assumption|]); rewrite !app_nil_l, ?scrolls_app;
    (split; [|split]).
  all: try (intros H; apply in_app_or in H as [H|[H|[]]]; [now apply Hnowait | discriminate]).
  all: try (change (scrolls [EPrint _]) with 0; rewrite Nat.add_0_r; assumption).
Qed.
End GrowingFeed.

(** ** More on the listings *)

Lemma sweep_outcome_visited (R : runtime) (Wd : world) (url u : str) (paths : list str) :
  In u (fst (sweep_outcome R Wd url paths)) ->
  exists q, In q paths /\ u = contact_url url q.
Proof.
  induction paths as [|path rest IH]; simpl; [contradiction|].
  destruct (yields R (site_page Wd (contact_url url path))).
  - simpl. intros [<-|[]]. exists path. auto.
  - destruct (sweep_outcome R Wd url rest) as [visited r]. simpl in *.
    intros [<-|H]; [exists path; auto|].
    destruct (IH H) as (q & Hq & E). exists q. auto.
Qed.

(** every navigation of the engine goes to the site, to one of its
    contact pages or to the search engine's page for it *)
Lemma engine_gotos (R : runtime) (U : map_ui) (Wd : world) (lc pc : nat)
    (url : str) (s : state R U) (p : nat) (u : str) (timeout : Z) :
  In (EGoto p u timeout) (snd (search_email_on_website Wd lc url pc s)) ->
  In u (engine_urls url).
Proof.
  rewrite engine_run. unfold engine_urls.
  assert (Hg : forall visited, In (EGoto p u timeout) (gotos R (length (handles s)) 15000 visited) ->
                               In u visited).
  { intros visited H. unfold gotos in H. apply in_map_iff in H as (x & [= _ -> _] & Hx).
    exact Hx. }
  assert (Hv : In u (fst (sweep_outcome R Wd url common_contact_paths)) ->
               In u (url :: map (contact_url url) common_contact_paths ++ [google_query url])).
  { intros H. apply sweep_outcome_visited in H as (q & Hq & ->).
    right. apply in_or_app. left. now apply in_map. }
  destruct (site_page Wd url) as [x|text].
  { intros [[= _ -> _]|[]]. now left. }
  destruct (found (extract_email_from_rendered_text R text)).
  { intros [[= _ -> _]|[]]. now left. }
  destruct (sweep_outcome R Wd url common_contact_paths) as [visited [a|]]; cbn [snd fst] in *.
  - intros [[= _ -> _]|H]; [now left|]. auto.
  - intros [[= _ -> _]|H]; [now left|].
    apply in_app_or in H as [H|H]; [auto|].
    unfold fallback_trace in H. destruct (startswith_any scheme_prefixes url).
    + destruct H as [[= _ -> _]|[]]. right. apply in_or_app. right. now left.
    + destruct H as [H|[]]. discriminate.
Qed.

Section ListingNavigations.
Variable R : runtime.
Variable U : map_ui.
Variable Wd : world.

Ltac quiet_leaf :=
  let s := fresh "s" in
  solve [ intros s; unfold emitting;
          cbv [emit modify open_handle close new_business assign append_business
               ret ext raise];
          repeat match goal with
                 | |- context [match ?x with _ => _ end] =>
                     lazymatch x with
                     | context [match _ with _ => _ end] => fail
                     | _ => destruct x
                     end
                 end;
          repeat first [ apply Forall_nil | apply Forall_cons; [exact I|] ] ].

Lemma or_empty_truthy (site : str) :
  truthy (or_empty site) = true -> or_empty site = site /\ site <> [].
Proof. destruct site; simpl; [discriminate|]. intros _. split; [reflexivity | discriminate]. Qed.

(** X8: while a listing is processed, a website is contacted only when
    the click, the four lookups, the coordinates and the IP check all
    went well and the website stored passes validation; and every
    navigation then goes to that website, to one of its contact pages or
    to the search engine's page for it *)
Theorem listing_navigations_go_to_its_site (lb pc : nat) (lv : listing_view)
    (s : state R U) :
  Forall (@goes_to_site R lv) (snd (process_listing Wd lb pc lv s)).
Proof.
  apply respects_emitting_trace. clear s.
  unfold process_listing.
  apply respects_try_finally; [exact _| |quiet_leaf].
  apply respects_try_except; [exact _| |intros e; quiet_leaf].
  apply respects_bind_ext; [exact _|]. intros [] Hclick.
  apply respects_bind; [exact _|quiet_leaf|]. intros b. unfold fill_business.
  apply respects_bind_ext; [exact _|]. intros vn Hname.
  apply respects_bind; [exact _|quiet_leaf|]. intros _.
  apply respects_bind_ext; [exact _|]. intros va Haddress.
  apply respects_bind; [exact _|quiet_leaf|]. intros _.
  apply respects_bind_ext; [exact _|]. intros site Hsite.
  apply respects_bind; [exact _|quiet_leaf|]. intros _.
  apply respects_bind_ext; [exact _|]. intros vp Hphone.
  apply respects_bind; [exact _|quiet_leaf|]. intros _.
  apply respects_bind_ext; [exact _|]. intros c Hc.
  apply respects_bind; [exact _|quiet_leaf|]. intros _.
  unfold discover_email.
  destruct (truthy (or_empty site)) eqn:Ht; [|quiet_leaf].
  apply or_empty_truthy in Ht as [-> Hne].
  apply respects_bind; [exact _|quiet_leaf|]. intros _.
  match goal with
  | |- respects _ (if is_valid_url ?u then _ else _) =>
      change u with (with_scheme site); destruct (is_valid_url (with_scheme site)) eqn:Hvalid
  end; [|quiet_leaf].
  apply respects_bind; [exact _|quiet_leaf|]. intros lc.
  apply respects_bind; [exact _|quiet_leaf|]. intros lp.
  apply respects_bind_ext; [exact _|]. intros [] Hip.
  apply respects_bind; [exact _| |intros r; apply respects_bind; [exact _|quiet_leaf|intros _; quiet_leaf]].
  intros s. pose proof (@engine_gotos R U Wd lc pc (with_scheme site) s) as Hg.
  destruct (search_email_on_website Wd lc (with_scheme site) pc s) as [[r s'] t].
  unfold emitting. apply Forall_forall. intros ev Hev.
  destruct ev as [x|p u timeout|ms| |m|x f rows]; try exact I.
  exists site. split; [|exact (Hg p u timeout Hev)].
  unfold ready_for_discovery. repeat split; eauto.
Qed.
End ListingNavigations.

(** X9: a listing whose page URL gives no coordinates keeps its four
    text fields, gets no coordinates and no email, and no website is
    contacted for it, whatever its website is *)
Theorem failed_coordinates_skip_discovery (R : runtime) (U : map_ui) (Wd : world)
    (lb pc : nat) (lv : listing_view) (s : state R U) (vn va vs vp : str) (e : exn) :
  lv_click lv = Ok tt ->
  lv_name lv = Ok vn -> lv_address lv = Ok va ->
  lv_website lv = Ok vs -> lv_phone lv = Ok vp ->
  extract_coordinates_from_url R (lv_url lv) = Raise e ->
  let run := process_listing Wd lb pc lv s in
  fst (fst run) = Ok tt
  /\ snd run = [EPrint (PErrorExtracting e)]
  /\ heap (snd (fst run))
     = heap s ++ [{| name := Some (or_empty vn); address := Some (or_empty va);
                     website := Some (or_empty vs);
                     phone_number := Some (or_empty vp);
                     email := None; latitude := None; longitude := None |}]
  /\ business_list (snd (fst run)) = business_list s ++ [length (heap s)].
Proof.
  intros Hclick Hname Haddress Hsite Hphone Hc run. subst run.
  unfold process_listing, fill_business, try_finally, try_except, bind, ext,
    new_business, assign, modify, append_business, emit.
  rewrite Hclick, Hname, Haddress, Hsite, Hphone, Hc.
  cbn [heap set_heap set_var_business var_business business_list set_business_list
       fst snd app].
  rewrite !update_nth_last. repeat split; reflexivity.
Qed.

(** ** The session, step by step *)

Section SessionRun.
Variable R : runtime.
Variable U : map_ui.
Variable Wd : world.

Lemma session_run (pb lb : nat) (delay total : Z) (suburb state_ : str)
    (s : state R U) :
  let pcx := length (handles s) in
  let s2 := set_handles (open_under (Some pcx) (open_under (Some pb) (handles s))) s in
  session Wd pb lb delay total suburb state_ s
  = match ui_search U (s2l "boutiques in +" ++ suburb ++ s2l ", " ++ state_)
            delay (ui s) with
    | (Raise e, w1) => (Raise e, set_ui w1 s2, [])
    | (Ok _, w1) =>
        match scroll_to_load_more R U total 10 w1 with
        | (Raise e, w2, t4) => (Raise e, set_ui w2 s2, t4)
        | (Ok _, w2, t4) =>
            match ui_hover U w2 with
            | Raise e => (Raise e, set_ui w2 s2, t4)
            | Ok _ =>
                match ui_items U w2 with
                | Raise e => (Raise e, set_ui w2 s2, t4)
                | Ok all =>
                    match for_each_listing Wd lb pcx (slice_to all total)
                            (set_business_list [] (set_ui w2 s2)) with
                    | (Raise e, s8, t8) => (Raise e, s8, t4 ++ t8)
                    | (Ok _, s8, t8) =>
                        (Ok tt, s8,
                         t4 ++ t8 ++ [ESave true (file_stem suburb state_) (rows_of s8);
                                      ESave false (file_stem suburb state_) (rows_of s8)])
                    end
                end
            end
        end
    end.
Proof.
  intros pcx s2. subst pcx s2.
  unfold session, bind, open_handle, on_ui, modify, save, file_stem.
  cbn [ui set_handles set_ui handles].
  destruct (ui_search U _ delay (ui s)) as [[[]|e] w1]; [|reflexivity].
  cbn [ui set_handles set_ui handles].
  destruct (scroll_to_load_more R U total 10 w1) as [[[[]|e] w2] t4]; [|reflexivity].
  cbn [ui set_handles set_ui handles].
  destruct (ui_hover U w2) as [[]|e]; [|now rewrite app_nil_r].
  destruct (ui_items U w2) as [all|e]; [|now rewrite app_nil_r].
  cbn [app].
  match goal with
  | |- context [for_each_listing Wd lb ?p ?l ?st] =>
      change st with (set_business_list [] (set_ui w2
                        (set_handles (open_under (Some (length (handles s)))
                                        (open_under (Some pb) (handles s))) s)));
      rewrite (length_open_under (Some pb) (handles s)) || idtac
  end.
  destruct (for_each_listing Wd lb _ (slice_to all total) _) as [[[[]|e] s8] t8];
    reflexivity.
Qed.
End SessionRun.

Section ScrapeRun.
Variable R : runtime.
Variable U : map_ui.
Variable Wd : world.

Lemma not_save_existsb (t : list (event R)) :
  Forall (@not_save R) t -> existsb (@is_save R) t = false.
Proof.
  induction 1 as [|ev t Hev _ IH]; [reflexivity|]. simpl. rewrite IH.
  now destruct ev.
Qed.

Lemma saves_last_bind {A} (stem : str) (m : M R (state R U) A)
    (k : A -> M R (state R U) unit) (s : state R U) :
  respects (emitting (@not_save R)) m ->
  (forall a s1, saves_last stem (k a s1)) ->
  saves_last stem (bind m k s).
Proof.
  intros Hm Hk. apply (respects_emitting_trace s) in Hm. apply not_save_existsb in Hm.
  unfold saves_last, bind in *. destruct (m s) as [[[a|e] s1] t1]; [|discriminate].
  specialize (Hk a s1). destruct (k a s1) as [[r s2] t2]. cbn [fst snd] in *.
  intros Hr. destruct (Hk Hr) as (t0 & -> & Ht0).
  exists (t1 ++ t0). split; [now rewrite app_assoc|].
  now rewrite existsb_app, Hm, Ht0.
Qed.

Lemma saves_last_finally (stem : str) (body : M R (state R U) unit)
    (fin : M R (state R U) unit) (s : state R U) :
  saves_last stem (body s) ->
  (forall s1, exists hs, fin s1 = (Ok tt, set_handles hs s1, [])) ->
  saves_last stem (try_finally body fin s).
Proof.
  intros Hb Hf. unfold saves_last, try_finally in *.
  destruct (body s) as [[r s1] t1]. destruct (Hf s1) as (hs & ->).
  cbn [fst snd] in *. intros Hr. destruct (Hb Hr) as (t0 & -> & Ht0).
  exists t0. split; [now rewrite app_nil_r | assumption].
Qed.

Lemma session_saves_last (pb lb : nat) (delay total : Z) (suburb state_ : str)
    (s : state R U) :
  saves_last (file_stem suburb state_) (session Wd pb lb delay total suburb state_ s).
Proof.
  rewrite session_run. unfold saves_last.
  destruct (ui_search U _ delay (ui s)) as [[[]|e] w1]; [|discriminate].
  pose proof (respects_emitting_trace w1 (@loader_no_save R U total 10)) as H4.
  destruct (scroll_to_load_more R U total 10 w1) as [[[[]|e] w2] t4]; [|discriminate].
  destruct (ui_hover U w2) as [[]|e]; [|discriminate].
  destruct (ui_items U w2) as [all|e]; [|discriminate].
  match goal with
  | |- context [for_each_listing Wd lb ?p ?l ?st] =>
      pose proof (respects_emitting_trace st (@loop_no_save R U Wd lb p l)) as H8;
      destruct (for_each_listing Wd lb p l st) as [[[[]|e] s8] t8]; [|discriminate]
  end.
  cbn [fst snd] in *. intros _. exists (t4 ++ t8).
  split; [now rewrite <- app_assoc|].
  now rewrite existsb_app, !not_save_existsb.
Qed.

Lemma launch_no_save (proxied : bool) :
  respects (emitting (@not_save R)) (launch (R := R) (U := U) Wd proxied).
Proof.
  intros s. unfold launch, bind, emit, ext, open_handle, emitting.
  destruct (launch_result Wd proxied); repeat constructor.
Qed.

(** X10: a run of [scrape_google_maps] that ends normally has written
    both files last, the spreadsheet and then the CSV, under the same
    name and with the same rows, and has written nothing before *)
Theorem completed_run_saves_both (proxy_server user_agent : str) (delay total : Z)
    (suburb state_ : str) (s : state R U) :
  let run := scrape_google_maps Wd proxy_server user_agent delay total suburb state_ s in
  fst (fst run) = Ok tt ->
  exists t0,
    snd run = t0 ++ [ESave true (file_stem suburb state_) (rows_of (snd (fst run)));
                     ESave false (file_stem suburb state_) (rows_of (snd (fst run)))]
    /\ existsb (@is_save R) t0 = false.
Proof.
  intros run. subst run. fold (saves_last (file_stem suburb state_)
    (scrape_google_maps Wd proxy_server user_agent delay total suburb state_ s)).
  unfold scrape_google_maps. apply saves_last_bind.
  { intros s0. unfold ext, emitting. constructor. }
  intros _ s1. apply saves_last_finally; [|intros s2; eexists; reflexivity].
  unfold with_browsers. apply saves_last_bind; [apply launch_no_save|]. intros pb s2.
  apply saves_last_bind; [apply launch_no_save|]. intros lb s3.
  apply saves_last_finally; [apply session_saves_last|].
  intros s4. eexists. unfold bind, close, modify. cbn [handles set_handles].
  reflexivity.
Qed.
End ScrapeRun.

(** ** Records are filled in order *)

Lemma filled_in_order_Business0 (R : runtime) : filled_in_order (Business0 R).
Proof. unfold filled_in_order. simpl. intuition congruence. Qed.

Section FilledInOrder.
Variable R : runtime.
Variable U : map_ui.
Variable Wd : world.

Ltac crunch_fill :=
  repeat match goal with
         | |- context [match search_email_on_website ?W ?lc ?url ?pc ?s with _ => _ end] =>
             let E := fresh "E" in
             destruct (@engine_handles_only _ _ W lc pc url s) as [? E];
             destruct (search_email_on_website W lc url pc s) as [[? ?] ?];
             cbn [fst snd] in E; subst
         | |- context [match ?x with _ => _ end] =>
             lazymatch x with
             | context [match _ with _ => _ end] => fail
             | _ => destruct x eqn:?
             end
         end.

Lemma fill_business_filled (lb pc : nat) (lv : listing_view)
    (h : list (Business R)) (s : state R U) :
  heap s = h ++ [Business0 R] ->
  exists obj,
    heap (snd (fst (fill_business Wd lb pc lv (length h) s))) = h ++ [obj]
    /\ filled_in_order obj.
Proof.
  destruct s as [w hs hp vb bl]. cbn [heap]. intros ->.
  cbv [fill_business discover_email bind ext assign close modify open_handle
       emit ret].
  crunch_fill;
    cbn [fst snd heap set_heap set_handles handles ui var_business business_list];
    rewrite ?update_nth_last;
    (eexists; split; [reflexivity|]);
    unfold filled_in_order; cbn [name address website phone_number email latitude
                                 longitude set_name set_address set_website
                                 set_phone_number set_email set_coordinates Business0];
    repeat split; intros; try congruence; try discriminate; eauto.
Qed.

Lemma process_listing_filled (lb pc : nat) (lv : listing_view) :
  respects (keeping (@all_filled R U)) (process_listing Wd lb pc lv).
Proof.
  intros s. unfold keeping, all_filled.
  unfold process_listing, try_finally, try_except, bind at 1, ext.
  destruct (lv_click lv) as [[]|e].
  - unfold bind at 1, new_business.
    destruct (@fill_business_filled lb pc lv (heap s)
                (set_var_business (Some (length (heap s)))
                   (set_heap (heap s ++ [Business0 R]) s)) eq_refl) as (obj & Hh & Hf).
    destruct (fill_business Wd lb pc lv (length (heap s)) _) as [[r s2] t2].
    cbn [fst snd] in Hh.
    assert (Hs2 : Forall (@filled_in_order R) (heap s) ->
                  Forall (@filled_in_order R) (heap s2)).
    { intros H. rewrite Hh. apply Forall_app. auto. }
    unfold append_business, emit.
    destruct r as [[]|e]; destruct (var_business s2); exact Hs2.
  - unfold append_business, emit. destruct (var_business s); auto.
Qed.

Lemma for_each_listing_filled (lb pc : nat) (listings : list listing_view) :
  respects (keeping (@all_filled R U)) (for_each_listing Wd lb pc listings).
Proof.
  induction listings as [|lv rest IH]; cbn [for_each_listing].
  - apply respects_ret. exact _.
  - apply respects_bind; [exact _ | apply process_listing_filled | intros _; exact IH].
Qed.

Lemma rows_of_filled (s : state R U) :
  all_filled s -> Forall (@filled_in_order R) (rows_of s).
Proof.
  unfold all_filled, rows_of. intros H. apply Forall_forall. intros row Hrow.
  apply in_map_iff in Hrow as (b & <- & _).
  destruct (nth_in_or_default b (heap s) (Business0 R)) as [Hin| ->].
  - rewrite Forall_forall in H. now apply H.
  - apply filled_in_order_Business0.
Qed.

(** where a save comes from: it is one of the two at the end of the
    session, made from the state the listing loop ended in *)
Lemma session_save_rows (pb lb : nat) (delay total : Z) (suburb state_ : str)
    (s : state R U) (x : bool) (f : str) (rows : list (Business R)) :
  In (ESave x f rows) (snd (session Wd pb lb delay total suburb state_ s)) ->
  f = file_stem suburb state_
  /\ exists s7 all s8 t8,
       heap s7 = heap s /\ var_business s7 = var_business s /\ business_list s7 = []
       /\ ui_items U (ui s7) = Ok all
       /\ for_each_listing Wd lb (length (handles s)) (slice_to all total) s7
          = (Ok tt, s8, t8)
       /\ rows = rows_of s8.
Proof.
  rewrite session_run.
  destruct (ui_search U _ delay (ui s)) as [[[]|e] w1]; [|intros []].
  pose proof (respects_emitting_trace w1 (@loader_no_save R U total 10)) as H4.
  destruct (scroll_to_load_more R U total 10 w1) as [[r4 w2] t4]. cbn [snd] in H4.
  assert (N4 : ~ In (ESave x f rows) t4).
  { intros H. rewrite Forall_forall in H4. exact (H4 _ H). }
  destruct r4 as [[]|e]; [|intros H; now elim N4].
  destruct (ui_hover U w2) as [[]|e]; [|intros H; now elim N4].
  destruct (ui_items U w2) as [all|e] eqn:Hitems; [|intros H; now elim N4].
  match goal with
  | |- context [for_each_listing Wd lb ?p ?l ?st] =>
      pose proof (respects_emitting_trace st (@loop_no_save R U Wd lb p l)) as H8;
      destruct (for_each_listing Wd lb p l st) as [[r8 s8] t8] eqn:Hloop
  end.
  cbn [snd] in H8.
  assert (N8 : ~ In (ESave x f rows) t8).
  { intros H. rewrite Forall_forall in H8. exact (H8 _ H). }
  destruct r8 as [[]|e]; cbn [snd].
  - intros H. apply in_app_or in H as [H|H]; [now elim N4|].
    apply in_app_or in H as [H|H]; [now elim N8|].
    assert (f = file_stem suburb state_ /\ rows = rows_of s8) as [-> ->].
    { destruct H as [[= _ <- <-]|[[= _ <- <-]|[]]]; auto. }
    split; [reflexivity|]. eexists; exists all, s8, t8.
    split; [|split; [|split; [|split; [|split]]]]; [| | | |exact Hloop|]; auto.
  - intros H. apply in_app_or in H as [H|H]; [now elim N4 | now elim N8].
Qed.

Lemma scrape_save_rows (proxy_server user_agent : str) (delay total : Z)
    (suburb state_ : str) (s : state R U) (x : bool) (f : str)
    (rows : list (Business R)) :
  In (ESave x f rows)
     (snd (scrape_google_maps Wd proxy_server user_agent delay total suburb state_ s)) ->
  f = file_stem suburb state_
  /\ exists lb pc s7 all s8 t8,
       heap s7 = heap s /\ var_business s7 = var_business s /\ business_list s7 = []
       /\ ui_items U (ui s7) = Ok all
       /\ for_each_listing Wd lb pc (slice_to all total) s7 = (Ok tt, s8, t8)
       /\ rows = rows_of s8.
Proof.
  unfold scrape_google_maps. intros H.
  apply in_bind in H as [H | ([] & s1 & t1 & E1 & H & _)].
  { unfold ext in H. destruct H. }
  unfold ext in E1. injection E1 as _ <- _.
  apply in_try_finally in H as [H|H]; [|destruct H].
  unfold with_browsers in H.
  apply in_bind in H as [H | (pb & s2 & t2 & E2 & H & _)].
  { unfold launch, bind, emit, ext, open_handle in H.
    destruct (launch_result Wd true); simpl in H;
      repeat (destruct H as [H|H]; [discriminate|]); destruct H. }
  apply in_bind in H as [H | (lb & s3 & t3 & E3 & H & _)].
  { unfold launch, bind, emit, ext, open_handle in H.
    destruct (launch_result Wd false); simpl in H;
      repeat (destruct H as [H|H]; [discriminate|]); destruct H. }
  apply in_try_finally in H as [H|H].
  2:{ unfold bind, close, modify in H. destruct H. }
  assert (Hs3 : heap s3 = heap s /\ var_business s3 = var_business s).
  { unfold launch, bind, emit, ext, open_handle in E2, E3.
    destruct (launch_result Wd true); [|discriminate]. injection E2 as _ <- _.
    destruct (launch_result Wd false); [|discriminate]. injection E3 as _ <- _.
    split; reflexivity. }
  destruct Hs3 as [Hh3 Hv3].
  apply session_save_rows in H as (-> & s7 & all & s8 & t8 & Hh & Hv & Hl & Hi & Hloop & ->).
  split; [reflexivity|]. exists lb, (length (handles s3)), s7, all, s8, t8.
  rewrite Hh, Hv. auto 10.
Qed.

(** X11: in every file [scrape_google_maps] writes, each row is filled
    in the order of the code: a row with an address has a name, one with
    a website an address, one with a phone number a website, one with
    coordinates a phone number and both coordinates, and one with an
    email has coordinates and a website that passed validation *)
Theorem saved_rows_filled_in_order (proxy_server user_agent : str) (delay total : Z)
    (suburb state_ : str) (w : W U) (x : bool) (f : str) (rows : list (Business R)) :
  In (ESave x f rows)
     (snd (scrape_google_maps Wd proxy_server user_agent delay total suburb state_
             (initial_state R U w))) ->
  Forall (@filled_in_order R) rows.
Proof.
  intros H.
  apply scrape_save_rows in H
    as (_ & lb & pc & s7 & all & s8 & t8 & Hh & _ & _ & _ & Hloop & ->).
  apply rows_of_filled.
  pose proof (for_each_listing_filled lb pc (slice_to all total) s7) as Hk.
  rewrite Hloop in Hk. apply Hk. unfold all_filled. rewrite Hh. constructor.
Qed.
End FilledInOrder.

(** ** A first listing that cannot be clicked *)

Section FirstClick.
Variable R : runtime.
Variable U : map_ui.
Variable Wd : world.

Lemma process_listing_unclickable (lb pc : nat) (lv : listing_view) (e : exn)
    (s : state R U) :
  lv_click lv = Raise e -> var_business s = None ->
  process_listing Wd lb pc lv s
  = (Raise UnboundLocalError, s, [EPrint (PErrorExtracting e)]).
Proof.
  intros Hclick Hvar.
  unfold process_listing, try_finally, try_except, bind, ext, emit, append_business.
  now rewrite Hclick, Hvar.
Qed.

(** X12: when the click on the first listing taken from the page raises,
    [scrape_google_maps] ends with UnboundLocalError right after the
    message about that listing: no other listing is read and no file is
    written *)
Theorem unclickable_first_listing_ends_run (proxy_server user_agent : str)
    (delay total : Z) (suburb state_ : str) (w w1 w2 : W U) (r4 : outcome unit)
    (t4 : list (event R)) (lv : listing_view) (rest : list listing_view) (e : exn) :
  validate_inputs proxy_server user_agent = Ok tt ->
  launch_result Wd true = Ok tt -> launch_result Wd false = Ok tt ->
  ui_search U (s2l "boutiques in +" ++ suburb ++ s2l ", " ++ state_) delay w
  = (Ok tt, w1) ->
  scroll_to_load_more R U total 10 w1 = (r4, w2, t4) ->
  ui_hover U w2 = Ok tt ->
  ui_items U w2 = Ok (lv :: rest) ->
  (0 < total)%Z ->
  lv_click lv = Raise e ->
  let run := scrape_google_maps Wd proxy_server user_agent delay total suburb state_
               (initial_state R U w) in
  fst (fst run) = Raise UnboundLocalError
  /\ snd run = ELaunch true :: ELaunch false :: t4 ++ [EPrint (PErrorExtracting e)].
Proof.
  intros Hvalid Hl1 Hl2 Hsearch Hload Hhover Hitems Htotal Hclick run. subst run.
  assert (Hr4 : r4 = Ok tt).
  { destruct (scroll_to_load_more_run R U total 10 w1) as (w' & t & E & _).
    rewrite E in Hload. now injection Hload as <- _ _. }
  subst r4.
  assert (Hslice : exists more, slice_to (lv :: rest) total = lv :: more).
  { unfold slice_to. destruct (Z.leb_spec 0 total); [|lia].
    destruct (Z.to_nat total) as [|n] eqn:En; [lia|]. simpl. eauto. }
  destruct Hslice as [more Hslice].
  unfold scrape_google_maps, bind at 1, ext at 1. rewrite Hvalid.
  unfold try_finally at 1, modify.
  unfold with_browsers, launch, bind, emit, ext, open_handle. rewrite Hl1, Hl2.
  unfold try_finally, close, modify. rewrite session_run.
  cbn [ui set_handles initial_state handles]. rewrite Hsearch, Hload, Hhover, Hitems, Hslice.
  cbn [for_each_listing]. unfold bind.
  rewrite process_listing_unclickable with (e := e); [|exact Hclick|reflexivity].
  cbn [fst snd app]. split; [reflexivity|]. now rewrite ?app_nil_r.
Qed.
End FirstClick.

(** ** White space *)

Lemma lstrip_cases (s : str) :
  exists pre, s = pre ++ lstrip s
              /\ forall c t, lstrip s = c :: t -> is_space c = false.
Proof.
  induction s as [|d s (pre & E & H)]; simpl.
  - exists []. split; [reflexivity | discriminate].
  - destruct (is_space d) eqn:Ed.
    + exists (d :: pre). simpl. split; [now rewrite <- E | exact H].
    + exists []. split; [reflexivity|]. now intros c t [= <- _].
Qed.

Lemma lstrip_fixed (s : str) :
  (forall c t, s = c :: t -> is_space c = false) -> lstrip s = s.
Proof.
  destruct s as [|c t]; [reflexivity|]. intros H. simpl.
  now rewrite (H c t eq_refl).
Qed.

Lemma lstrip_idempotent (s : str) : lstrip (lstrip s) = lstrip s.
Proof.
  destruct (lstrip_cases s) as (pre & _ & H). now apply lstrip_fixed.
Qed.

Lemma strip_cases (s : str) :
  (forall c t, strip s = c :: t -> is_space c = false)
  /\ (forall c t, strip s = t ++ [c] -> is_space c = false).
Proof.
  unfold strip.
  destruct (lstrip_cases s) as (pre1 & _ & H1).
  destruct (lstrip_cases (rev (lstrip s))) as (pre2 & E2 & H2).
  split.
  - intros c t Hs.
    assert (E : lstrip s = rev (lstrip (rev (lstrip s))) ++ rev pre2).
    { rewrite <- rev_app_distr, <- E2. now rewrite rev_involutive. }
    rewrite Hs in E. simpl in E. exact (H1 c _ E).
  - intros c t Hs. apply (H2 c (rev t)).
    rewrite <- (rev_involutive (lstrip (rev (lstrip s)))), Hs, rev_app_distr.
    reflexivity.
Qed.

Lemma strip_idempotent (s : str) : strip (strip s) = strip s.
Proof.
  destruct (strip_cases s) as [Hhead Hlast].
  unfold strip at 1. rewrite (lstrip_fixed Hhead).
  rewrite lstrip_fixed; [apply rev_involutive|].
  intros c t E. apply (Hlast c (rev t)).
  rewrite <- (rev_involutive (strip s)), E. reflexivity.
Qed.

Lemma strip_in (x : ascii) (s : str) : In x (strip s) -> In x s.
Proof.
  assert (Hl : forall l, In x (lstrip l) -> In x l).
  { intros l H. destruct (lstrip_cases l) as (pre & E & _). rewrite E.
    apply in_or_app. now right. }
  unfold strip. intros H. apply in_rev, Hl, in_rev, Hl in H. exact H.
Qed.

Lemma strip_fixed (s : str) :
  (forall c, In c s -> is_space c = false) -> strip s = s.
Proof.
  intros H. unfold strip. rewrite (@lstrip_fixed s).
  - rewrite lstrip_fixed; [apply rev_involutive|].
    intros c t E. apply H, in_rev. rewrite E. now left.
  - intros c t E. apply H. rewrite E. now left.
Qed.

(** ** File names *)

(** of the white space, the filter of [sanitize_filename] lets only the
    space through *)
Lemma kept_space (c : ascii) :
  kept_char c = true -> is_space c = true -> c = " "%char.
Proof.
  destruct c as [[] [] [] [] [] [] [] []]; intros Hk Hs;
    first [reflexivity | discriminate Hk | discriminate Hs].
Qed.

Lemma sanitize_filename_in (c : ascii) (filename : str) :
  In c (sanitize_filename filename) -> kept_char c = true /\ In c filename.
Proof.
  unfold sanitize_filename. intros H.
  apply strip_in, filter_In in H as [H1 H2]. now split.
Qed.

(** X13: a sanitised name neither starts nor ends with a space, and
    sanitising it again changes nothing *)
Theorem sanitize_filename_idempotent (filename : str) :
  sanitize_filename (sanitize_filename filename) = sanitize_filename filename
  /\ (forall t, sanitize_filename filename <> " "%char :: t)
  /\ (forall t, sanitize_filename filename <> t ++ [" "%char]).
Proof.
  split; [|split].
  - unfold sanitize_filename at 1.
    change (filter _ (sanitize_filename filename))
      with (filter kept_char (sanitize_filename filename)).
    rewrite forallb_filter_id.
    + unfold sanitize_filename. apply strip_idempotent.
    + apply forallb_forall. intros c Hc. now apply sanitize_filename_in in Hc.
  - unfold sanitize_filename. intros t E.
    now pose proof (proj1 (strip_cases _) _ _ E).
  - unfold sanitize_filename. intros t E.
    now pose proof (proj2 (strip_cases _) _ _ E).
Qed.

Lemma replace_space_no_space (s : str) : ~ In " "%char (replace_space s).
Proof.
  unfold replace_space. intros H. apply in_map_iff in H as (d & E & _).
  destruct (Ascii.eqb_spec d " "); [discriminate | congruence].
Qed.

(** X14: the name of the output files holds no space, no slash, no
    backslash, no dot and no colon, whatever suburb and state are; and
    when suburb and state are made of letters, digits, spaces, underscores
    and hyphens it is suburb, underscore, state with every space replaced
    by an underscore *)
Theorem file_stem_safe (suburb state_ : str) :
  (forall c, In c (file_stem suburb state_) ->
     c <> " "%char /\ c <> "/"%char /\ c <> "\"%char /\ c <> "."%char /\ c <> ":"%char)
  /\ (forallb kept_char suburb = true -> forallb kept_char state_ = true ->
      file_stem suburb state_
      = replace_space suburb ++ s2l "_" ++ replace_space state_).
Proof.
  unfold file_stem. split.
  - intros c Hc. apply sanitize_filename_in in Hc as [Hk Hin].
    split; [|repeat split; intros ->; discriminate].
    intros ->. now apply replace_space_no_space in Hin.
  - intros Hs Ht.
    assert (Hall : forallb kept_char (replace_space (suburb ++ s2l "_" ++ state_)) = true).
    { unfold replace_space. apply forallb_forall. intros c Hc.
      apply in_map_iff in Hc as (d & <- & Hd).
      destruct (Ascii.eqb_spec d " "); [reflexivity|].
      apply in_app_or in Hd as [Hd|Hd].
      - rewrite forallb_forall in Hs. now apply Hs.
      - apply in_app_or in Hd as [[<-|[]]|Hd]; [reflexivity|].
        rewrite forallb_forall in Ht. now apply Ht. }
    unfold sanitize_filename.
    change (filter _ (replace_space (suburb ++ s2l "_" ++ state_)))
      with (filter kept_char (replace_space (suburb ++ s2l "_" ++ state_))).
    rewrite (forallb_filter_id _ _ Hall).
    rewrite strip_fixed; [unfold replace_space; now rewrite !map_app|].
    intros c Hc. destruct (is_space c) eqn:Hsp; [exfalso | reflexivity].
    rewrite forallb_forall in Hall.
    pose proof (kept_space c (Hall c Hc) Hsp) as ->.
    now apply replace_space_no_space in Hc.
Qed.

(** ** Coordinates again *)

Lemma single_field (pre lat tail : str) :
  plain_field lat = true -> (tail = [] \/ exists t, tail = "/"%char :: t) ->
  occurs (s2l "/@") tail = false ->
  split (s2l ",")
    (hd [] (split (s2l "/")
       (last (split (s2l "/@") (pre ++ s2l "/@" ++ lat ++ tail)) [])))
  = [lat].
Proof.
  intros Hlat Hend Hocc.
  destruct (plain_field_no _ Hlat) as [Hlat1 Hlat2].
  rewrite split_last_segment.
  2:{ change (s2l "/@") with ("/"%char :: ["@"%char]) in *.
      now rewrite occurs_skip by assumption. }
  unfold split at 2. change (s2l "/") with ["/"%char].
  rewrite split_go_char_hd. simpl rev. simpl app at 1.
  rewrite before_app by assumption.
  assert (before "/" tail = []) as ->.
  { destruct Hend as [->|[t ->]]; reflexivity. }
  rewrite app_nil_r. unfold split. change (s2l ",") with [","%char].
  now rewrite split_go_no_occurrence by now apply occurs_none.
Qed.

(** X15: when the text after the last ["/@"] of the page URL holds no
    comma before the next slash, no coordinates come out: the single
    field makes [float] raise ValueError if it is no number, and the
    missing second field raises IndexError if it is *)
Theorem extract_coordinates_single_field (R : runtime) (pre lat tail : str) :
  plain_field lat = true -> (tail = [] \/ exists t, tail = "/"%char :: t) ->
  occurs (s2l "/@") tail = false ->
  extract_coordinates_from_url R (pre ++ s2l "/@" ++ lat ++ tail)
  = match float R lat with
    | Some _ => Raise IndexError
    | None => Raise (ValueError lat)
    end.
Proof.
  intros Hlat Hend Hocc. unfold extract_coordinates_from_url.
  rewrite (@single_field pre lat tail Hlat Hend Hocc). simpl.
  now destruct (float R lat).
Qed.

(** ** The batch driver *)

Lemma load_lines_stripped (text line : str) :
  In line (load_lines text) ->
  line <> []
  /\ strip line = line
  /\ (forall c t, line = c :: t -> is_space c = false)
  /\ (forall c t, line = t ++ [c] -> is_space c = false).
Proof.
  unfold load_lines. intros H. apply in_map_iff in H as (x & <- & Hx).
  apply filter_In in Hx as [_ Hx].
  split; [|split; [apply strip_idempotent | apply strip_cases]].
  destruct (strip x); [discriminate | discriminate].
Qed.

(** X16: a line loaded from the user-agent file or the suburb file is
    never empty, has no white space at either end, and stripping it again
    changes nothing *)
Theorem load_lines_clean (text line : str) :
  In line (load_lines text) ->
  line <> []
  /\ strip line = line
  /\ (forall c t, line = c :: t -> is_space c = false)
  /\ (forall c t, line = t ++ [c] -> is_space c = false).
Proof. apply load_lines_stripped. Qed.

Lemma split_go_char_length (c : ascii) (acc s : str) :
  length (split_go [c] 0 acc s) = S (count_char c s).
Proof.
  unfold count_char. revert acc. induction s as [|d s IH]; intros acc; [reflexivity|].
  cbn [split_go startswith filter]. rewrite andb_true_r.
  destruct (Ascii.eqb c d); cbn [length pred]; now rewrite IH.
Qed.

Lemma no_char_forallb (c : ascii) (s : str) :
  count_char c s = 0 -> forallb (fun d => negb (Ascii.eqb d c)) s = true.
Proof.
  unfold count_char. induction s as [|d s IH]; [reflexivity|]. simpl.
  rewrite (Ascii.eqb_sym d c). destruct (Ascii.eqb c d); simpl; [discriminate | exact IH].
Qed.

Lemma split_three_fields (a b c : str) :
  count_char "," a = 0 -> count_char "," b = 0 -> count_char "," c = 0 ->
  split (s2l ",") (a ++ s2l "," ++ b ++ s2l "," ++ c) = [a; b; c].
Proof.
  intros Ha Hb Hc. apply no_char_forallb in Ha, Hb, Hc. unfold split.
  change (s2l ",") with [","%char]. cbn [app].
  rewrite (split_go_char_app "," [] a _ Ha). cbn [rev app].
  rewrite (split_go_char_app "," [] b _ Hb). cbn [rev app].
  rewrite split_go_no_occurrence; [reflexivity|]. now apply occurs_none.
Qed.

Section BatchFacts.
Variable R : runtime.
Variable U : map_ui.
Variable Wd : world.
Variable draw_choice : nat -> nat.
Variable draw_randint : nat -> nat.

Lemma choice_in (i : nat) (l : list str) :
  l <> [] -> exists x, choice draw_choice i l = Ok x /\ In x l.
Proof.
  destruct l as [|y l]; [congruence|]. intros _. unfold choice.
  eexists. split; [reflexivity|]. apply nth_In. apply Nat.mod_upper_bound. discriminate.
Qed.

Lemma randint_range (i : nat) : (2 <= randint draw_randint i 2 5 <= 5)%Z.
Proof.
  unfold randint. change (Z.to_nat (5 - 2 + 1)) with 4.
  pose proof (Nat.mod_upper_bound (draw_randint i) 4). lia.
Qed.

Lemma batch_proxy_valid (proxy user_agent : str) :
  user_agent <> [] -> validate_inputs (s2l "http://" ++ proxy) user_agent = Ok tt.
Proof. destruct user_agent; [congruence | reflexivity]. Qed.

(** X17: for a line [suburb, state, postcode] the batch driver calls
    [scrape_google_maps] with the first two fields stripped, a delay
    between 2 and 5 and one of the loaded user agents, and the input
    checks of that call pass whatever the configured proxy is: the run
    is that of the launches and the session *)
Theorem batch_round_well_formed (proxy text : str) (i : nat) (a b c : str) (w : W U) :
  load_lines text <> [] ->
  count_char "," a = 0 -> count_char "," b = 0 -> count_char "," c = 0 ->
  (2 <= randint draw_randint i 2 5 <= 5)%Z
  /\ exists user_agent,
       In user_agent (load_lines text)
       /\ validate_inputs (s2l "http://" ++ proxy) user_agent = Ok tt
       /\ batch_round R U Wd draw_choice draw_randint proxy (load_lines text) i
            (a ++ s2l "," ++ b ++ s2l "," ++ c) w
          = invoke (try_finally
                      (with_browsers Wd (randint draw_randint i 2 5) 40
                         (strip a) (strip b))
                      (modify (fun s => set_handles (close_all (handles s)) s))) w.
Proof.
  intros Hua Ha Hb Hc. split; [apply randint_range|].
  destruct (choice_in i Hua) as (ua & Hch & Hin). exists ua.
  assert (Hv : validate_inputs (s2l "http://" ++ proxy) ua = Ok tt).
  { apply batch_proxy_valid. now apply load_lines_stripped in Hin. }
  split; [assumption|]. split; [assumption|].
  unfold batch_round, bind at 1, ext at 1. rewrite Hch.
  assert (Ho : occurs (s2l ",") (a ++ s2l "," ++ b ++ s2l "," ++ c) = true).
  { apply no_char_forallb in Ha. change (s2l ",") with [","%char].
    rewrite (occurs_skip "," [] a _ Ha). reflexivity. }
  rewrite Ho, (@split_three_fields a b c Ha Hb Hc). cbn [map].
  unfold invoke, scrape_google_maps, bind at 1, ext at 1. rewrite Hv.
  destruct (try_finally _ _ (initial_state R U w)) as [[r s'] t]. reflexivity.
Qed.

(** X18: a line that does not hold exactly two commas starts no browser
    and leaves no trace: the round does nothing *)
Theorem batch_round_malformed (proxy : str) (user_agents : list str) (i : nat)
    (suburb : str) (w : W U) :
  user_agents <> [] -> count_char "," suburb <> 2 ->
  batch_round R U Wd draw_choice draw_randint proxy user_agents i suburb w = (Ok tt, w, []).
Proof.
  intros Hua Hn. destruct (choice_in i Hua) as (ua & Hch & _).
  unfold batch_round, bind, ext. rewrite Hch.
  destruct (occurs (s2l ",") suburb); [|reflexivity].
  pose proof (split_go_char_length "," [] suburb) as Hlen.
  change (split_go [","%char] 0 [] suburb) with (split (s2l ",") suburb) in Hlen.
  destruct (split (s2l ",") suburb) as [|p1 [|p2 [|p3 [|p4 ps]]]]; try reflexivity.
  simpl in Hlen. lia.
Qed.
End BatchFacts.

Section BatchFiles.
Variable R : runtime.
Variable U : map_ui.
Variable Wd : world.
Variable draw_choice : nat -> nat.
Variable draw_randint : nat -> nat.

(** a file written by one call: its name and the bound on its rows *)
Lemma scrape_file_bounded (proxy_server user_agent : str) (delay total : Z)
    (suburb state_ : str) (w : W U) (x : bool) (f : str) (rows : list (Business R)) :
  (0 <= total)%Z ->
  In (ESave x f rows)
     (snd (scrape_google_maps Wd proxy_server user_agent delay total suburb state_
             (initial_state R U w))) ->
  f = file_stem suburb state_ /\ (Z.of_nat (length rows) <= total)%Z.
Proof.
  intros Ht H.
  apply scrape_save_rows in H
    as (-> & lb & pc & s7 & all & s8 & t8 & Hh & Hv & Hl & Hi & Hloop & ->).
  split; [reflexivity|].
  assert (Hd : all_described [] s7).
  { intros b [Hb|Hb]; [rewrite Hl in Hb; destruct Hb | rewrite Hv in Hb; discriminate]. }
  pose proof (for_each_listing_described Wd lb pc (slice_to all total) Hd) as Hk.
  rewrite Hloop in Hk. destruct Hk as [_ Hlen]. specialize (Hlen eq_refl).
  rewrite Hl in Hlen. unfold rows_of. rewrite length_map, Hlen. simpl.
  now apply slice_to_length.
Qed.

Lemma batch_file_more (l l' : list str) (ev : event R) :
  (forall x, In x l -> In x l') -> batch_file l ev -> batch_file l' ev.
Proof.
  intros Hl. destruct ev; simpl; auto.
  intros (Hn & line & a & b & c & Hin & Hp & Hf). split; [assumption|].
  exists line, a, b, c. auto.
Qed.

Lemma batch_round_files (proxy : str) (user_agents : list str) (i : nat) (suburb : str) :
  respects (emitting (@batch_file R [suburb]))
    (batch_round R U Wd draw_choice draw_randint proxy user_agents i suburb).
Proof.
  intros w. unfold batch_round, bind, ext, emitting.
  destruct (choice draw_choice i user_agents) as [ua|e]; [|constructor].
  destruct (occurs (s2l ",") suburb); [|constructor].
  destruct (map strip (split (s2l ",") suburb)) as [|a [|b [|c [|d l]]]] eqn:Hp;
    try constructor.
  unfold invoke.
  pose proof (fun x f rows =>
                @scrape_file_bounded (s2l "http://" ++ proxy) ua
                  (randint draw_randint i 2 5) 40 a b w x f rows ltac:(lia)) as Hb.
  destruct (scrape_google_maps Wd _ ua _ 40 a b (initial_state R U w)) as [[r s] t].
  cbn [snd app] in *. apply Forall_forall. intros ev Hev.
  destruct ev as [x|p u timeout|ms| |m|x f rows]; try exact I.
  destruct (Hb x f rows Hev) as [-> Hn]. split; [lia|].
  exists suburb, a, b, c. split; [now left | auto].
Qed.

Lemma batch_loop_files (proxy : str) (user_agents : list str) (suburbs : list str) :
  forall i,
    respects (emitting (@batch_file R suburbs))
      (batch_loop R U Wd draw_choice draw_randint proxy user_agents i suburbs).
Proof.
  induction suburbs as [|suburb rest IH]; intros i; cbn [batch_loop].
  - apply respects_ret. exact _.
  - apply respects_bind; [exact _ | |intros _].
    + apply (respects_emitting_weaken (Q := @batch_file R [suburb])).
      * intros ev. apply batch_file_more. intros x [<-|[]]. now left.
      * apply batch_round_files.
    + apply (respects_emitting_weaken (Q := @batch_file R rest)).
      * intros ev. apply batch_file_more. intros x Hx. now right.
      * apply IH.
Qed.

(** X19: every file the batch driver writes has at most forty rows and
    is named after the stripped first two fields of one of the lines of
    the suburb file that has three fields *)
Theorem batch_files_bounded (proxy user_agents_text suburbs_text : str) (w : W U)
    (run : outcome unit * W U * list (event R)) :
  main_uat1 R U Wd draw_choice draw_randint proxy user_agents_text suburbs_text w
  = Some run ->
  Forall (@batch_file R (load_lines suburbs_text)) (snd run).
Proof.
  unfold main_uat1.
  destruct (load_lines user_agents_text) as [|ua uas]; [discriminate|].
  destruct (load_lines suburbs_text) as [|line lines]; [discriminate|].
  cbn [negb]. intros [= <-].
  exact (respects_emitting_trace w (batch_loop_files proxy (ua :: uas) (line :: lines) 0)).
Qed.

(** X20: the batch stops at the first suburb whose call raises: the
    exception leaves the loop, and the lines after it are not looked at *)
Theorem batch_stops_at_first_failure (proxy : str) (user_agents : list str)
    (earlier later : list str) (line : str) (e : exn) :
  forall (i : nat) (w w1 w2 : W U) (t1 t2 : list (event R)),
    batch_loop R U Wd draw_choice draw_randint proxy user_agents i earlier w
    = (Ok tt, w1, t1) ->
    batch_round R U Wd draw_choice draw_randint proxy user_agents
      (i + length earlier) line w1 = (Raise e, w2, t2) ->
    batch_loop R U Wd draw_choice draw_randint proxy user_agents i
      (earlier ++ line :: later) w
    = (Raise e, w2, t1 ++ t2).
Proof.
  induction earlier as [|l earlier IH]; intros i w w1 w2 t1 t2 H1 H2.
  - injection H1 as <- <-. rewrite Nat.add_0_r in H2.
    cbn [app batch_loop]. unfold bind. now rewrite H2.
  - cbn [app batch_loop] in *. unfold bind in *.
    destruct (batch_round R U Wd draw_choice draw_randint proxy user_agents i l w)
      as [[[[]|e'] w'] t']; [|discriminate].
    destruct (batch_loop R U Wd draw_choice draw_randint proxy user_agents (S i) earlier w')
      as [[r'' w''] t''] eqn:Hrest.
    injection H1 as -> -> <-.
    cbn [length] in H2. rewrite Nat.add_succ_r in H2.
    rewrite (IH (S i) w' w1 w2 t'' t2 Hrest H2). now rewrite app_assoc.
Qed.
End BatchFiles.

(** ** The older entry point *)

Section Main33Facts.
Variable R : runtime.
Variable U : map_ui.
Variable Wd : world.
Variable search_goto : str -> outcome unit.
Variable search_text : str -> outcome str.

Lemma engine33_run (context : nat) (url : str) (s : state R U) :
  let sp := length (handles s) in
  let closed := set_handles (close_handle sp (open_under (Some context) (handles s))) s in
  let query := google_query url in
  search_email_on_website_33 Wd search_goto search_text context url s
  = match site_page Wd url with
    | NavError e => (Raise e, closed, [EGoto sp url 30000])
    | Rendered text =>
        if found (extract_email_from_rendered_text R text)
        then (Ok (extract_email_from_rendered_text R text), closed, [EGoto sp url 30000])
        else
          match sweep_outcome R Wd url common_contact_paths with
          | (visited, Some e) =>
              (Ok (Some e), closed, EGoto sp url 30000 :: gotos R sp 15000 visited)
          | (visited, None) =>
              (match search_goto query with
               | Raise e => Raise e
               | Ok _ =>
                   match search_text query with
                   | Ok visible_text => Ok (extract_email_from_rendered_text R visible_text)
                   | Raise _ => Ok None
                   end
               end, closed,
               EGoto sp url 30000 :: gotos R sp 15000 visited
                 ++ [EGoto sp query 30000])
          end
    end.
Proof.
  intros sp closed query.
  unfold search_email_on_website_33, bind at 1, open_handle.
  unfold try_finally, bind at 1. rewrite visit_run.
  destruct (site_page Wd url) as [e|text]; [reflexivity|].
  destruct (found (extract_email_from_rendered_text R text)); [reflexivity|].
  unfold bind at 1. rewrite sweep_run.
  destruct (sweep_outcome R Wd url common_contact_paths) as [visited [e|]];
    cbn [fst snd].
  - unfold ret, close, modify. simpl. now rewrite !app_nil_r.
  - unfold perform_site_specific_google_search_33, try_except, bind, emit, ext, ret,
      close, modify.
    fold query. cbn [handles set_handles].
    destruct (search_goto query) as [[]|e]; [destruct (search_text query)|];
      cbn [app]; rewrite ?app_nil_r; reflexivity.
Qed.

Lemma engine33_handles_only (context : nat) (url : str) (s : state R U) :
  exists hs,
    snd (fst (search_email_on_website_33 Wd search_goto search_text context url s))
    = set_handles hs s.
Proof.
  rewrite engine33_run.
  destruct (site_page Wd url) as [e|text]; [eexists; reflexivity|].
  destruct (found (extract_email_from_rendered_text R text)); [eexists; reflexivity|].
  destruct (sweep_outcome R Wd url common_contact_paths) as [visited [e|]];
    eexists; reflexivity.
Qed.

Ltac crunch_33 :=
  repeat match goal with
         | |- context [match search_email_on_website_33 ?W ?g ?t ?c ?url ?s with _ => _ end] =>
             let E := fresh "E" in
             destruct (@engine33_handles_only c url s) as [? E];
             destruct (search_email_on_website_33 W g t c url s) as [[? ?] ?];
             cbn [fst snd] in E; subst
         | |- context [match ?x with _ => _ end] =>
             lazymatch x with
             | context [match _ with _ => _ end] => fail
             | _ => destruct x eqn:?
             end
         end.

Lemma listed_more (h : list (Business R)) (obj : Business R) (l : list nat) :
  Forall (fun b => exists o, nth_error h b = Some o /\ complete o) l ->
  Forall (fun b => exists o, nth_error (h ++ [obj]) b = Some o /\ complete o) l.
Proof.
  apply Forall_impl. intros b (o & Hn & Hc). exists o. split; [|assumption].
  rewrite nth_error_app1; [assumption|]. apply nth_error_Some. congruence.
Qed.

Lemma listed_new (h : list (Business R)) (obj : Business R) :
  complete obj ->
  exists o, nth_error (h ++ [obj]) (length h) = Some o /\ complete o.
Proof.
  intros Hc. exists obj. split; [|assumption].
  now rewrite nth_error_app2, Nat.sub_diag by lia.
Qed.

(** one listing of the older loop: it never raises, a record it adds to
    the list is complete, and the records listed before stay as they
    were *)
Lemma process_listing_33_complete (context : nat) (lv : listing_view) (s : state R U) :
  let run := process_listing_33
               (search_email_on_website_33 Wd search_goto search_text context) lv s in
  fst (fst run) = Ok tt
  /\ (listed_complete s -> listed_complete (snd (fst run)))
  /\ length (business_list (snd (fst run))) <= S (length (business_list s)).
Proof.
  destruct s as [w hs hp vb bl]. unfold listed_complete.
  cbv [process_listing_33 try_except bind ext new_business assign modify
       append_business emit ret].
  crunch_33;
    cbn [fst snd heap set_heap set_handles set_var_business set_business_list
         handles ui var_business business_list] in *;
    rewrite ?update_nth_last;
    repeat match goal with
           | E : Some _ = Some _ |- _ => injection E as <-
           | E : Some _ = None |- _ => discriminate E
           end;
    (split; [reflexivity|]);
    (split; [|rewrite ?length_app; simpl; lia]);
    intros H;
    first [ exact H
          | apply listed_more; exact H
          | apply Forall_app; split;
            [ apply listed_more; exact H
            | constructor;
              [ apply listed_new; unfold complete; cbn; repeat split; discriminate
              | constructor ] ] ].
Qed.

(** X21: the listing loop of the older entry point never raises, and its
    result list holds complete records only: a listing whose extraction
    failed anywhere is left out *)
Theorem main33_rows_complete (context : nat) (listings : list listing_view)
    (s : state R U) :
  business_list s = [] ->
  let run := for_each_listing_33
               (search_email_on_website_33 Wd search_goto search_text context)
               listings s in
  fst (fst run) = Ok tt
  /\ Forall (@complete R) (rows_of (snd (fst run)))
  /\ length (rows_of (snd (fst run))) <= length listings.
Proof.
  intros Hl run. subst run.
  assert (H : forall l (s0 : state R U),
             let run := for_each_listing_33
                          (search_email_on_website_33 Wd search_goto search_text context)
                          l s0 in
             fst (fst run) = Ok tt
             /\ (listed_complete s0 -> listed_complete (snd (fst run)))
             /\ length (business_list (snd (fst run)))
                <= length l + length (business_list s0)).
  { induction l as [|lv rest IH]; intros s0; cbn [for_each_listing_33].
    - unfold ret. simpl. auto.
    - unfold bind. destruct (process_listing_33_complete context lv s0) as (Hr & Hk & Hn).
      destruct (process_listing_33 _ lv s0) as [[r1 s1] t1]. cbn [fst snd] in *. subst r1.
      destruct (IH s1) as (Hr' & Hk' & Hn').
      destruct (for_each_listing_33 _ rest s1) as [[r2 s2] t2]. cbn [fst snd length] in *.
      split; [assumption|]. split; [auto | lia]. }
  destruct (H listings s) as (Hr & Hk & Hn). split; [assumption|].
  rewrite Hl in Hn. simpl in Hn. rewrite Nat.add_0_r in Hn.
  split; [|unfold rows_of; now rewrite length_map].
  assert (Hc : listed_complete s) by (unfold listed_complete; rewrite Hl; constructor).
  specialize (Hk Hc). unfold listed_complete, rows_of in *.
  apply Forall_forall. intros row Hrow. apply in_map_iff in Hrow as (b & <- & Hb).
  rewrite Forall_forall in Hk. destruct (Hk b Hb) as (o & Hn' & Ho).
  now rewrite (nth_error_nth _ _ _ Hn').
Qed.

(** X22: in the older entry point a listing is lost when the search
    engine's page fails to load: the site showed no address, the
    navigation of the fallback raises outside its [try], and the record,
    although read in full, is not added to the list *)
Theorem main33_search_failure_drops_listing (context : nat) (lv : listing_view)
    (s : state R U) (vn va site vp text : str) (c : F R * F R) (e : exn) :
  lv_click lv = Ok tt ->
  lv_name lv = Ok vn -> lv_address lv = Ok va ->
  lv_website lv = Ok site -> lv_phone lv = Ok vp ->
  extract_coordinates_from_url R (lv_url lv) = Ok c ->
  site <> [] -> is_valid_url (with_scheme site) = true ->
  site_page Wd (with_scheme site) = Rendered text ->
  found (extract_email_from_rendered_text R text) = false ->
  (forall q, In q common_contact_paths ->
     yields R (site_page Wd (contact_url (with_scheme site) q)) = None) ->
  search_goto (google_query (with_scheme site)) = Raise e ->
  let run := process_listing_33
               (search_email_on_website_33 Wd search_goto search_text context) lv s in
  let sp := length (handles s) in
  fst (fst run) = Ok tt
  /\ business_list (snd (fst run)) = business_list s
  /\ snd run
     = EGoto sp (with_scheme site) 30000
       :: gotos R sp 15000 (map (contact_url (with_scheme site)) common_contact_paths)
       ++ [EGoto sp (google_query (with_scheme site)) 30000;
           EPrint (PErrorExtracting e)].
Proof.
  intros Hclick Hname Haddress Hsite Hphone Hc Hne Hvalid Hpage Hfound Hsweep Hgoto
    run sp. subst run sp.
  assert (Hor : or_empty site = site) by (destruct site; [congruence | reflexivity]).
  assert (Ht : truthy site = true) by (destruct site; [congruence | reflexivity]).
  unfold process_listing_33, try_except, bind, ext, new_business, assign, modify, emit.
  rewrite Hclick, Hname, Haddress, Hsite, Hphone, Hc, Hor, Ht.
  cbv zeta.
  change (if negb (startswith_any scheme_prefixes site)
          then s2l "https://" ++ site else site) with (with_scheme site).
  rewrite Hvalid, engine33_run, Hpage, Hfound.
  rewrite (sweep_outcome_none R Wd (with_scheme site) common_contact_paths Hsweep), Hgoto.
  cbn [fst snd business_list set_heap set_var_business set_handles].
  repeat split.
Qed.
End Main33Facts.

(** ** The further properties on sample inputs *)

Lemma extracted_email_is_leftmost_witness :
  email_shape (s2l "info@shop.example")
  /\ found (Some (s2l "info@shop.example")) = true
  /\ exists pre post,
       s2l "Write to info@shop.example today" = pre ++ s2l "info@shop.example" ++ post
       /\ forall p1 p2 m rest,
            pre = p1 ++ p2 -> p2 <> [] ->
            p2 ++ s2l "info@shop.example" ++ post = m ++ rest ->
            ~ email_shape m.
Proof.
  exact (@extracted_email_is_leftmost regex_runtime (fun _ => eq_refl)
           (s2l "Write to info@shop.example today") (s2l "info@shop.example") eq_refl).
Defined.

Lemma no_email_iff_no_shape_witness :
  extract_email_from_rendered_text regex_runtime (s2l "call 555 0100") = None
  <-> (forall pre m post, s2l "call 555 0100" = pre ++ m ++ post -> ~ email_shape m).
Proof.
  exact (@no_email_iff_no_shape regex_runtime (fun _ => eq_refl) (s2l "call 555 0100")).
Defined.

Lemma engine_result_provenance_witness :
  s2l "info@mail.example" <> []
  /\ exists pr,
       In pr (engine_pages sample_world (s2l "https://mail.example"))
       /\ yields sample_runtime pr = Some (s2l "info@mail.example").
Proof.
  exact (@engine_result_provenance sample_runtime sample_ui sample_world 0 1
           (s2l "https://mail.example") (s2l "info@mail.example") (sample_state [])
           eq_refl).
Defined.

Lemma contact_sweep_ignores_trailing_slashes_witness :
  sweep_contact_paths sample_world 0 (s2l "https://shop.example" ++ repeat "/"%char 2)
    common_contact_paths (sample_state [])
  = sweep_contact_paths sample_world 0 (s2l "https://shop.example")
      common_contact_paths (sample_state []).
Proof.
  exact (proj1 (@contact_sweep_ignores_trailing_slashes sample_runtime sample_ui
                  sample_world 0 (s2l "https://shop.example") common_contact_paths
                  (sample_state [])) 2).
Defined.

Lemma loader_on_growing_feed_witness :
  exists w' t items',
    scroll_to_load_more sample_runtime growing_ui 5 10 2 = (Ok tt, w', t)
    /\ ui_items growing_ui w' = Ok items'
    /\ ~ In (EWait 20000) t
    /\ scrolls t <= Z.to_nat (5 - Z.of_nat (length (repeat dead_listing 2)))
    /\ ((5 <= Z.of_nat (length items'))%Z \/ scrolls t = Z.to_nat 10).
Proof.
  apply (@loader_on_growing_feed sample_runtime growing_ui (fun _ => True)).
  - intros w items _ H. exists w, (repeat dead_listing (S w)).
    injection H as <-. repeat split. rewrite !repeat_length. apply Nat.lt_succ_diag_r.
  - exact I.
  - reflexivity.
  - reflexivity.
  - discriminate.
Defined.

Lemma failed_coordinates_skip_discovery_witness :
  let run := process_listing sample_world 0 1 no_coordinates_listing (sample_state []) in
  fst (fst run) = Ok tt
  /\ snd run = [EPrint (PErrorExtracting (ValueError (s2l "https:")))]
  /\ heap (snd (fst run))
     = [] ++ [{| name := Some (or_empty (s2l "Cafe"));
                 address := Some (or_empty (s2l "1 Main St"));
                 website := Some (or_empty (s2l "mail.example"));
                 phone_number := Some (or_empty (s2l "555 0100"));
                 email := None; latitude := None; longitude := None |}]
  /\ business_list (snd (fst run)) = [] ++ [0].
Proof.
  exact (@failed_coordinates_skip_discovery sample_runtime sample_ui sample_world 0 1
           no_coordinates_listing (sample_state []) (s2l "Cafe") (s2l "1 Main St")
           (s2l "mail.example") (s2l "555 0100") (ValueError (s2l "https:"))
           eq_refl eq_refl eq_refl eq_refl eq_refl eq_refl).
Defined.

Lemma saved_rows_filled_in_order_witness :
  let run :=
    scrape_google_maps sample_world (s2l "http://proxy.example") (s2l "Mozilla/5.0")
      2 1 (s2l "Kew") (s2l "VIC")
      (initial_state sample_runtime sample_ui [[no_phone_listing; dead_listing]]) in
  Forall (@filled_in_order sample_runtime) (rows_of (snd (fst run))).
Proof.
  intros run.
  apply (@saved_rows_filled_in_order sample_runtime sample_ui sample_world
           (s2l "http://proxy.example") (s2l "Mozilla/5.0") 2 1
           (s2l "Kew") (s2l "VIC") [[no_phone_listing; dead_listing]]
           true (s2l "Kew_VIC") (rows_of (snd (fst run)))).
  apply (@nth_error_In _ (snd run) 6). reflexivity.
Defined.

Lemma completed_run_saves_both_witness :
  let run :=
    scrape_google_maps sample_world (s2l "http://proxy.example") (s2l "Mozilla/5.0")
      2 1 (s2l "Kew") (s2l "VIC")
      (initial_state sample_runtime sample_ui [[no_phone_listing; dead_listing]]) in
  exists t0,
    snd run = t0 ++ [ESave true (file_stem (s2l "Kew") (s2l "VIC")) (rows_of (snd (fst run)));
                     ESave false (file_stem (s2l "Kew") (s2l "VIC")) (rows_of (snd (fst run)))]
    /\ existsb (@is_save sample_runtime) t0 = false.
Proof.
  intros run.
  apply (@completed_run_saves_both sample_runtime sample_ui sample_world
           (s2l "http://proxy.example") (s2l "Mozilla/5.0") 2 1
           (s2l "Kew") (s2l "VIC")
           (initial_state sample_runtime sample_ui [[no_phone_listing; dead_listing]])).
  reflexivity.
Defined.

Lemma file_stem_safe_witness :
  file_stem (s2l "Montr" ++ "233"%char :: s2l "al Nord") (s2l "QC")
  = s2l "Montr" ++ "233"%char :: s2l "al_Nord_QC".
Proof.
  exact (proj2 (file_stem_safe (s2l "Montr" ++ "233"%char :: s2l "al Nord") (s2l "QC"))
           eq_refl eq_refl).
Defined.

Lemma extract_coordinates_single_field_witness :
  extract_coordinates_from_url sample_runtime
    (s2l "https://www.google.com/maps/place/Cafe" ++ s2l "/@" ++ s2l "-37.8" ++ s2l "/data")
  = Raise IndexError.
Proof.
  exact (@extract_coordinates_single_field sample_runtime
           (s2l "https://www.google.com/maps/place/Cafe") (s2l "-37.8") (s2l "/data")
           eq_refl (or_intror (ex_intro _ (s2l "data") eq_refl)) eq_refl).
Defined.

Lemma load_lines_clean_witness :
  let line := s2l "Kew, VIC, 3101" in
  line <> []
  /\ strip line = line
  /\ (forall c t, line = c :: t -> is_space c = false)
  /\ (forall c t, line = t ++ [c] -> is_space c = false).
Proof.
  exact (@load_lines_clean
           (s2l "Fitzroy, VIC, 3065" ++ newline ++ newline
              ++ s2l "   Kew, VIC, 3101  " ++ newline)
           (s2l "Kew, VIC, 3101") (or_intror (or_introl eq_refl))).
Defined.

Lemma batch_round_well_formed_witness :
  exists user_agent,
    In user_agent (load_lines (s2l "Mozilla/5.0" ++ newline))
    /\ validate_inputs (s2l "http://" ++ s2l "https://proxy.example:8080") user_agent = Ok tt
    /\ batch_round sample_runtime sample_ui sample_world (fun _ => 0) (fun _ => 7)
         (s2l "https://proxy.example:8080") (load_lines (s2l "Mozilla/5.0" ++ newline)) 0
         (s2l "Kew" ++ s2l "," ++ s2l " VIC" ++ s2l "," ++ s2l " 3101") [[]]
       = @invoke sample_runtime sample_ui unit
           (try_finally
              (with_browsers sample_world (randint (fun _ => 7) 0 2 5) 40
                 (strip (s2l "Kew")) (strip (s2l " VIC")))
              (modify (fun s => set_handles (close_all (handles s)) s))) [[]].
Proof.
  apply (proj2 (@batch_round_well_formed sample_runtime sample_ui sample_world
                  (fun _ => 0) (fun _ => 7) (s2l "https://proxy.example:8080")
                  (s2l "Mozilla/5.0" ++ newline) 0 (s2l "Kew") (s2l " VIC") (s2l " 3101")
                  [[]] ltac:(discriminate) eq_refl eq_refl eq_refl)).
Defined.

Lemma batch_round_malformed_witness :
  batch_round sample_runtime sample_ui sample_world (fun _ => 0) (fun _ => 7)
    (s2l "proxy.example:8080") [s2l "Mozilla/5.0"] 0 (s2l "Kew VIC 3101") [[]]
  = (Ok tt, [[]], []).
Proof.
  apply (@batch_round_malformed sample_runtime sample_ui sample_world
           (fun _ => 0) (fun _ => 7) (s2l "proxy.example:8080") [s2l "Mozilla/5.0"] 0
           (s2l "Kew VIC 3101") [[]]); discriminate.
Defined.

Lemma batch_files_bounded_witness :
  let suburbs_text := s2l "Kew, VIC, 3101" ++ newline ++ s2l "nowhere" ++ newline in
  Forall (@batch_file sample_runtime (load_lines suburbs_text))
    (snd (batch_loop sample_runtime sample_ui sample_world (fun _ => 0) (fun _ => 7)
            (s2l "proxy.example:8080") (load_lines (s2l "Mozilla/5.0" ++ newline)) 0
            (load_lines suburbs_text) [[no_phone_listing]])).
Proof.
  intros suburbs_text.
  apply (@batch_files_bounded sample_runtime sample_ui sample_world
           (fun _ => 0) (fun _ => 7) (s2l "proxy.example:8080")
           (s2l "Mozilla/5.0" ++ newline) suburbs_text [[no_phone_listing]]).
  reflexivity.
Defined.

Lemma surjective_triple {A B C} (x : A * B * C) (a : A) :
  fst (fst x) = a -> x = (a, snd (fst x), snd x).
Proof. destruct x as [[a' b] c]. simpl. now intros ->. Defined.

Lemma batch_stops_at_first_failure_witness :
  fst (fst (batch_loop sample_runtime sample_ui sample_world (fun _ => 0) (fun _ => 7)
              (s2l "proxy.example:8080") [s2l "Mozilla/5.0"] 0
              ([] ++ s2l "Kew, VIC, 3101" :: [s2l "Fitzroy, VIC, 3065"])
              [[dead_listing]]))
  = Raise UnboundLocalError.
Proof.
  rewrite (@batch_stops_at_first_failure sample_runtime sample_ui sample_world
             (fun _ => 0) (fun _ => 7) (s2l "proxy.example:8080") [s2l "Mozilla/5.0"]
             [] [s2l "Fitzroy, VIC, 3065"] (s2l "Kew, VIC, 3101") UnboundLocalError
             0 [[dead_listing]] [[dead_listing]] _ [] _ eq_refl
             (surjective_triple _ eq_refl)).
  reflexivity.
Defined.

Lemma main33_rows_complete_witness :
  let run := for_each_listing_33
               (search_email_on_website_33 sample_world
                  (fun _ => Raise PlaywrightTimeout) (fun _ => Ok []) 0)
               [no_phone_listing; sample_listing EmptyString] (sample_state []) in
  fst (fst run) = Ok tt
  /\ Forall (@complete sample_runtime) (rows_of (snd (fst run)))
  /\ length (rows_of (snd (fst run))) <= 2.
Proof.
  exact (@main33_rows_complete sample_runtime sample_ui sample_world
           (fun _ => Raise PlaywrightTimeout) (fun _ => Ok []) 0
           [no_phone_listing; sample_listing EmptyString] (sample_state []) eq_refl).
Defined.

Lemma main33_search_failure_drops_listing_witness :
  let run := process_listing_33
               (search_email_on_website_33 sample_world
                  (fun _ => Raise PlaywrightTimeout) (fun _ => Ok []) 0)
               (sample_listing "silent.example") (sample_state []) in
  fst (fst run) = Ok tt /\ business_list (snd (fst run)) = [].
Proof.
  intros run.
  destruct (@main33_search_failure_drops_listing sample_runtime sample_ui sample_world
              (fun _ => Raise PlaywrightTimeout) (fun _ => Ok []) 0
              (sample_listing "silent.example") (sample_state [])
              (s2l "Cafe") (s2l "1 Main St") (s2l "silent.example") (s2l "555 0100") []
              ((-378)%Z, 1, (1449%Z, 1)) PlaywrightTimeout
              eq_refl eq_refl eq_refl eq_refl eq_refl eq_refl
              ltac:(discriminate) eq_refl eq_refl eq_refl
              (proj1 (proj2 (@sample_nothing_discoverable "https://silent.example"
                               (or_introl eq_refl))))
              eq_refl) as (H1 & H2 & _).
  split; assumption.
Defined.

Lemma unclickable_first_listing_ends_run_witness :
  let run := scrape_google_maps sample_world (s2l "http://proxy.example:8080")
               (s2l "Mozilla/5.0") 2 40 (s2l "Fitzroy") (s2l "VIC")
               (initial_state sample_runtime sample_ui [[dead_listing]]) in
  fst (fst run) = Raise UnboundLocalError
  /\ snd run
     = ELaunch true :: ELaunch false
       :: snd (scroll_to_load_more sample_runtime sample_ui 40 10 [[dead_listing]])
       ++ [EPrint (PErrorExtracting PlaywrightTimeout)].
Proof.
  exact (@unclickable_first_listing_ends_run sample_runtime sample_ui sample_world
           (s2l "http://proxy.example:8080") (s2l "Mozilla/5.0") 2 40
           (s2l "Fitzroy") (s2l "VIC") [[dead_listing]] [[dead_listing]]
           (snd (fst (scroll_to_load_more sample_runtime sample_ui 40 10 [[dead_listing]])))
           (fst (fst (scroll_to_load_more sample_runtime sample_ui 40 10 [[dead_listing]])))
           (snd (scroll_to_load_more sample_runtime sample_ui 40 10 [[dead_listing]]))
           dead_listing [] PlaywrightTimeout
           eq_refl eq_refl eq_refl eq_refl eq_refl eq_refl eq_refl eq_refl eq_refl).
Defined.
